(** * ECS core of rohingosling/ecs-game-engine: a shallow embedding

    The development follows the headers of the [ecs] namespace:
    Entity.h, Signature.h, EntityManager.h, ComponentArray.h,
    ComponentManager.h, System.h, World.h and World.cpp; then, of the
    [engine] namespace, CommandManager.h, EventManager.h,
    ApplicationSettings.h and SDLKeyboard.h, and the TerminalSystem of the
    hello_world program.

    - [uint32_t] and [std::size_t] scalars that the code does arithmetic on
      are binary naturals [N] with the wrap-around written out;
    - [std::bitset<64>] is an [N] read bit by bit ([N.testbit], [N.setbit],
      [N.clearbit], [N.land]);
    - [std::vector], [std::array] and [std::queue] are lists, positions in a
      vector are [nat];
    - [std::unordered_map] is a [gmap], [std::set] is a [gset];
    - a failed [assert], a thrown [std::out_of_range] and an access outside
      a container are the three ways a call does not return normally. *)

From Stdlib Require Import NArith Lia Sorted Ascii.
From stdpp Require Import base option list gmap strings fin_maps fin_sets sorting.

#[local] Set Warnings "-clear-no-such-hyp".

Local Open Scope N_scope.

(** ** Abnormal termination *)

Inductive fault : Type :=
| AssertionFailure     (* a violated [assert]: fatal contract failure *)
| OutOfRange           (* [std::out_of_range] thrown by [std::bitset] *)
| UndefinedBehaviour.  (* access outside a container, null dereference *)

Inductive result (A : Type) : Type :=
| Ok (a : A)
| Fail (f : fault).
Arguments Ok {A} a.
Arguments Fail {A} f.

#[global] Instance result_ret : MRet result := λ A a, Ok a.
#[global] Instance result_bind : MBind result := λ A B k r,
  match r with
  | Ok a => k a
  | Fail f => Fail f
  end.
#[global] Instance fault_eq_dec : EqDecision fault.
Proof. solve_decision. Defined.

Definition cassert (b : bool) : result unit :=
  if b then Ok tt else Fail AssertionFailure.

Definition is_ok {A} (r : result A) : bool :=
  match r with Ok _ => true | Fail _ => false end.

(** ** Entity.h *)

Abbreviation Entity := N (only parsing).

Definition NULL_ENTITY : Entity := 0.
Definition MAX_ENTITIES : Entity := 4096.

(** [uint32_t] arithmetic. *)
Definition u32_wrap (n : N) : N := n mod 2 ^ 32.
Definition u32_incr (n : N) : N := u32_wrap (n + 1).
Definition u32_decr (n : N) : N := u32_wrap (n + 2 ^ 32 - 1).

(** ** Signature.h *)

Definition MAX_COMPONENTS : N := 64.
Abbreviation Signature := N (only parsing).
Abbreviation ComponentBit := N (only parsing).

Module Sig.
Definition empty : Signature := 0.

(** [bitset::set(pos)] and [bitset::reset(pos)] throw when
    [pos >= MAX_COMPONENTS]. *)
Definition set (s : Signature) (pos : ComponentBit) : result Signature :=
  if pos <? MAX_COMPONENTS then Ok (N.setbit s pos) else Fail OutOfRange.

Definition reset_bit (s : Signature) (pos : ComponentBit) : result Signature :=
  if pos <? MAX_COMPONENTS then Ok (N.clearbit s pos) else Fail OutOfRange.

(** [bitset::test] on a position inside the bitset. *)
Definition test (s : Signature) (pos : ComponentBit) : bool := N.testbit s pos.

Definition any (s : Signature) : bool := negb (s =? 0).

(** [(entitySignature & systemSig) == systemSig] *)
Definition matches (entitySignature systemSig : Signature) : bool :=
  N.land entitySignature systemSig =? systemSig.

End Sig.

(** ** EntityManager.h *)

Record EntityManager : Type := mkEntityManager {
  availableIds : list Entity;     (* std::queue: front of the queue first *)
  signatures   : list Signature;  (* std::array <Signature, MAX_ENTITIES + 1> *)
  livingCount  : N                (* uint32_t *)
}.

Definition entity_in_range (entity : Entity) : bool :=
  (NULL_ENTITY <? entity) && (entity <=? MAX_ENTITIES).

(** The ids the constructor's loop pushes, in order:
    [for (e = first; ...; ++e) push (e)], [count] iterations. *)
Fixpoint pushed_ids (first : Entity) (count : nat) : list Entity :=
  match count with
  | O => []
  | S k => first :: pushed_ids (first + 1) k
  end.

Module EM.
Definition new : EntityManager :=
  {| availableIds := pushed_ids 1 (N.to_nat MAX_ENTITIES);
     signatures   := replicate (N.to_nat (MAX_ENTITIES + 1)) Sig.empty;
     livingCount  := 0 |}.

Definition getSignature (em : EntityManager) (entity : Entity) : result Signature :=
  _ ← cassert (entity_in_range entity);
  match signatures em !! N.to_nat entity with
  | Some s => Ok s
  | None => Fail UndefinedBehaviour
  end.

Definition getLivingCount (em : EntityManager) : N := livingCount em.

Definition setSignature (em : EntityManager) (entity : Entity) (signature : Signature)
  : result EntityManager :=
  _ ← cassert (entity_in_range entity);
  if decide (N.to_nat entity < length (signatures em))%nat then
    Ok {| availableIds := availableIds em;
          signatures   := <[N.to_nat entity := signature]> (signatures em);
          livingCount  := livingCount em |}
  else Fail UndefinedBehaviour.

Definition createEntity (em : EntityManager) : result (Entity * EntityManager) :=
  _ ← cassert (livingCount em <? MAX_ENTITIES);
  match availableIds em with
  | [] => Fail UndefinedBehaviour          (* front () of an empty queue *)
  | id :: rest =>
      Ok (id, {| availableIds := rest;
                 signatures   := signatures em;
                 livingCount  := u32_incr (livingCount em) |})
  end.

Definition destroyEntity (em : EntityManager) (entity : Entity) : result EntityManager :=
  _ ← cassert (entity_in_range entity);
  if decide (N.to_nat entity < length (signatures em))%nat then
    Ok {| availableIds := availableIds em ++ [entity];
          signatures   := <[N.to_nat entity := Sig.empty]> (signatures em);
          livingCount  := u32_decr (livingCount em) |}
  else Fail UndefinedBehaviour.

(** The array has the length its type gives it. *)
Definition array_ok (em : EntityManager) : Prop :=
  length (signatures em) = N.to_nat (MAX_ENTITIES + 1).
End EM.

(** ** ComponentArray.h *)

(** [std::vector] accessed with [operator[]], and [pop_back]: outside the
    vector the behaviour is undefined. *)
Definition vec_get {A} (v : list A) (i : nat) : result A :=
  match v !! i with
  | Some x => Ok x
  | None => Fail UndefinedBehaviour
  end.

Definition vec_set {A} (v : list A) (i : nat) (x : A) : result (list A) :=
  if decide (i < length v)%nat then Ok (<[i := x]> v) else Fail UndefinedBehaviour.

Definition vec_pop {A} (v : list A) : result (list A) :=
  match v with
  | [] => Fail UndefinedBehaviour
  | _ :: _ => Ok (take (length v - 1) v)
  end.

Record ComponentArray (T : Type) : Type := mkComponentArray {
  components    : list T;
  entityToIndex : gmap Entity nat;
  indexToEntity : list Entity
}.
Arguments mkComponentArray {T} _ _ _.
Arguments components {T} _.
Arguments entityToIndex {T} _.
Arguments indexToEntity {T} _.

Module CA.
Section component_array.
Context {T : Type}.
Implicit Types (ca : ComponentArray T) (entity : Entity) (component : T).

Definition new : ComponentArray T :=
  {| components := []; entityToIndex := ∅; indexToEntity := [] |}.

Definition has ca entity : bool :=
  bool_decide (is_Some (entityToIndex ca !! entity)).

Definition size ca : nat := length (components ca).

Definition get ca entity : result T :=
  match entityToIndex ca !! entity with
  | None => Fail AssertionFailure
  | Some index => vec_get (components ca) index
  end.

Definition getData ca : list T := components ca.

Definition getEntity ca (index : nat) : result Entity :=
  vec_get (indexToEntity ca) index.

Definition insert ca entity component : result (ComponentArray T) :=
  _ ← cassert (negb (has ca entity));
  let newIndex := length (components ca) in
  Ok {| components    := components ca ++ [component];
        entityToIndex := <[entity := newIndex]> (entityToIndex ca);
        indexToEntity := indexToEntity ca ++ [entity] |}.

(** [lastIndex = components.size () - 1] is computed in [std::size_t]:
    on an empty vector it wraps around to the largest value, and then
    either the element accesses or [pop_back] leave the vector. *)
Definition remove ca entity : result (ComponentArray T) :=
  match entityToIndex ca !! entity with
  | None => Fail AssertionFailure
  | Some removedIndex =>
      if decide (length (components ca) = 0)%nat then Fail UndefinedBehaviour
      else
        let lastIndex := (length (components ca) - 1)%nat in
        '(comps, e2i, i2e) ←
          (if decide (removedIndex ≠ lastIndex) then
             moved ← vec_get (components ca) lastIndex;
             comps ← vec_set (components ca) removedIndex moved;
             lastEntity ← vec_get (indexToEntity ca) lastIndex;
             i2e ← vec_set (indexToEntity ca) removedIndex lastEntity;
             Ok (comps, <[lastEntity := removedIndex]> (entityToIndex ca), i2e)
           else Ok (components ca, entityToIndex ca, indexToEntity ca));
        comps ← vec_pop comps;
        i2e ← vec_pop i2e;
        Ok {| components    := comps;
              entityToIndex := delete entity e2i;
              indexToEntity := i2e |}
  end.

Definition entityDestroyed ca entity : result (ComponentArray T) :=
  if has ca entity then remove ca entity else Ok ca.
End component_array.
End CA.

(** ** ComponentManager.h *)

(** A [std::type_index] is the name of the component type. *)
Abbreviation TypeIndex := string (only parsing).

Definition size_t_wrap (n : N) : N := n mod 2 ^ 64.

Record ComponentManager (T : Type) : Type := mkComponentManager {
  typeToBit   : gmap TypeIndex ComponentBit;
  typeToArray : gmap TypeIndex (ComponentArray T);
  nextBit     : ComponentBit
}.
Arguments mkComponentManager {T} _ _ _.
Arguments typeToBit {T} _.
Arguments typeToArray {T} _.
Arguments nextBit {T} _.

Definition from_ok {A} (d : A) (r : result A) : A :=
  match r with Ok a => a | Fail _ => d end.

Module CM.
Section component_manager.
Context {T : Type}.
Implicit Types (cm : ComponentManager T) (ti : TypeIndex) (entity : Entity).

Definition new : ComponentManager T :=
  {| typeToBit := ∅; typeToArray := ∅; nextBit := 0 |}.

Definition getBit cm ti : result ComponentBit :=
  match typeToBit cm !! ti with
  | Some bit => Ok bit
  | None => Fail AssertionFailure
  end.

Definition getComponentArray cm ti : result (ComponentArray T) :=
  match typeToArray cm !! ti with
  | Some array => Ok array
  | None => Fail AssertionFailure
  end.

Definition getComponent cm ti entity : result T :=
  array ← getComponentArray cm ti;
  CA.get array entity.

Definition hasComponent cm ti entity : result bool :=
  array ← getComponentArray cm ti;
  Ok (CA.has array entity).

Definition registerComponent cm ti : result (ComponentManager T) :=
  _ ← cassert (bool_decide (typeToBit cm !! ti = None));
  Ok {| typeToBit   := <[ti := nextBit cm]> (typeToBit cm);
        typeToArray := <[ti := CA.new]> (typeToArray cm);
        nextBit     := size_t_wrap (nextBit cm + 1) |}.

(** The arrays are held through [shared_ptr]: a call on the array found
    in the map changes the array in the map. *)
Definition addComponent cm ti entity (component : T) : result (ComponentManager T) :=
  array ← getComponentArray cm ti;
  array' ← CA.insert array entity component;
  Ok {| typeToBit   := typeToBit cm;
        typeToArray := <[ti := array']> (typeToArray cm);
        nextBit     := nextBit cm |}.

Definition removeComponent cm ti entity : result (ComponentManager T) :=
  array ← getComponentArray cm ti;
  array' ← CA.remove array entity;
  Ok {| typeToBit   := typeToBit cm;
        typeToArray := <[ti := array']> (typeToArray cm);
        nextBit     := nextBit cm |}.

(** The loop calls [entityDestroyed] once on every registered array; the
    arrays are distinct objects, so the visits are independent of the
    (unspecified) iteration order. A visit can only go wrong inside a
    [remove] whose assertion has passed. *)
Definition entityDestroyed cm entity : result (ComponentManager T) :=
  if decide (map_Forall (λ _ array, is_ok (CA.entityDestroyed array entity) = true)
                        (typeToArray cm))
  then
    Ok {| typeToBit   := typeToBit cm;
          typeToArray := (λ array, from_ok array (CA.entityDestroyed array entity))
                           <$> typeToArray cm;
          nextBit     := nextBit cm |}
  else Fail UndefinedBehaviour.
End component_manager.
End CM.

(** ** System.h *)

(** [class] names the derived class that [registerSystem <T>] constructs and
    [instance] is the identity of the object [std::make_shared] returned;
    neither is a data member in the source, they say which object's
    [update] override a call reaches. *)
Record System : Type := mkSystem {
  entities  : gset Entity;
  name      : string;
  signature : Signature;
  enabled   : bool;
  class     : string;
  instance  : nat
}.

(** ** World.h, World.cpp *)

Record World (T : Type) : Type := mkWorld {
  entityManager    : EntityManager;
  componentManager : ComponentManager T;
  systems          : gmap string System;
  systemOrder      : list string;
  allocated        : nat   (* System objects constructed so far *)
}.
Arguments mkWorld {T} _ _ _ _ _.
Arguments entityManager {T} _.
Arguments componentManager {T} _.
Arguments systems {T} _.
Arguments systemOrder {T} _.
Arguments allocated {T} _.

Definition system_insert (entity : Entity) (s : System) : System :=
  {| entities := {[entity]} ∪ entities s; name := name s; signature := signature s;
     enabled := enabled s; class := class s; instance := instance s |}.

Definition system_erase (entity : Entity) (s : System) : System :=
  {| entities := entities s ∖ {[entity]}; name := name s; signature := signature s;
     enabled := enabled s; class := class s; instance := instance s |}.

Module W.
Section world.
Context {T : Type}.
Implicit Types (w : World T) (entity : Entity) (ti : TypeIndex).

Definition new : World T :=
  {| entityManager := EM.new; componentManager := CM.new;
     systems := ∅; systemOrder := []; allocated := 0 |}.

Definition getComponent w ti entity : result T :=
  CM.getComponent (componentManager w) ti entity.

Definition hasComponent w ti entity : result bool :=
  CM.hasComponent (componentManager w) ti entity.

Definition getComponentBit w ti : result ComponentBit :=
  CM.getBit (componentManager w) ti.

Definition getEntityCount w : N := EM.getLivingCount (entityManager w).

Definition isAlive w entity : result bool :=
  if (entity =? NULL_ENTITY) || (MAX_ENTITIES <? entity) then Ok false
  else
    s ← EM.getSignature (entityManager w) entity;
    Ok (Sig.any s).

Definition createEntity w : result (Entity * World T) :=
  '(id, em) ← EM.createEntity (entityManager w);
  Ok (id, {| entityManager := em; componentManager := componentManager w;
             systems := systems w; systemOrder := systemOrder w;
             allocated := allocated w |}).

(** One visit of the loop in [updateSystemEntitySets]. *)
Definition refresh (entity : Entity) (entitySignature : Signature) (s : System) : System :=
  if Sig.matches entitySignature (signature s)
  then system_insert entity s
  else system_erase entity s.

Definition updateSystemEntitySets w entity (entitySignature : Signature) : World T :=
  {| entityManager := entityManager w; componentManager := componentManager w;
     systems := refresh entity entitySignature <$> systems w;
     systemOrder := systemOrder w; allocated := allocated w |}.

Definition destroyEntity w entity : result (World T) :=
  let systems' := system_erase entity <$> systems w in
  cm ← CM.entityDestroyed (componentManager w) entity;
  em ← EM.destroyEntity (entityManager w) entity;
  Ok {| entityManager := em; componentManager := cm;
        systems := systems'; systemOrder := systemOrder w;
        allocated := allocated w |}.

Definition registerComponent w ti : result (World T) :=
  cm ← CM.registerComponent (componentManager w) ti;
  Ok {| entityManager := entityManager w; componentManager := cm;
        systems := systems w; systemOrder := systemOrder w;
        allocated := allocated w |}.

Definition addComponent w ti entity (component : T) : result (World T) :=
  cm ← CM.addComponent (componentManager w) ti entity component;
  sig ← EM.getSignature (entityManager w) entity;
  bit ← CM.getBit cm ti;
  sig ← Sig.set sig bit;
  em ← EM.setSignature (entityManager w) entity sig;
  Ok (updateSystemEntitySets
        {| entityManager := em; componentManager := cm;
           systems := systems w; systemOrder := systemOrder w;
           allocated := allocated w |} entity sig).

Definition removeComponent w ti entity : result (World T) :=
  cm ← CM.removeComponent (componentManager w) ti entity;
  sig ← EM.getSignature (entityManager w) entity;
  bit ← CM.getBit cm ti;
  sig ← Sig.reset_bit sig bit;
  em ← EM.setSignature (entityManager w) entity sig;
  Ok (updateSystemEntitySets
        {| entityManager := em; componentManager := cm;
           systems := systems w; systemOrder := systemOrder w;
           allocated := allocated w |} entity sig).

(** The fold expression sets the bits from left to right. *)
Fixpoint makeSignature_from (sig : Signature) w (tis : list TypeIndex) : result Signature :=
  match tis with
  | [] => Ok sig
  | ti :: rest =>
      bit ← CM.getBit (componentManager w) ti;
      sig' ← Sig.set sig bit;
      makeSignature_from sig' w rest
  end.

Definition makeSignature w (tis : list TypeIndex) : result Signature :=
  makeSignature_from Sig.empty w tis.

Definition registerSystem w (cls : string) (nm : string) (sig : Signature)
  : System * World T :=
  let system := {| entities := ∅; name := nm; signature := sig; enabled := true;
                   class := cls; instance := allocated w |} in
  (system,
   {| entityManager := entityManager w; componentManager := componentManager w;
      systems := <[nm := system]> (systems w);
      systemOrder := systemOrder w ++ [nm];
      allocated := S (allocated w) |}).

Definition getSystem w (nm : string) : option System := systems w !! nm.

(** What application code does through the handle [registerSystem]
    returned: [system->enabled = flag]. *)
Definition setEnabled w (nm : string) (flag : bool) : World T :=
  {| entityManager := entityManager w; componentManager := componentManager w;
     systems := alter (λ s, {| entities := entities s; name := name s;
                               signature := signature s; enabled := flag;
                               class := class s; instance := instance s |})
                      nm (systems w);
     systemOrder := systemOrder w; allocated := allocated w |}.

(** [update] is the table of the [System::update] overrides: the class
    and the object it runs on, the world and [dt]. The loop walks the
    update list as it was when the call started and returns, next to the
    world, the instances whose [update] it invoked, in order. *)
Section update_systems.
Context {Time : Type}.
Variable update : string → nat → World T → Time → result (World T).

Fixpoint updateSystems_loop (names : list string) w (dt : Time) (invoked : list nat)
  : result (World T * list nat) :=
  match names with
  | [] => Ok (w, invoked)
  | nm :: rest =>
      match systems w !! nm with
      | None => Fail UndefinedBehaviour   (* [systems [name]] is a null pointer *)
      | Some system =>
          if enabled system then
            w' ← update (class system) (instance system) w dt;
            updateSystems_loop rest w' dt (invoked ++ [instance system])
          else updateSystems_loop rest w dt invoked
      end
  end.

Definition updateSystems w (dt : Time) : result (World T * list nat) :=
  updateSystems_loop (systemOrder w) w dt [].
End update_systems.
End world.
End W.


(** ** CommandManager.h *)

(** A command is a [std::function <void ()>]: a closure over application
    state. The queue holds the closures by a name of type [C]; [exec] says
    what calling one does to the application state [St] and which commands
    it posts to this manager while it runs. [flush] loops until the queue
    is empty; the model counts the iterations down from [fuel] and also
    returns the commands it called, in order. *)
Module Commands.
Record CommandManager (C : Type) : Type := mk {
  commandQueue : list C            (* std::queue: front of the queue first *)
}.
Arguments mk {C} _.
Arguments commandQueue {C} _.

Section command_manager.
Context {C St : Type}.
Variable exec : C → St → St * list C.

Definition new : CommandManager C := {| commandQueue := [] |}.

Definition empty (cm : CommandManager C) : bool :=
  match commandQueue cm with [] => true | _ :: _ => false end.

Definition post (cm : CommandManager C) (command : C) : CommandManager C :=
  {| commandQueue := commandQueue cm ++ [command] |}.

Definition clear (cm : CommandManager C) : CommandManager C :=
  {| commandQueue := [] |}.

Fixpoint flush (fuel : nat) (s : St) (cm : CommandManager C)
  : option (St * CommandManager C * list C) :=
  match commandQueue cm with
  | [] => Some (s, cm, [])
  | cmd :: rest =>
      match fuel with
      | O => None
      | S n =>
          let '(s', posted) := exec cmd s in
          '(s'', cm'', ran) ← flush n s' {| commandQueue := rest ++ posted |};
          Some (s'', cm'', cmd :: ran)
      end
  end.
End command_manager.
End Commands.

(** ** EventManager.h *)

(** The payload is a [std::any], here a value of a type [P]. A listener
    is a [std::function <void (const Event&)>], held by a name of type [L];
    [notify] says what calling it on an event does to the application
    state and which events it posts to this manager while it runs. *)
Module Events.
Record Event (P : Type) : Type := mkEvent {
  name    : string;
  payload : P
}.
Arguments mkEvent {P} _ _.
Arguments name {P} _.
Arguments payload {P} _.

Record EventManager (P L : Type) : Type := mk {
  eventQueue : list (Event P);            (* std::queue: front first *)
  listeners  : gmap string (list L)       (* name -> listeners, in push_back order *)
}.
Arguments mk {P L} _ _.
Arguments eventQueue {P L} _.
Arguments listeners {P L} _.

Section event_manager.
Context {P L St : Type}.
Variable notify : L → Event P → St → St * list (Event P).

Definition new : EventManager P L := {| eventQueue := []; listeners := ∅ |}.

(** [listeners [eventName].push_back (listener)]: [operator[]] inserts an
    empty vector for a name that has none. *)
Definition subscribe (em : EventManager P L) (eventName : string) (listener : L)
  : EventManager P L :=
  {| eventQueue := eventQueue em;
     listeners := <[eventName := default [] (listeners em !! eventName) ++ [listener]]>
                    (listeners em) |}.

Definition post (em : EventManager P L) (eventName : string) (payload : P)
  : EventManager P L :=
  {| eventQueue := eventQueue em ++ [mkEvent eventName payload];
     listeners := listeners em |}.

Definition clear (em : EventManager P L) : EventManager P L :=
  {| eventQueue := []; listeners := ∅ |}.

(** The inner loop [for (auto& listener : it->second) listener (event)]:
    the events posted so far and the calls made so far are carried along. *)
Fixpoint deliver (ls : list L) (event : Event P) (s : St) (posted : list (Event P))
    (called : list (L * Event P)) : St * list (Event P) * list (L * Event P) :=
  match ls with
  | [] => (s, posted, called)
  | listener :: rest =>
      let '(s', p) := notify listener event s in
      deliver rest event s' (posted ++ p) (called ++ [(listener, event)])
  end.

Fixpoint flush (fuel : nat) (s : St) (em : EventManager P L)
  : option (St * EventManager P L * list (L * Event P)) :=
  match eventQueue em with
  | [] => Some (s, em, [])
  | event :: rest =>
      match fuel with
      | O => None
      | S n =>
          let '(s', posted, called) :=
            match listeners em !! name event with
            | Some ls => deliver ls event s [] []
            | None => (s, [], [])
            end in
          '(s'', em'', later) ←
            flush n s' {| eventQueue := rest ++ posted; listeners := listeners em |};
          Some (s'', em'', called ++ later)
      end
  end.
End event_manager.
End Events.

(** ** ApplicationSettings.h *)

(** A [std::string] is the list of its characters. The file system is a
    function from paths to contents, [None] for a file that cannot be
    opened. What the class throws is a value of [thrown]. *)
Module Settings.
Abbreviation str := (list ascii).

Inductive thrown : Type :=
| RuntimeError (what : str).

Inductive outcome (A : Type) : Type :=
| Returns (a : A)
| Throws (e : thrown).
Arguments Returns {A} a.
Arguments Throws {A} e.

(** [" \t\r\n"] *)
Definition whitespace : str := [" "; "009"; "013"; "010"]%char.

(** [s.find_first_not_of (chars)], [s.find_last_not_of (chars)] and
    [s.find (c)]; [None] is [npos]. *)
Fixpoint find_first_not_of (chars s : str) : option nat :=
  match s with
  | [] => None
  | c :: rest =>
      if bool_decide (c ∈ chars) then S <$> find_first_not_of chars rest else Some 0%nat
  end.

Fixpoint find_last_not_of_from (chars s : str) (pos : nat) (found : option nat) : option nat :=
  match s with
  | [] => found
  | c :: rest =>
      find_last_not_of_from chars rest (S pos)
        (if bool_decide (c ∈ chars) then found else Some pos)
  end.

Definition find_last_not_of (chars s : str) : option nat :=
  find_last_not_of_from chars s 0 None.

Fixpoint find (c : ascii) (s : str) : option nat :=
  match s with
  | [] => None
  | x :: rest => if decide (x = c) then Some 0%nat else S <$> find c rest
  end.

(** [s.substr (pos, len)] and [s.substr (pos)], for [pos <= s.size ()], which
    is the case at every call below. *)
Definition substr (s : str) (pos len : nat) : str := take len (drop pos s).
Definition substr_from (s : str) (pos : nat) : str := drop pos s.

(** With [end == npos] the length [end - start + 1] wraps to [0] when
    [start] is [0] and otherwise to a length that reaches the end of the
    string. *)
Definition trim (s : str) : str :=
  match find_first_not_of whitespace s with
  | None => []
  | Some start =>
      match find_last_not_of whitespace s with
      | Some end_ => substr s start (end_ - start + 1)
      | None => if decide (start = 0%nat) then [] else substr_from s start
      end
  end.

(** The lines [std::getline] reads from a stream: a line ends at a newline
    or at the end of the stream, and the read that finds the stream
    exhausted fails. *)
Fixpoint read_lines (stream : str) : list str :=
  match stream with
  | [] => []
  | c :: rest =>
      if decide (c = "010"%char) then [] :: read_lines rest
      else match read_lines rest with
           | [] => [[c]]
           | line :: lines => (c :: line) :: lines
           end
  end.

Record ApplicationSettings : Type := mk {
  properties : gmap str str
}.

Definition new : ApplicationSettings := {| properties := ∅ |}.

Definition getString (st : ApplicationSettings) (key : str) : outcome str :=
  match properties st !! key with
  | None => Throws (RuntimeError (String.list_ascii_of_string "Setting not found: " ++ key))
  | Some value => Returns value
  end.

Definition getBool (st : ApplicationSettings) (key : str) : outcome bool :=
  match getString st key with
  | Throws e => Throws e
  | Returns val =>
      Returns (bool_decide (val = String.list_ascii_of_string "true")
               || bool_decide (val = String.list_ascii_of_string "1")
               || bool_decide (val = String.list_ascii_of_string "yes"))
  end.

Definition hasKey (st : ApplicationSettings) (key : str) : bool :=
  bool_decide (is_Some (properties st !! key)).

(** The body of the [while] loop of [load]. *)
Definition load_line (st : ApplicationSettings) (line : str) : ApplicationSettings :=
  match line with
  | [] => st
  | c0 :: _ =>
      if bool_decide (c0 = "#"%char) || bool_decide (c0 = "!"%char) then st
      else
        match find "="%char line with
        | None => st
        | Some pos =>
            let key := trim (substr line 0 pos) in
            let value := trim (substr_from line (pos + 1)) in
            match key with
            | [] => st
            | _ :: _ => {| properties := <[key := value]> (properties st) |}
            end
        end
  end.

Definition load (fs : str → option str) (st : ApplicationSettings) (filePath : str)
  : outcome ApplicationSettings :=
  match fs filePath with
  | None =>
      Throws (RuntimeError (String.list_ascii_of_string "Cannot open settings file: " ++ filePath))
  | Some content => Returns (foldl load_line st (read_lines content))
  end.
End Settings.

(** ** hello_world: TextComponent.h, MessageStatusComponent.h, TerminalSystem.h *)

(** Assignment through the reference [getComponent] returns: the slot of
    the dense vector the reference points to is overwritten. *)
Definition write_component {T} (w : World T) (ti : TypeIndex) (entity : Entity) (v : T)
  : result (World T) :=
  array ← CM.getComponentArray (componentManager w) ti;
  match entityToIndex array !! entity with
  | None => Fail AssertionFailure
  | Some index =>
      comps ← vec_set (components array) index v;
      Ok {| entityManager := entityManager w;
            componentManager :=
              {| typeToBit := typeToBit (componentManager w);
                 typeToArray :=
                   <[ti := {| components := comps;
                              entityToIndex := entityToIndex array;
                              indexToEntity := indexToEntity array |}]>
                     (typeToArray (componentManager w));
                 nextBit := nextBit (componentManager w) |};
            systems := systems w; systemOrder := systemOrder w;
            allocated := allocated w |}
  end.

(** A [std::set <Entity>] is walked in ascending order. *)
Definition ascending (s : gset Entity) : list Entity := merge_sort N.le (elements s).

Module Hello.
(** The component types of the program; the store registered for a type
    holds values of that type only. *)
Inductive component : Type :=
| TextComponent (text : string)
| MessageStatusComponent (printed : bool).

Definition newline : string := String "010"%char EmptyString.

(** What one message writes to [std::cout], statement by statement. *)
Definition message (text : string) : list string :=
  [newline +:+ newline +:+ text +:+ newline;
   newline +:+ "Press any key to exit..." +:+ newline].

Fixpoint update_loop (entities : list Entity) (w : World component) (out : list string)
  : result (World component * list string) :=
  match entities with
  | [] => Ok (w, out)
  | entity :: rest =>
      text ← W.getComponent w "TextComponent" entity;
      status ← W.getComponent w "MessageStatusComponent" entity;
      match text, status with
      | TextComponent text, MessageStatusComponent printed =>
          if negb printed then
            w' ← write_component w "MessageStatusComponent" entity
                   (MessageStatusComponent true);
            update_loop rest w' (out ++ message text)
          else update_loop rest w out
      | _, _ => Fail UndefinedBehaviour   (* excluded by the C++ types *)
      end
  end.

(** [TerminalSystem::update]: the world and what was written to [std::cout]. *)
Definition update {Time} (system : System) (w : World component) (dt : Time)
  : result (World component * list string) :=
  update_loop (ascending (entities system)) w [].
End Hello.

(** ** SDLKeyboard.h *)

(** The events [SDL_PollEvent] hands out, as far as [pollEvents] looks at
    them: the type, and for key events the scancode and the repeat flag.
    The SDL event queue is the list of the pending events, oldest first. *)
Module Keyboard.
Inductive SDL_Event : Type :=
| SDL_QUIT
| SDL_KEYDOWN (scancode : N) (is_repeat : bool)
| SDL_KEYUP (scancode : N)
| SDL_OTHER.

Record SDLKeyboard : Type := mk {
  keysDown     : gset N;
  keysPressed  : gset N;
  keysReleased : gset N
}.

Definition new : SDLKeyboard :=
  {| keysDown := ∅; keysPressed := ∅; keysReleased := ∅ |}.

Definition isKeyDown (kb : SDLKeyboard) (key : N) : bool := bool_decide (key ∈ keysDown kb).
Definition isKeyPressed (kb : SDLKeyboard) (key : N) : bool :=
  bool_decide (key ∈ keysPressed kb).
Definition isKeyReleased (kb : SDLKeyboard) (key : N) : bool :=
  bool_decide (key ∈ keysReleased kb).

(** The result, the keyboard, and the events left in the queue. *)
Fixpoint pollEvents (queue : list SDL_Event) (kb : SDLKeyboard)
  : bool * SDLKeyboard * list SDL_Event :=
  match queue with
  | [] => (true, kb, [])
  | event :: rest =>
      match event with
      | SDL_QUIT => (false, kb, rest)
      | SDL_KEYDOWN scancode is_repeat =>
          if negb is_repeat then
            pollEvents rest {| keysDown := {[scancode]} ∪ keysDown kb;
                               keysPressed := {[scancode]} ∪ keysPressed kb;
                               keysReleased := keysReleased kb |}
          else pollEvents rest kb
      | SDL_KEYUP scancode =>
          pollEvents rest {| keysDown := keysDown kb ∖ {[scancode]};
                             keysPressed := keysPressed kb;
                             keysReleased := {[scancode]} ∪ keysReleased kb |}
      | SDL_OTHER => pollEvents rest kb
      end
  end.

Definition endFrame (kb : SDLKeyboard) : SDLKeyboard :=
  {| keysDown := keysDown kb; keysPressed := ∅; keysReleased := ∅ |}.
End Keyboard.

(** ** Call sequences used to state the properties *)

(** [n] consecutive [createEntity] calls; the ids in the order returned. *)
Fixpoint create_many (n : nat) (em : EntityManager) : result (list Entity * EntityManager) :=
  match n with
  | O => Ok ([], em)
  | S k =>
      '(id, em') ← EM.createEntity em;
      '(ids, em'') ← create_many k em';
      Ok (id :: ids, em'')
  end.

Inductive em_call : Type :=
| CallCreate
| CallDestroy (entity : Entity)
| CallSetSignature (entity : Entity) (signature : Signature).

Fixpoint remove_first (e : Entity) (l : list Entity) : list Entity :=
  match l with
  | [] => []
  | x :: l' => if decide (x = e) then l' else x :: remove_first e l'
  end.

(** A run carries, next to the manager, one entry per live entity: the id
    [createEntity] returned for it; [destroyEntity] ends the life of one
    entity with that id. *)
Definition em_step (c : em_call) (st : EntityManager * list Entity)
  : result (EntityManager * list Entity) :=
  match c with
  | CallCreate =>
      '(id, em') ← EM.createEntity st.1; Ok (em', id :: st.2)
  | CallDestroy e =>
      em' ← EM.destroyEntity st.1 e; Ok (em', remove_first e st.2)
  | CallSetSignature e s =>
      em' ← EM.setSignature st.1 e s; Ok (em', st.2)
  end.

Fixpoint em_run (calls : list em_call) (st : EntityManager * list Entity)
  : result (EntityManager * list Entity) :=
  match calls with
  | [] => Ok st
  | c :: rest => st' ← em_step c st; em_run rest st'
  end.

Definition em_fresh : EntityManager * list Entity := (EM.new, []).

(** The precondition in its weak form: only [createEntity] and
    [destroyEntity], the latter on any id in [(0, MAX_ENTITIES]]. *)
Definition destroys_in_range (calls : list em_call) : Prop :=
  Forall (λ c, match c with
               | CallCreate => True
               | CallDestroy e => entity_in_range e = true
               | CallSetSignature _ _ => False
               end) calls.

(** The stronger discipline: [destroyEntity] and [setSignature] are only
    applied to ids that are live at the time of the call. *)
Fixpoint on_live_ids (calls : list em_call) (st : EntityManager * list Entity) : bool :=
  match calls with
  | [] => true
  | c :: rest =>
      match c with
      | CallCreate => true
      | CallDestroy e => bool_decide (e ∈ st.2)
      | CallSetSignature e _ => bool_decide (e ∈ st.2)
      end
      && match em_step c st with
         | Ok st' => on_live_ids rest st'
         | Fail _ => true
         end
  end.

Fixpoint count_creates (calls : list em_call) : nat :=
  match calls with
  | [] => 0
  | CallCreate :: rest => S (count_creates rest)
  | _ :: rest => count_creates rest
  end.

Definition double_destroy_calls : list em_call :=
  [CallCreate; CallCreate; CallDestroy 1; CallDestroy 1]
    ++ replicate (N.to_nat MAX_ENTITIES) CallCreate.

(** What a run on live ids keeps true: the array has its length, the pool
    and the live ids together are exactly the ids the constructor pushed,
    the counter counts the live ids, and every pooled id has an empty
    signature. *)
Definition em_inv (st : EntityManager * list Entity) : Prop :=
  EM.array_ok st.1
  ∧ availableIds st.1 ++ st.2 ≡ₚ pushed_ids 1 (N.to_nat MAX_ENTITIES)
  ∧ livingCount st.1 = N.of_nat (length st.2)
  ∧ ∀ e, e ∈ availableIds st.1 → signatures st.1 !! N.to_nat e = Some Sig.empty.

(** Id uniqueness under the weak precondition: after
    any run of [createEntity] and in-range [destroyEntity] calls no id is
    held by two live entities. *)
Definition unique_ids_under_range_check : Prop :=
  ∀ calls em live,
    destroys_in_range calls →
    em_run calls em_fresh = Ok (em, live) →
    NoDup live.

(** The dense-array invariant of a component store: the two dense vectors
    and the entity-to-index map have the same number of entries, and the
    index recorded for an entity leads back to it. *)
Definition dense_inv {T} (ca : ComponentArray T) : Prop :=
  length (indexToEntity ca) = length (components ca)
  ∧ base.size (entityToIndex ca) = length (components ca)
  ∧ ∀ e i, entityToIndex ca !! e = Some i → indexToEntity ca !! i = Some e.

Inductive ca_call (T : Type) : Type :=
| CallInsert (entity : Entity) (component : T)
| CallRemove (entity : Entity).
Arguments CallInsert {T} _ _.
Arguments CallRemove {T} _.

Definition ca_step {T} (c : ca_call T) (ca : ComponentArray T) : result (ComponentArray T) :=
  match c with
  | CallInsert e v => CA.insert ca e v
  | CallRemove e => CA.remove ca e
  end.

Fixpoint ca_run {T} (calls : list (ca_call T)) (ca : ComponentArray T)
  : result (ComponentArray T) :=
  match calls with
  | [] => Ok ca
  | c :: rest => ca' ← ca_step c ca; ca_run rest ca'
  end.

(** The entities that hold a component after a sequence of calls, read off
    the calls alone, and the stated preconditions in terms of it: no insert
    for an entity that holds one, no remove for an entity that holds none. *)
Definition holders_step {T} (c : ca_call T) (present : gset Entity) : gset Entity :=
  match c with
  | CallInsert e _ => {[e]} ∪ present
  | CallRemove e => present ∖ {[e]}
  end.

Fixpoint respects_preconditions {T} (calls : list (ca_call T)) (present : gset Entity) : bool :=
  match calls with
  | [] => true
  | c :: rest =>
      match c with
      | CallInsert e _ => bool_decide (e ∉ present)
      | CallRemove e => bool_decide (e ∈ present)
      end
      && respects_preconditions rest (holders_step c present)
  end.

(** Calls on a World, as application code issues them. *)
Inductive api_call (T : Type) : Type :=
| ApiRegisterComponent (ti : TypeIndex)
| ApiRegisterSystem (cls nm : string) (sig : Signature)
| ApiCreateEntity
| ApiDestroyEntity (entity : Entity)
| ApiAddComponent (ti : TypeIndex) (entity : Entity) (component : T)
| ApiRemoveComponent (ti : TypeIndex) (entity : Entity).
Arguments ApiRegisterComponent {T} _.
Arguments ApiRegisterSystem {T} _ _ _.
Arguments ApiCreateEntity {T}.
Arguments ApiDestroyEntity {T} _.
Arguments ApiAddComponent {T} _ _ _.
Arguments ApiRemoveComponent {T} _ _.

Definition api_step {T} (c : api_call T) (w : World T) : result (World T) :=
  match c with
  | ApiRegisterComponent ti => W.registerComponent w ti
  | ApiRegisterSystem cls nm sig => Ok (W.registerSystem w cls nm sig).2
  | ApiCreateEntity => '(_, w') ← W.createEntity w; Ok w'
  | ApiDestroyEntity e => W.destroyEntity w e
  | ApiAddComponent ti e v => W.addComponent w ti e v
  | ApiRemoveComponent ti e => W.removeComponent w ti e
  end.

Fixpoint api_run {T} (calls : list (api_call T)) (w : World T) : result (World T) :=
  match calls with
  | [] => Ok w
  | c :: rest => w' ← api_step c w; api_run rest w'
  end.

(** The three calls after which the membership property is checked. *)
Definition is_mutation {T} (c : api_call T) : bool :=
  match c with
  | ApiAddComponent _ _ _ | ApiRemoveComponent _ _ | ApiDestroyEntity _ => true
  | _ => false
  end.

(** [addComponent] or [removeComponent] on the entity [e]. *)
Definition refreshes {T} (e : Entity) (c : api_call T) : bool :=
  match c with
  | ApiAddComponent _ e' _ | ApiRemoveComponent _ e' => bool_decide (e' = e)
  | _ => false
  end.

(** Signature/membership consistency of a world: an entity is in a system's
    set iff it is alive and its signature covers the system's. *)
Definition membership_consistent {T} (w : World T) : Prop :=
  ∀ nm s e,
    systems w !! nm = Some s →
    e ∈ entities s ↔
      W.isAlive w e = Ok true
      ∧ ∃ sig, EM.getSignature (entityManager w) e = Ok sig
               ∧ Sig.matches sig (signature s) = true.

(** The membership property as the specification words it: it holds after
    every addComponent, removeComponent and destroyEntity call of a program. *)
Definition consistent_after_every_mutation : Prop :=
  ∀ (calls : list (api_call nat)) (c : api_call nat) (w w' : World nat),
    api_run calls W.new = Ok w →
    is_mutation c = true →
    api_step c w = Ok w' →
    membership_consistent w'.

Definition late_registration_calls : list (api_call nat) :=
  [ApiRegisterComponent "Position"; ApiCreateEntity; ApiAddComponent "Position" 1 10%nat;
   ApiRegisterSystem "SystemPhysics" "Physics" 1; ApiCreateEntity].

Definition empty_signature_calls : list (api_call nat) :=
  [ApiRegisterComponent "Position"; ApiRegisterSystem "SystemAudit" "Audit" Sig.empty;
   ApiCreateEntity; ApiAddComponent "Position" 1 10%nat].

(** The same property as an invariant of the three calls alone, with no
    condition on the registered systems. *)
Definition consistency_kept_by_every_mutation : Prop :=
  ∀ (c : api_call nat) (w w' : World nat),
    membership_consistent w →
    is_mutation c = true →
    api_step c w = Ok w' →
    membership_consistent w'.

Definition nonempty_system_signatures {T} (w : World T) : Prop :=
  ∀ nm s, systems w !! nm = Some s → signature s ≠ Sig.empty.

(** The id holds nothing: the signature stored for it is empty, no system
    tracks it and no component store has an entry for it. *)
Definition holds_nothing {T} (w : World T) (e : Entity) : Prop :=
  (∀ sig, signatures (entityManager w) !! N.to_nat e = Some sig → sig = Sig.empty)
  ∧ (∀ nm s, systems w !! nm = Some s → e ∉ entities s)
  ∧ (∀ ti a, typeToArray (componentManager w) !! ti = Some a → CA.has a e = false).

(** No component has been added to the id: the calls hold no addComponent
    on it, or, for an id that was in use before, none after the last
    destroyEntity on it. *)
Definition no_component_added_to {T} (e : Entity) (calls : list (api_call T)) : Prop :=
  ∀ before ti v after,
    calls = before ++ ApiAddComponent ti e v :: after →
    ApiDestroyEntity e ∈ after.

(** The signature array has its length and every component store is dense. *)
Definition stores_dense {T} (w : World T) : Prop :=
  EM.array_ok (entityManager w)
  ∧ ∀ ti a, typeToArray (componentManager w) !! ti = Some a → dense_inv a.

(** A component added to id 1 while it is still waiting in the pool. *)
Definition added_before_created_calls : list (api_call nat) :=
  [ApiRegisterComponent "Position"; ApiRegisterSystem "SystemPhysics" "Physics" 1;
   ApiAddComponent "Position" 1 10%nat].

#[global] Instance result_eq_dec {A} `{EqDecision A} : EqDecision (result A).
Proof. solve_decision. Defined.

(** The number of ids for which [isAlive] returns true. *)
Definition alive_count {T} (w : World T) : N :=
  N.of_nat (length (filter (λ e, W.isAlive w e = Ok true)
                           (pushed_ids 1 (N.to_nat MAX_ENTITIES)))).

(** What [updateSystems] reads of a registered system: which object's
    [update] the name reaches and whether it is enabled. *)
Definition dispatch {T} (w : World T) (nm : string) : option (string * nat * bool) :=
  (λ s, (class s, instance s, enabled s)) <$> systems w !! nm.

(** Update hooks that return normally and leave the registered systems,
    their order and their enabled flags as they found them (they may still
    change entities, components and the systems' entity sets). *)
Definition hooks_keep_dispatch {T Time}
    (update : string → nat → World T → Time → result (World T)) : Prop :=
  ∀ cls inst w dt,
    ∃ w', update cls inst w dt = Ok w'
          ∧ systemOrder w' = systemOrder w
          ∧ ∀ nm, dispatch w' nm = dispatch w nm.

(** The instances whose hook one frame invokes when the hooks keep the
    dispatch data: the enabled ones, once per entry of the update list. *)
Definition enabled_instances {T} (w : World T) (names : list string) : list nat :=
  omap (λ nm, match dispatch w nm with
              | Some (_, inst, true) => Some inst
              | _ => None
              end) names.

(** Every entry of the update list is a registered name, and the objects
    in the map were constructed by earlier [registerSystem] calls. *)
Definition systems_wf {T} (w : World T) : Prop :=
  (∀ nm, nm ∈ systemOrder w → is_Some (systems w !! nm))
  ∧ (∀ nm s, systems w !! nm = Some s → (instance s < allocated w)%nat).

Definition count_of (inst : nat) (invoked : list nat) : nat :=
  length (filter (λ i, i = inst) invoked).

(** Two hook tables for the examples: hooks that do nothing, and hooks of a
    one-shot system that switches itself off when it runs. *)
Definition idle_hooks : string → nat → World nat → unit → result (World nat) :=
  λ _ _ w _, Ok w.

Definition one_shot_hooks : string → nat → World nat → unit → result (World nat) :=
  λ _ _ w _, Ok (W.setEnabled w "Terminal" false).

Definition twice_registered : World nat :=
  (W.registerSystem (W.registerSystem W.new "TerminalSystem" "Terminal" 1).2
                    "TerminalSystem" "Terminal" 1).2.

(** The duplicate-name property for all hooks, on a new world: whatever the update
    hooks are, the frame that follows the two registrations invokes the
    second object (instance 1) twice and the first (instance 0) never. *)
Definition second_system_always_runs_twice : Prop :=
  ∀ (update : string → nat → World nat → unit → result (World nat)) w' invoked,
    W.updateSystems update twice_registered tt = Ok (w', invoked) →
    count_of 1 invoked = 2%nat ∧ 0%nat ∉ invoked.

Definition systems_first_calls : list (api_call nat) :=
  [ApiRegisterComponent "Position"; ApiRegisterSystem "SystemPhysics" "Physics" 1;
   ApiCreateEntity].

(** The scenario of the specification: Position is bit 0, Velocity bit 1,
    one system requires both. *)
Definition movement_setup : list (api_call nat) :=
  [ApiRegisterComponent "Position"; ApiRegisterComponent "Velocity";
   ApiRegisterSystem "SystemMovement" "Movement" 3; ApiCreateEntity].

Definition members_after (calls : list (api_call nat)) (nm : string) : option (gset Entity) :=
  entities <$> W.getSystem (from_ok W.new (api_run calls W.new)) nm.

(** ** Worlds a program can reach *)

(** The component registry as [registerComponent] builds it: bits and arrays
    are registered together, the bits in use are exactly those below
    [nextBit], no two types share one, and every store is dense. *)
Definition registry_ok {T} (cm : ComponentManager T) : Prop :=
  dom (typeToBit cm) = dom (typeToArray cm)
  ∧ (∀ ti b, typeToBit cm !! ti = Some b → b < nextBit cm)
  ∧ (∀ ti1 ti2 b, typeToBit cm !! ti1 = Some b → typeToBit cm !! ti2 = Some b → ti1 = ti2)
  ∧ (∀ b, b < nextBit cm → ∃ ti, typeToBit cm !! ti = Some b)
  ∧ (∀ ti a, typeToArray cm !! ti = Some a → dense_inv a).

(** No stored signature has a bit set that no type owns or that lies
    outside the bitset. *)
Definition unused_bits_clear {T} (w : World T) : Prop :=
  ∀ i sig b,
    signatures (entityManager w) !! i = Some sig →
    nextBit (componentManager w) ≤ b ∨ MAX_COMPONENTS ≤ b →
    N.testbit sig b = false.

(** The stores and the signatures tell the same story: an entity holds a
    component of a type exactly when it is a valid id whose stored
    signature has the type's bit set. *)
Definition storage_agrees {T} (w : World T) : Prop :=
  ∀ ti b a e,
    typeToBit (componentManager w) !! ti = Some b →
    typeToArray (componentManager w) !! ti = Some a →
    CA.has a e = true ↔
      entity_in_range e = true
      ∧ ∃ sig, signatures (entityManager w) !! N.to_nat e = Some sig
               ∧ N.testbit sig b = true.

Definition world_inv {T} (w : World T) : Prop :=
  EM.array_ok (entityManager w)
  ∧ registry_ok (componentManager w)
  ∧ unused_bits_clear w
  ∧ storage_agrees w.

(** A world a program reaches from a new one with the World's calls (fewer
    than [2 ^ 64] of them, so that [nextBit] has not wrapped around). *)
Definition reachable {T} (w : World T) : Prop :=
  ∃ calls : list (api_call T),
    N.of_nat (length calls) < 2 ^ 64 ∧ api_run calls W.new = Ok w.

(** A small program for the examples: two component types, one system that
    requires both, entity 1 with both components and entity 2 with one. *)
Definition two_entities_calls : list (api_call nat) :=
  movement_setup
    ++ [ApiAddComponent "Position" 1 10%nat; ApiAddComponent "Velocity" 1 20%nat;
        ApiCreateEntity; ApiAddComponent "Position" 2 30%nat].

Definition two_entities : World nat := from_ok W.new (api_run two_entities_calls W.new).

(** ** Programs that register their systems first *)

(** A start-up call: registering a component type, registering a system
    that requires at least one component, or creating an entity. *)
Definition is_setup_call {T} (c : api_call T) : bool :=
  match c with
  | ApiRegisterComponent _ | ApiCreateEntity => true
  | ApiRegisterSystem _ _ sig => Sig.any sig
  | _ => false
  end.

Definition registers_no_system {T} (c : api_call T) : bool :=
  match c with
  | ApiRegisterSystem _ _ _ => false
  | _ => true
  end.

(** ** Frames of a program's systems *)

(** [system->enabled = false] through the handles of the systems named in
    [off]. *)
Definition switch_off {T} (off : list string) (w : World T) : World T :=
  foldr (λ nm w, W.setEnabled w nm false) w off.

(** The system table as the calls of a program build it: the objects are
    numbered by their position in the update list, each name reaches the
    object of the last entry that carries it, and every system is enabled. *)
Definition order_inv {T} (w : World T) : Prop :=
  allocated w = length (systemOrder w)
  ∧ (∀ nm, nm ∈ systemOrder w → is_Some (systems w !! nm))
  ∧ ∀ nm s, systems w !! nm = Some s →
      enabled s = true ∧ systemOrder w !! instance s = Some nm.

Definition three_systems_calls : list (api_call nat) :=
  [ApiRegisterComponent "Position";
   ApiRegisterSystem "SystemInput" "Input" 1;
   ApiRegisterSystem "SystemMovement" "Movement" 1;
   ApiCreateEntity; ApiAddComponent "Position" 1 5%nat;
   ApiRegisterSystem "SystemRender" "Render" 1].

(** ** Scripts of subscribe and post calls *)

Inductive ev_call (P L : Type) : Type :=
| EvSubscribe (eventName : string) (listener : L)
| EvPost (eventName : string) (payload : P).
Arguments EvSubscribe {P L} _ _.
Arguments EvPost {P L} _ _.

Definition ev_step {P L} (c : ev_call P L) (em : Events.EventManager P L)
  : Events.EventManager P L :=
  match c with
  | EvSubscribe eventName listener => Events.subscribe em eventName listener
  | EvPost eventName payload => Events.post em eventName payload
  end.

Definition ev_run {P L} (calls : list (ev_call P L)) (em : Events.EventManager P L)
  : Events.EventManager P L :=
  foldl (λ em c, ev_step c em) em calls.

(** The listeners a script subscribes under a name, and the events it
    posts, each in the order of the calls. *)
Definition subscribers {P L} (calls : list (ev_call P L)) (eventName : string) : list L :=
  omap (λ c, match c with
             | EvSubscribe nm listener => if decide (nm = eventName) then Some listener else None
             | EvPost _ _ => None
             end) calls.

Definition posted_events {P L} (calls : list (ev_call P L)) : list (Events.Event P) :=
  omap (λ c, match c with
             | EvSubscribe _ _ => None
             | EvPost nm payload => Some (Events.mkEvent nm payload)
             end) calls.

(** Event by event, every subscriber of the event's name. *)
Definition deliveries {P L} (calls : list (ev_call P L)) : list (L * Events.Event P) :=
  event ← posted_events calls;
  (λ listener, (listener, event)) <$> subscribers calls (Events.name event).

(** Commands and listeners for the examples: a command [n] appends [n] to
    a log and posts nothing, except that command 0 posts command 7; a
    listener appends its name and the payload to a log. *)
Definition logging_exec (c : nat) (log : list nat) : list nat * list nat :=
  (log ++ [c], match c with O => [7%nat] | _ => [] end).

Definition logging_notify (l : string) (event : Events.Event nat) (log : list (string * nat))
  : list (string * nat) * list (Events.Event nat) :=
  (log ++ [(l, Events.payload event)], []).

Definition echo_notify (l : string) (event : Events.Event nat) (log : list (string * nat))
  : list (string * nat) * list (Events.Event nat) :=
  (log ++ [(l, Events.payload event)], [Events.mkEvent "tick" (Events.payload event)]).

(** ** Settings files *)

Definition all_ws (p : Settings.str) : bool :=
  forallb (λ c, bool_decide (c ∈ Settings.whitespace)) p.

(** A string that neither starts nor ends with a whitespace character. *)
Definition tight (t : Settings.str) : bool :=
  match head t with Some c => bool_decide (c ∉ Settings.whitespace) | None => true end
  && match last t with Some c => bool_decide (c ∉ Settings.whitespace) | None => true end.

(** The lines of a settings file: an assignment [key = value] with
    whitespace [p1] .. [p4] around the key and the value, or a line that
    assigns nothing. *)
Inductive settings_line : Type :=
| Assign (p1 key p2 p3 value p4 : Settings.str)
| Skipped (line : Settings.str).

Definition line_text (l : settings_line) : Settings.str :=
  match l with
  | Assign p1 key p2 p3 value p4 => p1 ++ key ++ p2 ++ ["="%char] ++ p3 ++ value ++ p4
  | Skipped line => line
  end.

(** An assignment has a non-empty key without ['='] and without whitespace
    at its ends, a value without whitespace at its ends, and does not start
    with ['#'] or ['!']. A skipped line is empty, starts with ['#'] or ['!'],
    has no ['='], or has only whitespace before its first ['=']. No line
    holds a newline. *)
Definition line_ok (l : settings_line) : bool :=
  bool_decide ("010"%char ∉ line_text l)
  && match l with
     | Assign p1 key p2 p3 value p4 =>
         all_ws p1 && all_ws p2 && all_ws p3 && all_ws p4
         && tight key && tight value
         && bool_decide (key ≠ [])
         && bool_decide ("="%char ∉ key)
         && match head (p1 ++ key) with
            | Some c => bool_decide (c ≠ "#"%char) && bool_decide (c ≠ "!"%char)
            | None => true
            end
     | Skipped line =>
         match line with
         | [] => true
         | c :: _ =>
             bool_decide (c = "#"%char) || bool_decide (c = "!"%char)
             || match Settings.find "="%char line with
                | None => true
                | Some pos => all_ws (take pos line)
                end
         end
     end.

(** The file: the lines separated by newlines, with or without a newline
    after the last one. *)
Fixpoint join_lines (lines : list Settings.str) : Settings.str :=
  match lines with
  | [] => []
  | [line] => line
  | line :: rest => line ++ "010"%char :: join_lines rest
  end.

Definition file_text (final_newline : bool) (lines : list settings_line) : Settings.str :=
  join_lines (line_text <$> lines) ++ (if final_newline then ["010"%char] else []).

Definition assigned_key (l : settings_line) : option Settings.str :=
  match l with
  | Assign _ key _ _ _ _ => Some key
  | Skipped _ => None
  end.

Definition assign (st : Settings.ApplicationSettings) (l : settings_line)
  : Settings.ApplicationSettings :=
  match l with
  | Assign _ key _ _ value _ =>
      {| Settings.properties := <[key := value]> (Settings.properties st) |}
  | Skipped _ => st
  end.

Definition example_settings : list settings_line :=
  [Skipped (String.list_ascii_of_string "# window");
   Assign [] (String.list_ascii_of_string "title") [" "%char] [" "%char]
          (String.list_ascii_of_string "Particle = Simulator") ["013"%char];
   Skipped [];
   Assign [" "%char] (String.list_ascii_of_string "#fullscreen") [] []
          (String.list_ascii_of_string "yes") [];
   Assign [] (String.list_ascii_of_string "title") [] []
          (String.list_ascii_of_string "Menu") []].

(** ** The hello_world program *)

(** The calls of [main] up to [engine.run ()]; [3] is the signature
    [makeSignature <TextComponent, MessageStatusComponent> ()] returns. *)
Definition hello_calls : list (api_call Hello.component) :=
  [ApiRegisterComponent "TextComponent";
   ApiRegisterComponent "MessageStatusComponent";
   ApiRegisterSystem "TerminalSystem" "TerminalSystem" 3;
   ApiCreateEntity;
   ApiAddComponent "TextComponent" 1 (Hello.TextComponent "Hello World!");
   ApiAddComponent "MessageStatusComponent" 1 (Hello.MessageStatusComponent false)].

Definition hello_world : World Hello.component :=
  from_ok W.new (api_run hello_calls W.new).

(** The text of an entity whose message has not been printed yet. *)
Definition pending (w : World Hello.component) (e : Entity) : option string :=
  match W.getComponent w "TextComponent" e, W.getComponent w "MessageStatusComponent" e with
  | Ok (Hello.TextComponent text), Ok (Hello.MessageStatusComponent false) => Some text
  | _, _ => None
  end.

(** Every entity of the set holds a text and a status. *)
Definition holds_message (w : World Hello.component) (e : Entity) : Prop :=
  ∃ text printed,
    W.getComponent w "TextComponent" e = Ok (Hello.TextComponent text)
    ∧ W.getComponent w "MessageStatusComponent" e = Ok (Hello.MessageStatusComponent printed).

(** The C++ type of a component value, and the calls that add a value to
    the store of its own type, as the template [addComponent <T>] does. *)
Definition component_type (c : Hello.component) : TypeIndex :=
  match c with
  | Hello.TextComponent _ => "TextComponent"
  | Hello.MessageStatusComponent _ => "MessageStatusComponent"
  end.

Definition typed_call (c : api_call Hello.component) : bool :=
  match c with
  | ApiAddComponent ti _ v => bool_decide (component_type v = ti)
  | _ => true
  end.

Definition stores_typed (w : World Hello.component) : Prop :=
  ∀ ti a e v,
    typeToArray (componentManager w) !! ti = Some a →
    CA.get a e = Ok v → component_type v = ti.

(** ** Key events of a frame *)

(** Among the events there is a first-time press of the key that no
    release of the key follows. *)
Definition held_since_press (k : N) (evs : list Keyboard.SDL_Event) : Prop :=
  ∃ pre post, evs = pre ++ Keyboard.SDL_KEYDOWN k false :: post
              ∧ Keyboard.SDL_KEYUP k ∉ post.

(** * Properties *)

(** ** The result monad *)

Lemma bind_Ok {A B} (r : result A) (k : A → result B) (b : B) :
  r ≫= k = Ok b ↔ ∃ a, r = Ok a ∧ k a = Ok b.
Proof.
  destruct r as [a|f]; simpl; split.
  - intros H; exists a; auto.
  - intros (a' & [= <-] & H); exact H.
  - intros H; discriminate H.
  - intros (a' & H & _); discriminate H.
Qed.

Lemma cassert_Ok (b : bool) (u : unit) : cassert b = Ok u ↔ b = true.
Proof. destruct b, u; simpl; split; congruence. Qed.

(** Unfolds one monadic step of a successful run found in the context. *)
Ltac ok_inv H :=
  lazymatch type of H with
  | (_ ≫= _) = Ok _ =>
      let a := fresh "a" in
      let Ha := fresh "Hstep" in
      apply bind_Ok in H; destruct H as (a & Ha & H);
      try (apply cassert_Ok in Ha)
  | Ok _ = Ok _ => injection H as H
  | Fail _ = Ok _ => discriminate H
  end.

(** ** Signatures *)

Lemma any_spec (s : Signature) : Sig.any s = true ↔ ∃ pos, Sig.test s pos = true.
Proof.
  unfold Sig.any, Sig.test. rewrite negb_true_iff, N.eqb_neq. split.
  - intros Hs. exists (N.log2 s). apply N.bit_log2. exact Hs.
  - intros [pos Hpos] ->. rewrite N.bits_0 in Hpos. discriminate.
Qed.

Lemma any_setbit (s : Signature) (pos : ComponentBit) : Sig.any (N.setbit s pos) = true.
Proof. apply any_spec. exists pos. apply N.setbit_eq. Qed.

Lemma matches_empty_sys (s : Signature) : Sig.matches s Sig.empty = true.
Proof. unfold Sig.matches, Sig.empty. rewrite N.land_0_r. reflexivity. Qed.

Lemma matches_empty_entity (sys : Signature) :
  Sig.matches Sig.empty sys = true ↔ sys = Sig.empty.
Proof.
  unfold Sig.matches, Sig.empty. rewrite N.land_0_l, N.eqb_eq. split; congruence.
Qed.

(** ** EntityManager *)

Lemma max_entities_u32 : MAX_ENTITIES < 2 ^ 32 - 1.
Proof. reflexivity. Qed.

Lemma in_range_spec (e : Entity) :
  entity_in_range e = true ↔ 0 < e ∧ e ≤ MAX_ENTITIES.
Proof.
  unfold entity_in_range, NULL_ENTITY.
  rewrite andb_true_iff, N.ltb_lt, N.leb_le. reflexivity.
Qed.

Lemma u32_incr_small (n : N) : n < MAX_ENTITIES → u32_incr n = n + 1.
Proof.
  intros Hn. unfold u32_incr, u32_wrap. apply N.mod_small.
  pose proof max_entities_u32. lia.
Qed.

Lemma u32_decr_pos (n : N) : 0 < n → n ≤ MAX_ENTITIES → u32_decr n = n - 1.
Proof.
  intros Hpos Hn. unfold u32_decr, u32_wrap.
  replace (n + 2 ^ 32 - 1) with ((n - 1) + 1 * 2 ^ 32) by lia.
  rewrite N.Div0.mod_add. apply N.mod_small.
  pose proof max_entities_u32. lia.
Qed.

Lemma pushed_ids_length (first : Entity) (count : nat) :
  length (pushed_ids first count) = count.
Proof. revert first. induction count as [|k IH]; intros first; simpl; [done|]. by rewrite IH. Qed.

Lemma elem_of_pushed_ids (first : Entity) (count : nat) (e : Entity) :
  e ∈ pushed_ids first count ↔ first ≤ e ∧ e < first + N.of_nat count.
Proof.
  revert first. induction count as [|k IH]; intros first; simpl.
  - rewrite elem_of_nil. lia.
  - rewrite elem_of_cons, IH. lia.
Qed.

Lemma NoDup_pushed_ids (first : Entity) (count : nat) : NoDup (pushed_ids first count).
Proof.
  revert first. induction count as [|k IH]; intros first; simpl.
  - constructor.
  - constructor; [|apply IH]. rewrite elem_of_pushed_ids. lia.
Qed.

Lemma pushed_ids_app (first : Entity) (n k : nat) :
  pushed_ids first (n + k) = pushed_ids first n ++ pushed_ids (first + N.of_nat n) k.
Proof.
  revert first. induction n as [|n IH]; intros first.
  - simpl. by rewrite N.add_0_r.
  - cbn [Nat.add pushed_ids app]. rewrite IH. do 3 f_equal. lia.
Qed.

(** Draining a queue that holds consecutive ids. *)
Lemma create_many_pushed (n k : nat) (first : Entity) (sigs : list Signature) (lc : N) :
  lc + N.of_nat n ≤ MAX_ENTITIES →
  create_many n (mkEntityManager (pushed_ids first (n + k)) sigs lc)
  = Ok (pushed_ids first n,
        mkEntityManager (pushed_ids (first + N.of_nat n) k) sigs (lc + N.of_nat n)).
Proof.
  revert first lc. induction n as [|n IH]; intros first lc Hle.
  - simpl. by rewrite !N.add_0_r.
  - cbn [Nat.add pushed_ids create_many]. unfold EM.createEntity at 1.
    cbn [livingCount availableIds signatures].
    replace (lc <? MAX_ENTITIES) with true by (symmetry; apply N.ltb_lt; lia).
    cbn [cassert mbind result_bind].
    rewrite u32_incr_small by lia. rewrite IH by lia.
    cbn [mbind result_bind].
    replace (first + 1 + N.of_nat n) with (first + N.of_nat (S n)) by lia.
    replace (lc + 1 + N.of_nat n) with (lc + N.of_nat (S n)) by lia.
    reflexivity.
Qed.

Lemma create_many_new (k : nat) :
  (k ≤ N.to_nat MAX_ENTITIES)%nat →
  create_many k EM.new
  = Ok (pushed_ids 1 k,
        mkEntityManager (pushed_ids (1 + N.of_nat k) (N.to_nat MAX_ENTITIES - k))
                        (signatures EM.new) (N.of_nat k)).
Proof.
  intros Hk. unfold EM.new. cbn [signatures].
  replace (N.to_nat MAX_ENTITIES) with (k + (N.to_nat MAX_ENTITIES - k))%nat at 1 by lia.
  rewrite create_many_pushed by lia. reflexivity.
Qed.

(** C7: on a freshly constructed EntityManager each of the first
    MAX_ENTITIES consecutive createEntity calls finds the exhaustion
    assertion [livingCount < MAX_ENTITIES] true and returns an id; the call
    after them finds it false and fails on it. *)
Theorem C7_pool_exhaustion :
  (∀ k : nat, (k < N.to_nat MAX_ENTITIES)%nat →
     ∃ ids em id em',
       create_many k EM.new = Ok (ids, em)
       ∧ (livingCount em <? MAX_ENTITIES) = true
       ∧ EM.createEntity em = Ok (id, em'))
  ∧ (∃ ids em,
       create_many (N.to_nat MAX_ENTITIES) EM.new = Ok (ids, em)
       ∧ (livingCount em <? MAX_ENTITIES) = false
       ∧ EM.createEntity em = Fail AssertionFailure).
Proof.
  split.
  - intros k Hk.
    destruct (N.to_nat MAX_ENTITIES - k)%nat as [|m] eqn:Hm; [lia|].
    assert (Hlt : (N.of_nat k <? MAX_ENTITIES) = true) by (apply N.ltb_lt; lia).
    eexists _, _, _, _. split; [|split].
    + rewrite create_many_new by lia. rewrite Hm. reflexivity.
    + exact Hlt.
    + unfold EM.createEntity. cbn [livingCount availableIds pushed_ids].
      rewrite Hlt. reflexivity.
  - eexists _, _. split; [|split].
    + apply create_many_new. lia.
    + cbn [livingCount]. apply N.ltb_ge. lia.
    + unfold EM.createEntity. cbn [livingCount].
      replace (N.of_nat (N.to_nat MAX_ENTITIES) <? MAX_ENTITIES) with false
        by (symmetry; apply N.ltb_ge; lia).
      reflexivity.
Qed.

Lemma C7_pool_exhaustion_witness :
  ∃ ids em id em',
    create_many 2 EM.new = Ok (ids, em)
    ∧ (livingCount em <? MAX_ENTITIES) = true
    ∧ EM.createEntity em = Ok (id, em').
Proof. apply (proj1 C7_pool_exhaustion 2%nat). vm_compute. lia. Defined.

(** *** Runs of the EntityManager on live ids *)

Lemma remove_first_perm (e : Entity) (l : list Entity) :
  e ∈ l → l ≡ₚ e :: remove_first e l.
Proof.
  induction l as [|x l IH]; intros Hin.
  - by apply elem_of_nil in Hin.
  - simpl. destruct (decide (x = e)) as [->|Hne]; [done|].
    apply elem_of_cons in Hin as [->|Hin]; [done|].
    rewrite (IH Hin) at 1. apply Permutation_swap.
Qed.

Lemma em_inv_fresh : em_inv em_fresh.
Proof.
  unfold em_inv, em_fresh, EM.array_ok, EM.new. cbn [fst snd availableIds signatures livingCount].
  split; [apply length_replicate|]. split; [by rewrite app_nil_r|]. split; [done|].
  intros e He. apply elem_of_pushed_ids in He.
  apply lookup_replicate_2. lia.
Qed.

Section em_inv_facts.
Context (st : EntityManager * list Entity) (Hinv : em_inv st).

Lemma em_inv_NoDup : NoDup (availableIds st.1 ++ st.2).
Proof.
  destruct Hinv as (_ & Hperm & _). rewrite Hperm. apply NoDup_pushed_ids.
Qed.

Lemma em_inv_live_NoDup : NoDup st.2.
Proof. pose proof em_inv_NoDup as H. by apply NoDup_app in H as (_ & _ & H). Qed.

Lemma em_inv_range (e : Entity) :
  e ∈ availableIds st.1 ∨ e ∈ st.2 → entity_in_range e = true.
Proof.
  destruct Hinv as (_ & Hperm & _). rewrite <- elem_of_app, Hperm.
  rewrite elem_of_pushed_ids, in_range_spec. lia.
Qed.

Lemma em_inv_pool_not_live (e : Entity) : e ∈ availableIds st.1 → e ∉ st.2.
Proof. pose proof em_inv_NoDup as H. apply NoDup_app in H as (_ & H & _). apply H. Qed.

Lemma em_inv_count :
  (length (availableIds st.1) + length st.2 = N.to_nat MAX_ENTITIES)%nat.
Proof.
  destruct Hinv as (_ & Hperm & _).
  rewrite <- length_app, Hperm. apply pushed_ids_length.
Qed.

Lemma em_inv_index (e : Entity) :
  entity_in_range e = true → (N.to_nat e < length (signatures st.1))%nat.
Proof.
  destruct Hinv as (Hlen & _). rewrite Hlen. rewrite in_range_spec. lia.
Qed.

(** A call on a live id, or a [createEntity] while the pool is not empty,
    returns normally. *)
Lemma em_step_ok (c : em_call) :
  match c with
  | CallCreate => availableIds st.1 ≠ []
  | CallDestroy e => e ∈ st.2
  | CallSetSignature e _ => e ∈ st.2
  end →
  ∃ st', em_step c st = Ok st'.
Proof.
  pose proof em_inv_count as Hcount.
  destruct Hinv as (Hlen & Hperm & Hlc & Hsig).
  destruct c as [|e|e s]; intros Hpre; unfold em_step.
  - unfold EM.createEntity. rewrite Hlc.
    destruct (availableIds st.1) as [|id rest] eqn:Hq; [done|].
    cbn [length] in Hcount.
    replace (N.of_nat (length st.2) <? MAX_ENTITIES) with true
      by (symmetry; apply N.ltb_lt; lia).
    eexists. reflexivity.
  - unfold EM.destroyEntity. rewrite (em_inv_range e) by auto.
    cbn [cassert mbind result_bind].
    rewrite decide_True by (apply em_inv_index, em_inv_range; auto).
    eexists. reflexivity.
  - unfold EM.setSignature. rewrite (em_inv_range e) by auto.
    cbn [cassert mbind result_bind].
    rewrite decide_True by (apply em_inv_index, em_inv_range; auto).
    eexists. reflexivity.
Qed.

Lemma em_step_inv (c : em_call) (st' : EntityManager * list Entity) :
  match c with
  | CallCreate => True
  | CallDestroy e => e ∈ st.2
  | CallSetSignature e _ => e ∈ st.2
  end →
  em_step c st = Ok st' → em_inv st'.
Proof.
  pose proof em_inv_count as Hcount.
  pose proof em_inv_NoDup as Hnd.
  destruct Hinv as (Hlen & Hperm & Hlc & Hsig).
  destruct c as [|e|e s]; intros Hpre Hstep; unfold em_step in Hstep.
  - ok_inv Hstep. destruct a as [id em']. ok_inv Hstep. subst st'.
    unfold EM.createEntity in Hstep0. ok_inv Hstep0.
    apply N.ltb_lt in Hstep.
    destruct (availableIds st.1) as [|id' rest] eqn:Hq; [discriminate|].
    ok_inv Hstep0. subst id' em'.
    unfold em_inv, EM.array_ok. cbn [fst snd availableIds signatures livingCount length].
    split; [done|]. split; [|split].
    + rewrite <- Hperm. cbn [app]. by rewrite Permutation_middle.
    + rewrite u32_incr_small by done. lia.
    + intros e He. apply Hsig. by right.
  - ok_inv Hstep. ok_inv Hstep. subst st'.
    unfold EM.destroyEntity in Hstep0. ok_inv Hstep0.
    destruct (decide _) as [Hidx|]; [|discriminate]. ok_inv Hstep0. subst a.
    unfold em_inv, EM.array_ok. cbn [fst snd availableIds signatures livingCount].
    pose proof (remove_first_perm e st.2 Hpre) as Hrm.
    split; [by rewrite length_insert|]. split; [|split].
    + rewrite <- Hperm. rewrite Hrm at 2.
      rewrite <- app_assoc. cbn [app]. done.
    + apply Permutation_length in Hrm. cbn [length] in Hrm.
      rewrite u32_decr_pos by lia. lia.
    + intros e' He'. apply elem_of_app in He' as [He'|He'].
      * rewrite list_lookup_insert_ne; [by apply Hsig|].
        intros Heq. apply N2Nat.inj in Heq. subst e'.
        by apply (em_inv_pool_not_live e).
      * apply list_elem_of_singleton in He'. subst e'.
        by apply list_lookup_insert_eq.
  - ok_inv Hstep. ok_inv Hstep. subst st'.
    unfold EM.setSignature in Hstep0. ok_inv Hstep0.
    destruct (decide _) as [Hidx|]; [|discriminate]. ok_inv Hstep0. subst a.
    unfold em_inv, EM.array_ok. cbn [fst snd availableIds signatures livingCount].
    split; [by rewrite length_insert|]. split; [done|]. split; [done|].
    intros e' He'. rewrite list_lookup_insert_ne; [by apply Hsig|].
    intros Heq. apply N2Nat.inj in Heq. subst e'.
    by apply (em_inv_pool_not_live e).
Qed.

(** What [createEntity] returns in such a state. *)
Lemma em_create_fresh_id (id : Entity) (em' : EntityManager) :
  EM.createEntity st.1 = Ok (id, em') →
  (id ∉ st.2) ∧ EM.getSignature em' id = Ok Sig.empty.
Proof.
  intros Hc. unfold EM.createEntity in Hc. ok_inv Hc.
  destruct (availableIds st.1) as [|id' rest] eqn:Hq; [discriminate|].
  ok_inv Hc. subst id' em'.
  assert (Hin : id ∈ availableIds st.1) by (rewrite Hq; left).
  split; [by apply em_inv_pool_not_live|].
  unfold EM.getSignature. cbn [signatures].
  rewrite (em_inv_range id) by auto. cbn [cassert mbind result_bind].
  destruct Hinv as (_ & _ & _ & Hsig). by rewrite (Hsig id Hin).
Qed.
End em_inv_facts.

Lemma em_run_inv (calls : list em_call) (st st' : EntityManager * list Entity) :
  em_inv st → on_live_ids calls st = true → em_run calls st = Ok st' → em_inv st'.
Proof.
  revert st. induction calls as [|c rest IH]; intros st Hinv Hlive Hrun.
  - simpl in Hrun. by ok_inv Hrun; subst.
  - cbn [em_run] in Hrun. ok_inv Hrun.
    cbn [on_live_ids] in Hlive. rewrite Hstep in Hlive.
    apply andb_true_iff in Hlive as [Hpre Hrest].
    apply (IH a); [|done|done].
    apply (em_step_inv st Hinv c a); [|done].
    destruct c; [done|by apply bool_decide_eq_true in Hpre..].
Qed.

(** An id waiting in the pool behind [count_creates later] other ids is at
    the front of the pool after [later], and [later] runs to its end. *)
Lemma em_run_reaches_front (e : Entity) (later : list em_call)
    (st : EntityManager * list Entity) :
  em_inv st → on_live_ids later st = true →
  availableIds st.1 !! count_creates later = Some e →
  ∃ st', em_run later st = Ok st' ∧ em_inv st' ∧ head (availableIds st'.1) = Some e.
Proof.
  revert st. induction later as [|c rest IH]; intros st Hinv Hlive Hpos.
  - exists st. split; [done|]. split; [done|].
    simpl in Hpos. by rewrite <- head_lookup in Hpos.
  - cbn [on_live_ids] in Hlive. apply andb_true_iff in Hlive as [Hpre Hrest].
    assert (Hpre' : match c with
                    | CallCreate => True
                    | CallDestroy x | CallSetSignature x _ => x ∈ st.2
                    end).
    { destruct c; [done|by apply bool_decide_eq_true in Hpre..]. }
    destruct (em_step_ok st Hinv c) as [st1 Hst1].
    { destruct c; [|done|done]. intros Hq. rewrite Hq in Hpos. discriminate. }
    rewrite Hst1 in Hrest.
    assert (Hinv1 : em_inv st1) by by apply (em_step_inv st Hinv c st1).
    destruct (IH st1 Hinv1 Hrest) as (st' & Hrun & Hinv' & Hhead).
    { destruct c as [|x|x s]; cbn [count_creates] in Hpos;
        unfold em_step in Hst1; ok_inv Hst1.
      - destruct a as [id em1]. ok_inv Hst1. subst st1.
        unfold EM.createEntity in Hstep. ok_inv Hstep.
        destruct (availableIds st.1) as [|id' q]; [discriminate|].
        ok_inv Hstep. subst. exact Hpos.
      - ok_inv Hst1. subst st1. unfold EM.destroyEntity in Hstep. ok_inv Hstep.
        destruct (decide _); [|discriminate]. ok_inv Hstep. subst a.
        cbn [fst availableIds]. by apply lookup_app_l_Some.
      - ok_inv Hst1. subst st1. unfold EM.setSignature in Hstep. ok_inv Hstep.
        destruct (decide _); [|discriminate]. ok_inv Hstep. subst a.
        exact Hpos. }
    exists st'. split; [|done]. cbn [em_run]. rewrite Hst1. exact Hrun.
Qed.

(** C3 (amended): in every run in which destroyEntity and setSignature are
    applied only to ids that are live at the time, no two simultaneously
    live entities share an id; the id createEntity hands out next is not
    live and its stored signature is empty; and an id that is destroyed is
    returned again by the createEntity call that follows as many further
    createEntity calls as there were ids in the pool when it was destroyed,
    whatever calls on live ids come in between. *)
Theorem C3_ids_unique_and_recycled
    (calls : list em_call) (em : EntityManager) (live : list Entity) :
  on_live_ids calls em_fresh = true →
  em_run calls em_fresh = Ok (em, live) →
  NoDup live
  ∧ (∀ id em', EM.createEntity em = Ok (id, em') →
       (id ∉ live) ∧ EM.getSignature em' id = Ok Sig.empty)
  ∧ (∀ e, e ∈ live →
       ∃ em1, EM.destroyEntity em e = Ok em1
         ∧ ∀ later,
             on_live_ids later (em1, remove_first e live) = true →
             count_creates later = length (availableIds em) →
             ∃ em2 live2 em3,
               em_run later (em1, remove_first e live) = Ok (em2, live2)
               ∧ EM.createEntity em2 = Ok (e, em3)
               ∧ EM.getSignature em3 e = Ok Sig.empty).
Proof.
  intros Hlive Hrun.
  assert (Hinv : em_inv (em, live)) by (eapply em_run_inv; eauto using em_inv_fresh).
  split; [apply (em_inv_live_NoDup _ Hinv)|]. split.
  - intros id em' Hc. by apply (em_create_fresh_id _ Hinv).
  - intros e He.
    destruct (em_step_ok _ Hinv (CallDestroy e) He) as [[em1 live1] Hd].
    assert (Hinv1 : em_inv (em1, live1)).
    { by apply (em_step_inv _ Hinv (CallDestroy e)). }
    unfold em_step in Hd. cbn [fst snd] in Hd. ok_inv Hd. ok_inv Hd. subst a live1.
    exists em1. split; [done|]. intros later Hlater Hcount.
    assert (Hq : availableIds em1 = availableIds em ++ [e]).
    { unfold EM.destroyEntity in Hstep. ok_inv Hstep.
      destruct (decide _); [|discriminate]. ok_inv Hstep. by subst em1. }
    destruct (em_run_reaches_front e later _ Hinv1 Hlater) as ([em2 live2] & Hrun2 & Hinv2 & Hhead).
    { cbn [fst]. rewrite Hq, Hcount. by rewrite list_lookup_middle. }
    cbn [fst] in Hhead.
    destruct (em_step_ok _ Hinv2 CallCreate) as [[em3 live3] Hc].
    { cbn [fst]. intros Hnil. rewrite Hnil in Hhead. discriminate. }
    unfold em_step in Hc. cbn [fst snd] in Hc. ok_inv Hc. destruct a as [id em3'].
    ok_inv Hc. subst em3' live3.
    assert (id = e) as ->.
    { unfold EM.createEntity in Hstep0. ok_inv Hstep0.
      destruct (availableIds em2) as [|x q]; [discriminate|].
      ok_inv Hstep0. simpl in Hhead. congruence. }
    exists em2, live2, em3. split; [done|]. split; [done|].
    by apply (em_create_fresh_id _ Hinv2 e em3).
Qed.

Lemma C3_ids_unique_and_recycled_witness :
  NoDup [2; 1]
  ∧ (∀ id em', EM.createEntity (from_ok em_fresh (em_run [CallCreate; CallCreate] em_fresh)).1
               = Ok (id, em') →
       (id ∉ [2; 1]) ∧ EM.getSignature em' id = Ok Sig.empty).
Proof.
  pose proof (C3_ids_unique_and_recycled [CallCreate; CallCreate]
                (from_ok em_fresh (em_run [CallCreate; CallCreate] em_fresh)).1 [2; 1]) as H.
  destruct H as (H1 & H2 & _).
  - vm_compute. reflexivity.
  - vm_compute. reflexivity.
  - split; [exact H1|exact H2].
Defined.

Lemma double_destroy_run :
  (st ← em_run double_destroy_calls em_fresh; Ok (take 2 st.2)) = Ok [1; 1].
Proof. vm_compute. reflexivity. Qed.

Lemma double_destroy_in_range : destroys_in_range double_destroy_calls.
Proof.
  unfold destroys_in_range, double_destroy_calls.
  apply Forall_app. split.
  - repeat constructor.
  - apply Forall_replicate. exact I.
Qed.

(** C3 as worded fails: with destroyEntity checked for range only,
    destroying id 1 twice puts it in the pool twice, and after the pool has
    cycled two consecutive createEntity calls both return 1. *)
Lemma C3_double_destroy_shares_id : ¬ unique_ids_under_range_check.
Proof.
  intros Hclaim.
  pose proof double_destroy_run as Hrun.
  destruct (em_run double_destroy_calls em_fresh) as [[em live]|f] eqn:Heq;
    [|discriminate Hrun].
  pose proof (Hclaim _ em live double_destroy_in_range Heq) as Hnd.
  cbn in Hrun. injection Hrun as Hrun.
  destruct live as [|a [|b live]]; try discriminate Hrun.
  simpl in Hrun. injection Hrun as -> ->.
  apply NoDup_cons in Hnd as [Hnotin _]. apply Hnotin. left.
Qed.

(** ** ComponentArray *)

Lemma vec_pop_Ok {A} (v : list A) :
  length v ≠ 0%nat → vec_pop v = Ok (take (length v - 1) v).
Proof. destruct v; [done|reflexivity]. Qed.

Lemma has_true {T} (ca : ComponentArray T) (e : Entity) :
  CA.has ca e = true ↔ ∃ i, entityToIndex ca !! e = Some i.
Proof. unfold CA.has. by rewrite bool_decide_eq_true. Qed.

Lemma has_false {T} (ca : ComponentArray T) (e : Entity) :
  CA.has ca e = false ↔ entityToIndex ca !! e = None.
Proof. unfold CA.has. by rewrite bool_decide_eq_false, eq_None_not_Some. Qed.

Section dense.
Context {T : Type} (ca : ComponentArray T) (Hinv : dense_inv ca).

Lemma dense_index_lt (e : Entity) (i : nat) :
  entityToIndex ca !! e = Some i → (i < length (components ca))%nat.
Proof.
  destruct Hinv as (Hlen & _ & Hback). intros Hi.
  rewrite <- Hlen. eapply lookup_lt_Some. by apply Hback.
Qed.

Lemma dense_inj (e1 e2 : Entity) (i : nat) :
  entityToIndex ca !! e1 = Some i → entityToIndex ca !! e2 = Some i → e1 = e2.
Proof.
  destruct Hinv as (_ & _ & Hback). intros H1 H2.
  apply Hback in H1, H2. congruence.
Qed.

(** Every slot of the dense vectors belongs to an entity of the map: an
    injective map from [n] keys into [n] slots reaches all of them. *)
Lemma dense_slot_owned (i : nat) :
  (i < length (components ca))%nat → ∃ e, entityToIndex ca !! e = Some i.
Proof.
  intros Hi. destruct Hinv as (Hlen & Hsize & Hback).
  set (slots := (map_to_list (entityToIndex ca)).*2).
  assert (Hnd : NoDup slots).
  { apply NoDup_fmap_2_strong; [|apply NoDup_map_to_list].
    intros [e1 i1] [e2 i2] H1 H2 Heq. simpl in Heq. subst i2.
    apply elem_of_map_to_list in H1, H2.
    by rewrite (dense_inj e1 e2 i1). }
  assert (Hsub : ∀ j, j ∈ slots → j ∈ seq 0 (length (components ca))).
  { intros j Hj. apply list_elem_of_fmap in Hj as ([e j'] & -> & Hin).
    apply elem_of_map_to_list in Hin. simpl.
    apply elem_of_seq. split; [lia|]. simpl. by eapply dense_index_lt. }
  assert (Hperm : slots ≡ₚ seq 0 (length (components ca))).
  { apply submseteq_length_Permutation; [by apply NoDup_submseteq|].
    unfold slots. by rewrite length_seq, length_fmap, length_map_to_list, Hsize. }
  assert (Hin : i ∈ slots) by (rewrite Hperm; apply elem_of_seq; lia).
  apply list_elem_of_fmap in Hin as ([e j] & -> & Hin).
  exists e. by apply elem_of_map_to_list.
Qed.

Lemma dense_get_Ok (e : Entity) :
  CA.has ca e = true → ∃ v, CA.get ca e = Ok v.
Proof.
  intros [i Hi]%has_true. unfold CA.get, vec_get. rewrite Hi.
  destruct (lookup_lt_is_Some_2 (components ca) i) as [v Hv];
    [by eapply dense_index_lt|].
  exists v. by rewrite Hv.
Qed.

Lemma insert_dense (e : Entity) (v : T) :
  CA.has ca e = false →
  ∃ ca', CA.insert ca e v = Ok ca'
         ∧ dense_inv ca'
         ∧ dom (entityToIndex ca') = {[e]} ∪ dom (entityToIndex ca).
Proof.
  intros Hhas. unfold CA.insert. rewrite Hhas. cbn [negb cassert mbind result_bind].
  eexists. split; [reflexivity|].
  apply has_false in Hhas. destruct Hinv as (Hlen & Hsize & Hback).
  split; [|by cbn; rewrite dom_insert_L].
  unfold dense_inv. cbn [components entityToIndex indexToEntity].
  rewrite !length_app. cbn [length]. split; [lia|]. split.
  - rewrite map_size_insert_None by done. lia.
  - intros e' i. rewrite lookup_insert. case_decide as Heq.
    + intros [= <-]. subst e'. rewrite <- Hlen. by apply list_lookup_middle.
    + intros Hi. apply lookup_app_l_Some. by apply Hback.
Qed.
End dense.

Section dense_remove.
Context {T : Type} (ca : ComponentArray T) (Hinv : dense_inv ca).
Context (e : Entity) (r : nat) (Hr : entityToIndex ca !! e = Some r).

Let n := length (components ca).

Lemma remove_last_slot :
  r = (n - 1)%nat →
  CA.remove ca e
  = Ok {| components    := take (n - 1) (components ca);
          entityToIndex := delete e (entityToIndex ca);
          indexToEntity := take (n - 1) (indexToEntity ca) |}.
Proof.
  intros Hlast. pose proof (dense_index_lt ca Hinv e r Hr) as Hlt.
  destruct Hinv as (Hlen & _ & _).
  unfold CA.remove. rewrite Hr. rewrite decide_False by lia.
  rewrite decide_False by (fold n; lia).
  cbn [mbind result_bind]. rewrite !vec_pop_Ok by lia.
  cbn [mbind result_bind]. by rewrite Hlen.
Qed.

Lemma remove_inner_slot (moved : T) (lastEntity : Entity) :
  r ≠ (n - 1)%nat →
  components ca !! (n - 1)%nat = Some moved →
  indexToEntity ca !! (n - 1)%nat = Some lastEntity →
  CA.remove ca e
  = Ok {| components    := take (n - 1) (<[r := moved]> (components ca));
          entityToIndex := delete e (<[lastEntity := r]> (entityToIndex ca));
          indexToEntity := take (n - 1) (<[r := lastEntity]> (indexToEntity ca)) |}.
Proof.
  intros Hne Hmoved Hlast. pose proof (dense_index_lt ca Hinv e r Hr) as Hlt.
  destruct Hinv as (Hlen & _ & _).
  unfold CA.remove. rewrite Hr. rewrite decide_False by lia.
  rewrite decide_True by (fold n; lia). fold n.
  unfold vec_get, vec_set. rewrite Hmoved, Hlast.
  cbn [mbind result_bind]. rewrite decide_True by lia.
  cbn [mbind result_bind]. rewrite decide_True by lia.
  cbn [mbind result_bind]. rewrite !vec_pop_Ok by (rewrite length_insert; lia).
  cbn [mbind result_bind]. rewrite !length_insert. by rewrite Hlen.
Qed.

Lemma remove_dense :
  ∃ ca', CA.remove ca e = Ok ca'
         ∧ dense_inv ca'
         ∧ dom (entityToIndex ca') = dom (entityToIndex ca) ∖ {[e]}
         ∧ S (CA.size ca') = CA.size ca
         ∧ ∀ e', e' ≠ e → CA.get ca' e' = CA.get ca e'.
Proof.
  pose proof (dense_index_lt ca Hinv e r Hr) as Hlt. fold n in Hlt.
  pose proof Hinv as (Hlen & Hsize & Hback). fold n in Hlen, Hsize.
  destruct (decide (r = (n - 1)%nat)) as [Hlast|Hne].
  - eexists. split; [by apply remove_last_slot|].
    assert (Hother : ∀ e' i, e' ≠ e → entityToIndex ca !! e' = Some i → (i < n - 1)%nat).
    { intros e' i Hne Hi. pose proof (dense_index_lt ca Hinv e' i Hi). fold n in H.
      assert (i ≠ r) by (intros ->; by apply Hne, (dense_inj ca Hinv e' e r)).
      lia. }
    split; [|split; [|split]].
    + unfold dense_inv. cbn [components entityToIndex indexToEntity].
      rewrite !length_take. split; [lia|]. split.
      * rewrite map_size_delete, Hr, Hsize. fold n. lia.
      * intros e' i. rewrite lookup_delete. case_decide as Heq; [done|].
        intros Hi. rewrite lookup_take_lt by (eapply Hother; eauto). by apply Hback.
    + cbn. by rewrite dom_delete_L.
    + unfold CA.size. cbn [components]. rewrite length_take. fold n. lia.
    + intros e' He'. unfold CA.get. cbn [components entityToIndex].
      rewrite lookup_delete_ne by done.
      destruct (entityToIndex ca !! e') as [i|] eqn:Hi; [|done].
      unfold vec_get. by rewrite lookup_take_lt by (eapply Hother; eauto).
  - destruct (lookup_lt_is_Some_2 (components ca) (n - 1)) as [moved Hmoved];
      [fold n; lia|].
    destruct (dense_slot_owned ca Hinv (n - 1)) as [le Hle]; [fold n; lia|].
    pose proof (Hback _ _ Hle) as Hlast.
    assert (Hle_ne : le ≠ e) by (intros ->; congruence).
    eexists. split; [by apply (remove_inner_slot moved le)|].
    assert (Hother : ∀ e' i, e' ≠ e → e' ≠ le → entityToIndex ca !! e' = Some i →
                             (i < n - 1)%nat ∧ i ≠ r).
    { intros e' i He' Hle' Hi. pose proof (dense_index_lt ca Hinv e' i Hi). fold n in H.
      assert (i ≠ r) by (intros ->; by apply He', (dense_inj ca Hinv e' e r)).
      assert (i ≠ (n - 1)%nat) by (intros ->; by apply Hle', (dense_inj ca Hinv e' le (n - 1))).
      lia. }
    split; [|split; [|split]].
    + unfold dense_inv. cbn [components entityToIndex indexToEntity].
      rewrite !length_take, !length_insert. split; [lia|]. split.
      * rewrite map_size_delete, lookup_insert_ne, Hr by done.
        rewrite map_size_insert_Some by eauto. rewrite Hsize. fold n. lia.
      * intros e' i. rewrite lookup_delete. case_decide as Heq; [done|].
        rewrite lookup_insert. case_decide as Heq'.
        -- intros [= <-]. subst e'. rewrite lookup_take_lt by lia.
           apply list_lookup_insert_eq. lia.
        -- intros Hi. destruct (Hother e' i) as [? ?]; [done..|].
           rewrite lookup_take_lt by lia. rewrite list_lookup_insert_ne by done.
           by apply Hback.
    + cbn. rewrite dom_delete_L, dom_insert_L.
      assert (le ∈ dom (entityToIndex ca)) by (apply elem_of_dom; eauto).
      set_solver.
    + unfold CA.size. cbn [components]. rewrite length_take, length_insert. fold n. lia.
    + intros e' He'. unfold CA.get. cbn [components entityToIndex].
      rewrite lookup_delete_ne by done. rewrite lookup_insert. case_decide as Heq.
      * subst e'. rewrite Hle. unfold vec_get.
        rewrite lookup_take_lt by lia.
        rewrite list_lookup_insert_eq by lia. by rewrite Hmoved.
      * destruct (entityToIndex ca !! e') as [i|] eqn:Hi; [|done].
        destruct (Hother e' i) as [? ?]; [done..|]. unfold vec_get.
        rewrite lookup_take_lt by lia. by rewrite list_lookup_insert_ne.
Qed.
End dense_remove.

Lemma dense_inv_new {T} : dense_inv (@CA.new T).
Proof.
  unfold dense_inv, CA.new. cbn [components entityToIndex indexToEntity].
  split; [done|]. split; [by rewrite map_size_empty|].
  intros e i Hi. by rewrite lookup_empty in Hi.
Qed.

Lemma ca_step_dense {T} (c : ca_call T) (ca ca' : ComponentArray T) :
  dense_inv ca → ca_step c ca = Ok ca' →
  dense_inv ca' ∧ dom (entityToIndex ca') = holders_step c (dom (entityToIndex ca)).
Proof.
  intros Hinv Hstep. destruct c as [e v|e]; cbn [ca_step holders_step] in *.
  - destruct (insert_dense ca Hinv e v) as (ca1 & Hins & Hinv1 & Hdom1).
    { unfold CA.insert in Hstep. ok_inv Hstep. by apply negb_true_iff. }
    rewrite Hins in Hstep. by ok_inv Hstep; subst.
  - destruct (entityToIndex ca !! e) as [r|] eqn:Hr.
    + destruct (remove_dense ca Hinv e r Hr) as (ca1 & Hrm & Hinv1 & Hdom1 & _).
      rewrite Hrm in Hstep. by ok_inv Hstep; subst.
    + unfold CA.remove in Hstep. rewrite Hr in Hstep. discriminate.
Qed.

Lemma ca_run_dense {T} (calls : list (ca_call T)) (ca ca' : ComponentArray T) :
  dense_inv ca → ca_run calls ca = Ok ca' → dense_inv ca'.
Proof.
  revert ca. induction calls as [|c rest IH]; intros ca Hinv Hrun; cbn [ca_run] in Hrun.
  - by ok_inv Hrun; subst.
  - ok_inv Hrun. apply (IH a); [|done]. by apply (ca_step_dense c ca).
Qed.

(** A sequence that respects the preconditions runs to its end. *)
Lemma ca_run_respecting {T} (calls : list (ca_call T)) (ca : ComponentArray T) :
  dense_inv ca →
  respects_preconditions calls (dom (entityToIndex ca)) = true →
  ∃ ca', ca_run calls ca = Ok ca' ∧ dense_inv ca'.
Proof.
  revert ca. induction calls as [|c rest IH]; intros ca Hinv Hpre.
  - by exists ca.
  - cbn [respects_preconditions] in Hpre. apply andb_true_iff in Hpre as [Hc Hrest].
    assert (∃ ca1, ca_step c ca = Ok ca1) as [ca1 Hstep].
    { destruct c as [e v|e]; cbn [ca_step]; apply bool_decide_eq_true in Hc.
      - destruct (insert_dense ca Hinv e v) as (ca1 & Hins & _); [|by eauto].
        apply has_false. by apply not_elem_of_dom.
      - apply elem_of_dom in Hc as [r Hr].
        destruct (remove_dense ca Hinv e r Hr) as (ca1 & Hrm & _). by eauto. }
    destruct (ca_step_dense c ca ca1 Hinv Hstep) as [Hinv1 Hdom1].
    rewrite <- Hdom1 in Hrest.
    destruct (IH ca1 Hinv1 Hrest) as (ca' & Hrun & Hinv').
    exists ca'. split; [|done]. cbn [ca_run]. by rewrite Hstep.
Qed.

(** C2: a sequence of insert and remove calls on a fresh store that respects
    the preconditions (no insert for an entity that holds a component, no
    remove for one that holds none) runs to its end, and in the store it
    leaves size() is the number of entries of the entity-to-index map and
    indexToEntity[entityToIndex[e]] == e for every entity e in the store. *)
Theorem C2_dense_array_invariant {T} (calls : list (ca_call T)) :
  respects_preconditions calls ∅ = true →
  ∃ ca, ca_run calls CA.new = Ok ca
        ∧ CA.size ca = base.size (entityToIndex ca)
        ∧ ∀ e, CA.has ca e = true →
               ∃ i, entityToIndex ca !! e = Some i ∧ CA.getEntity ca i = Ok e.
Proof.
  intros Hpre.
  destruct (ca_run_respecting calls CA.new dense_inv_new) as (ca & Hrun & Hinv).
  { cbn [CA.new entityToIndex]. by rewrite dom_empty_L. }
  exists ca. split; [done|]. destruct Hinv as (Hlen & Hsize & Hback).
  split; [by unfold CA.size|].
  intros e [i Hi]%has_true. exists i. split; [done|].
  unfold CA.getEntity, vec_get. by rewrite (Hback e i Hi).
Qed.

Lemma C2_dense_array_invariant_witness :
  ∃ ca, ca_run [CallInsert 7 10%nat; CallInsert 3 20%nat; CallRemove 7; CallInsert 5 30%nat]
               CA.new = Ok ca
        ∧ CA.size ca = base.size (entityToIndex ca)
        ∧ ∀ e, CA.has ca e = true →
               ∃ i, entityToIndex ca !! e = Some i ∧ CA.getEntity ca i = Ok e.
Proof.
  apply (C2_dense_array_invariant
           [CallInsert 7 10%nat; CallInsert 3 20%nat; CallRemove 7; CallInsert 5 30%nat]).
  vm_compute. reflexivity.
Defined.

(** C4: on a store that satisfies the dense-array invariant, remove(e) for
    an entity e in the store returns normally, makes size() one smaller and
    has(e) false, and every other entity of the store is still in it with
    get returning the value it returned before. *)
Theorem C4_remove_keeps_the_others {T} (ca : ComponentArray T) (e : Entity) :
  dense_inv ca →
  CA.has ca e = true →
  ∃ ca', CA.remove ca e = Ok ca'
         ∧ S (CA.size ca') = CA.size ca
         ∧ CA.has ca' e = false
         ∧ ∀ e', e' ≠ e → CA.has ca e' = true →
                 CA.has ca' e' = true
                 ∧ ∃ v, CA.get ca e' = Ok v ∧ CA.get ca' e' = Ok v.
Proof.
  intros Hinv [r Hr]%has_true.
  destruct (remove_dense ca Hinv e r Hr) as (ca' & Hrm & Hinv' & Hdom & Hsize & Hget).
  exists ca'. split; [done|]. split; [done|]. split.
  - apply has_false, not_elem_of_dom. rewrite Hdom. set_solver.
  - intros e' Hne Hhas. split.
    + apply has_true, elem_of_dom. rewrite Hdom.
      apply has_true, elem_of_dom in Hhas. set_solver.
    + destruct (dense_get_Ok ca Hinv e' Hhas) as [v Hv].
      exists v. split; [done|]. by rewrite Hget.
Qed.

Lemma C4_remove_keeps_the_others_witness :
  let ca := from_ok CA.new
              (ca_run [CallInsert 7 10%nat; CallInsert 3 20%nat; CallInsert 5 30%nat] CA.new) in
  ∃ ca', CA.remove ca 7 = Ok ca'
         ∧ S (CA.size ca') = CA.size ca
         ∧ CA.has ca' 7 = false
         ∧ ∀ e', e' ≠ 7 → CA.has ca e' = true →
                 CA.has ca' e' = true
                 ∧ ∃ v, CA.get ca e' = Ok v ∧ CA.get ca' e' = Ok v.
Proof.
  intros ca. apply (C4_remove_keeps_the_others ca 7).
  - apply (ca_run_dense [CallInsert 7 10%nat; CallInsert 3 20%nat; CallInsert 5 30%nat] CA.new).
    + apply dense_inv_new.
    + vm_compute. reflexivity.
  - vm_compute. reflexivity.
Defined.

(** ** World: queries *)

Lemma getSignature_Ok (em : EntityManager) (e : Entity) (s : Signature) :
  EM.getSignature em e = Ok s ↔
  entity_in_range e = true ∧ signatures em !! N.to_nat e = Some s.
Proof.
  unfold EM.getSignature. destruct (entity_in_range e); cbn [cassert mbind result_bind].
  - destruct (signatures em !! N.to_nat e) as [s'|]; split.
    + intros [= ->]. done.
    + intros [_ [= ->]]. done.
    + discriminate.
    + intros [_ ?]. discriminate.
  - split; [discriminate|]. intros [? _]. discriminate.
Qed.

Lemma isAlive_guard (e : Entity) :
  (e =? NULL_ENTITY) || (MAX_ENTITIES <? e) = negb (entity_in_range e).
Proof.
  unfold entity_in_range, NULL_ENTITY.
  destruct (N.eqb_spec e 0), (N.ltb_spec MAX_ENTITIES e), (N.ltb_spec 0 e),
    (N.leb_spec e MAX_ENTITIES); simpl; try reflexivity; lia.
Qed.

Lemma isAlive_true {T} (w : World T) (e : Entity) :
  W.isAlive w e = Ok true ↔
  ∃ s, EM.getSignature (entityManager w) e = Ok s ∧ Sig.any s = true.
Proof.
  unfold W.isAlive. rewrite isAlive_guard.
  destruct (entity_in_range e) eqn:Hr; cbn [negb].
  - split.
    + intros H. ok_inv H. ok_inv H. eauto.
    + intros (s & -> & Hs). cbn [mbind result_bind]. by rewrite Hs.
  - split; [discriminate|]. intros (s & Hs & _).
    apply getSignature_Ok in Hs as [? _]. congruence.
Qed.

(** C5: isAlive(e) returns false for the null id and for an id above
    MAX_ENTITIES; for any other id it returns true exactly when the
    signature stored for e has at least one bit set. *)
Theorem C5_isAlive_tests_the_signature {T} (w : World T) (e : Entity) :
  EM.array_ok (entityManager w) →
  ∃ b, W.isAlive w e = Ok b
       ∧ (e = NULL_ENTITY ∨ MAX_ENTITIES < e → b = false)
       ∧ (e ≠ NULL_ENTITY → e ≤ MAX_ENTITIES →
          ∃ s, EM.getSignature (entityManager w) e = Ok s
               ∧ (b = true ↔ ∃ pos, Sig.test s pos = true)).
Proof.
  intros Hlen. unfold W.isAlive. rewrite isAlive_guard.
  destruct (entity_in_range e) eqn:Hr; cbn [negb].
  - pose proof Hr as [Hpos Hle]%in_range_spec.
    destruct (lookup_lt_is_Some_2 (signatures (entityManager w)) (N.to_nat e)) as [s Hs].
    { rewrite Hlen. lia. }
    assert (Hget : EM.getSignature (entityManager w) e = Ok s) by by apply getSignature_Ok.
    rewrite Hget. cbn [mbind result_bind]. exists (Sig.any s).
    split; [done|]. split.
    + unfold NULL_ENTITY. lia.
    + intros _ _. exists s. split; [done|]. apply any_spec.
  - exists false. split; [done|]. split; [done|].
    intros Hne Hle. unfold NULL_ENTITY in Hne.
    assert (entity_in_range e = true) by (apply in_range_spec; lia). congruence.
Qed.

Lemma C5_isAlive_tests_the_signature_witness :
  ∃ b, W.isAlive (@W.new nat) 7 = Ok b
       ∧ (7 = NULL_ENTITY ∨ MAX_ENTITIES < 7 → b = false)
       ∧ (7 ≠ NULL_ENTITY → 7 ≤ MAX_ENTITIES →
          ∃ s, EM.getSignature (entityManager (@W.new nat)) 7 = Ok s
               ∧ (b = true ↔ ∃ pos, Sig.test s pos = true)).
Proof. apply (C5_isAlive_tests_the_signature (@W.new nat) 7). vm_compute. reflexivity. Defined.

(** ** World: adding and removing a component *)

Lemma remove_has_false {T} (ca ca' : ComponentArray T) (e : Entity) :
  CA.remove ca e = Ok ca' → CA.has ca' e = false.
Proof.
  unfold CA.remove. destruct (entityToIndex ca !! e) as [r|]; [|discriminate].
  destruct (decide _); [discriminate|]. intros H.
  ok_inv H. destruct a as [[comps e2i] i2e]. ok_inv H. ok_inv H. ok_inv H. subst ca'.
  apply has_false. cbn [entityToIndex]. apply lookup_delete_eq.
Qed.

Lemma insert_then_remove {T} (ca ca1 : ComponentArray T) (e : Entity) (v : T) :
  CA.insert ca e v = Ok ca1 → ∃ ca2, CA.remove ca1 e = Ok ca2.
Proof.
  unfold CA.insert. intros H. ok_inv H. ok_inv H. subst ca1.
  unfold CA.remove. cbn [components entityToIndex indexToEntity].
  rewrite lookup_insert_eq. rewrite length_app. cbn [length].
  rewrite decide_False by lia. rewrite decide_False by lia.
  cbn [mbind result_bind]. rewrite !vec_pop_Ok by (rewrite length_app; cbn; lia).
  cbn [mbind result_bind]. eauto.
Qed.

Lemma setSignature_Ok (em em' : EntityManager) (e : Entity) (s : Signature) :
  EM.setSignature em e s = Ok em' ↔
  entity_in_range e = true
  ∧ (N.to_nat e < length (signatures em))%nat
  ∧ em' = mkEntityManager (availableIds em) (<[N.to_nat e := s]> (signatures em))
                          (livingCount em).
Proof.
  unfold EM.setSignature. destruct (entity_in_range e); cbn [cassert mbind result_bind].
  - destruct (decide _) as [Hlt|Hge]; split.
    + intros [= <-]. done.
    + intros (_ & _ & ->). done.
    + discriminate.
    + intros (_ & ? & _). done.
  - split; [discriminate|]. intros [? _]. discriminate.
Qed.

Lemma getSignature_after_set (em em' : EntityManager) (e e' : Entity) (s : Signature) :
  EM.setSignature em e s = Ok em' →
  EM.getSignature em' e' = if decide (e' = e) then Ok s else EM.getSignature em e'.
Proof.
  intros (Hr & Hlt & ->)%setSignature_Ok. unfold EM.getSignature. cbn [signatures].
  case_decide as Heq.
  - subst e'. rewrite Hr. cbn [cassert mbind result_bind].
    by rewrite list_lookup_insert_eq.
  - rewrite list_lookup_insert_ne; [done|]. intros Hn. by apply N2Nat.inj in Hn.
Qed.

Section add_remove.
Context {T : Type} (w : World T) (ti : TypeIndex) (e : Entity).

(** What a normal return of [removeComponent] leaves behind. *)
Lemma removeComponent_Ok (w2 : World T) :
  W.removeComponent w ti e = Ok w2 →
  ∃ array array' sig bit em2,
    typeToArray (componentManager w) !! ti = Some array
    ∧ CA.remove array e = Ok array'
    ∧ EM.getSignature (entityManager w) e = Ok sig
    ∧ typeToBit (componentManager w) !! ti = Some bit
    ∧ bit < MAX_COMPONENTS
    ∧ EM.setSignature (entityManager w) e (N.clearbit sig bit) = Ok em2
    ∧ w2 = W.updateSystemEntitySets
             {| entityManager := em2;
                componentManager :=
                  {| typeToBit := typeToBit (componentManager w);
                     typeToArray := <[ti := array']> (typeToArray (componentManager w));
                     nextBit := nextBit (componentManager w) |};
                systems := systems w; systemOrder := systemOrder w;
                allocated := allocated w |} e (N.clearbit sig bit).
Proof.
  unfold W.removeComponent. intros H.
  ok_inv H. rename a into cm1, Hstep into Hcm.
  ok_inv H. rename a into sig, Hstep into Hsig.
  ok_inv H. rename a into bit, Hstep into Hbit.
  ok_inv H. rename a into sig', Hstep into Hreset.
  ok_inv H. rename a into em2, Hstep into Hset.
  ok_inv H. subst w2.
  unfold CM.removeComponent in Hcm. ok_inv Hcm. rename a into array, Hstep into Harr.
  ok_inv Hcm. rename a into array', Hstep into Hrm. ok_inv Hcm. subst cm1.
  unfold CM.getComponentArray in Harr.
  destruct (typeToArray (componentManager w) !! ti) as [array0|] eqn:Ha; [|discriminate].
  ok_inv Harr. subst array0.
  unfold CM.getBit in Hbit. cbn [typeToBit] in Hbit.
  destruct (typeToBit (componentManager w) !! ti) as [bit0|] eqn:Hb; [|discriminate].
  ok_inv Hbit. subst bit0.
  unfold Sig.reset_bit in Hreset. destruct (N.ltb_spec bit MAX_COMPONENTS); [|discriminate].
  ok_inv Hreset. subst sig'.
  by exists array, array', sig, bit, em2.
Qed.

Lemma addComponent_Ok (v : T) (w1 : World T) :
  W.addComponent w ti e v = Ok w1 →
  ∃ array array' sig bit em1,
    typeToArray (componentManager w) !! ti = Some array
    ∧ CA.insert array e v = Ok array'
    ∧ EM.getSignature (entityManager w) e = Ok sig
    ∧ typeToBit (componentManager w) !! ti = Some bit
    ∧ bit < MAX_COMPONENTS
    ∧ EM.setSignature (entityManager w) e (N.setbit sig bit) = Ok em1
    ∧ w1 = W.updateSystemEntitySets
             {| entityManager := em1;
                componentManager :=
                  {| typeToBit := typeToBit (componentManager w);
                     typeToArray := <[ti := array']> (typeToArray (componentManager w));
                     nextBit := nextBit (componentManager w) |};
                systems := systems w; systemOrder := systemOrder w;
                allocated := allocated w |} e (N.setbit sig bit).
Proof.
  unfold W.addComponent. intros H.
  ok_inv H. rename a into cm1, Hstep into Hcm.
  ok_inv H. rename a into sig, Hstep into Hsig.
  ok_inv H. rename a into bit, Hstep into Hbit.
  ok_inv H. rename a into sig', Hstep into Hset1.
  ok_inv H. rename a into em1, Hstep into Hset.
  ok_inv H. subst w1.
  unfold CM.addComponent in Hcm. ok_inv Hcm. rename a into array, Hstep into Harr.
  ok_inv Hcm. rename a into array', Hstep into Hins. ok_inv Hcm. subst cm1.
  unfold CM.getComponentArray in Harr.
  destruct (typeToArray (componentManager w) !! ti) as [array0|] eqn:Ha; [|discriminate].
  ok_inv Harr. subst array0.
  unfold CM.getBit in Hbit. cbn [typeToBit] in Hbit.
  destruct (typeToBit (componentManager w) !! ti) as [bit0|] eqn:Hb; [|discriminate].
  ok_inv Hbit. subst bit0.
  unfold Sig.set in Hset1. destruct (N.ltb_spec bit MAX_COMPONENTS); [|discriminate].
  ok_inv Hset1. subst sig'.
  by exists array, array', sig, bit, em1.
Qed.
End add_remove.

Lemma hasComponent_Ok {T} (w : World T) (ti : TypeIndex) (e : Entity) (b : bool) :
  W.hasComponent w ti e = Ok b ↔
  ∃ array, typeToArray (componentManager w) !! ti = Some array ∧ CA.has array e = b.
Proof.
  unfold W.hasComponent, CM.hasComponent, CM.getComponentArray.
  destruct (typeToArray (componentManager w) !! ti) as [array|];
    cbn [mbind result_bind]; split.
  - intros [= <-]. eauto.
  - intros (array' & [= <-] & <-). done.
  - discriminate.
  - intros (? & ? & _). discriminate.
Qed.

(** C6: whenever addComponent<T>(e, v) followed by removeComponent<T>(e)
    return normally, hasComponent<T>(e) is false afterwards and the bit of
    T is clear in the signature stored for e; and they do return normally
    for a registered type whose bit lies inside the signature, a valid
    entity e and no T component on e. *)
Theorem C6_add_then_remove {T} (w : World T) (ti : TypeIndex) (e : Entity) (v : T) :
  (∀ w1 w2,
     W.addComponent w ti e v = Ok w1 →
     W.removeComponent w1 ti e = Ok w2 →
     W.hasComponent w2 ti e = Ok false
     ∧ ∃ bit sig, W.getComponentBit w2 ti = Ok bit
                  ∧ EM.getSignature (entityManager w2) e = Ok sig
                  ∧ Sig.test sig bit = false)
  ∧ (∀ bit,
       EM.array_ok (entityManager w) →
       W.getComponentBit w ti = Ok bit →
       bit < MAX_COMPONENTS →
       entity_in_range e = true →
       W.hasComponent w ti e = Ok false →
       ∃ w1 w2, W.addComponent w ti e v = Ok w1 ∧ W.removeComponent w1 ti e = Ok w2).
Proof.
  split.
  - intros w1 w2 _ Hrm.
    apply removeComponent_Ok in Hrm
      as (array & array' & sig & bit & em2 & Ha & Hrm & Hsig & Hb & Hlt & Hset & ->).
    split.
    + apply hasComponent_Ok. exists array'. cbn. rewrite lookup_insert_eq.
      split; [done|]. by eapply remove_has_false.
    + exists bit, (N.clearbit sig bit). split; [|split].
      * unfold W.getComponentBit, CM.getBit. cbn. by rewrite Hb.
      * cbn [W.updateSystemEntitySets entityManager].
        rewrite (getSignature_after_set _ _ e e _ Hset). by rewrite decide_True.
      * apply N.clearbit_eq.
  - intros bit Hlen Hbit Hlt Hr [array [Ha Hhas]]%hasComponent_Ok.
    unfold W.getComponentBit, CM.getBit in Hbit.
    destruct (typeToBit (componentManager w) !! ti) as [bit0|] eqn:Hb; [|discriminate].
    ok_inv Hbit. subst bit0.
    pose proof Hr as [Hpos Hle]%in_range_spec.
    assert (Hidx : (N.to_nat e < length (signatures (entityManager w)))%nat).
    { rewrite Hlen. lia. }
    destruct (lookup_lt_is_Some_2 _ _ Hidx) as [sig Hsig].
    assert (∃ array1, CA.insert array e v = Ok array1) as [array1 Hins].
    { unfold CA.insert. rewrite Hhas. cbn. eauto. }
    destruct (insert_then_remove array array1 e v Hins) as [array2 Hrm].
    assert (Hltb : (bit <? MAX_COMPONENTS) = true) by by apply N.ltb_lt.
    eexists _, _. split.
    + unfold W.addComponent, CM.addComponent, CM.getComponentArray.
      rewrite Ha. cbn [mbind result_bind]. rewrite Hins. cbn [mbind result_bind].
      unfold EM.getSignature. rewrite Hr, Hsig. cbn [cassert mbind result_bind].
      unfold CM.getBit. cbn [typeToBit]. rewrite Hb. cbn [mbind result_bind].
      unfold Sig.set. rewrite Hltb. cbn [mbind result_bind].
      unfold EM.setSignature. rewrite Hr. cbn [cassert mbind result_bind].
      rewrite decide_True by done. cbn [mbind result_bind]. reflexivity.
    + unfold W.removeComponent, CM.removeComponent, CM.getComponentArray.
      cbn [W.updateSystemEntitySets componentManager entityManager typeToArray typeToBit
           signatures].
      rewrite lookup_insert_eq. cbn [mbind result_bind]. rewrite Hrm.
      cbn [mbind result_bind].
      unfold EM.getSignature. cbn [signatures]. rewrite Hr.
      rewrite list_lookup_insert_eq by done. cbn [cassert mbind result_bind].
      unfold CM.getBit. cbn [typeToBit]. rewrite Hb. cbn [mbind result_bind].
      unfold Sig.reset_bit. rewrite Hltb. cbn [mbind result_bind].
      unfold EM.setSignature. cbn [signatures]. rewrite Hr. cbn [cassert mbind result_bind].
      rewrite decide_True by (by rewrite length_insert). cbn [mbind result_bind].
      reflexivity.
Qed.

Lemma C6_add_then_remove_witness :
  let w := from_ok W.new (api_run [ApiRegisterComponent "Position"; ApiCreateEntity] W.new) in
  ∃ w1 w2, W.addComponent w "Position" 1 10%nat = Ok w1
           ∧ W.removeComponent w1 "Position" 1 = Ok w2
           ∧ W.hasComponent w2 "Position" 1 = Ok false.
Proof.
  intros w.
  destruct (proj2 (C6_add_then_remove w "Position" 1 10%nat) 0) as (w1 & w2 & Hadd & Hrm).
  - vm_compute. reflexivity.
  - vm_compute. reflexivity.
  - vm_compute. reflexivity.
  - vm_compute. reflexivity.
  - vm_compute. reflexivity.
  - exists w1, w2. split; [exact Hadd|]. split; [exact Hrm|].
    exact (proj1 (proj1 (C6_add_then_remove w "Position" 1 10%nat) w1 w2 Hadd Hrm)).
Defined.

(** ** World: what one call changes *)

Lemma destroyEntity_Ok {T} (w w' : World T) (e : Entity) :
  W.destroyEntity w e = Ok w' →
  entity_in_range e = true
  ∧ (N.to_nat e < length (signatures (entityManager w)))%nat
  ∧ signatures (entityManager w') = <[N.to_nat e := Sig.empty]> (signatures (entityManager w))
  ∧ availableIds (entityManager w') = availableIds (entityManager w) ++ [e]
  ∧ systems w' = system_erase e <$> systems w
  ∧ systemOrder w' = systemOrder w.
Proof.
  unfold W.destroyEntity. intros H. ok_inv H. ok_inv H. ok_inv H. subst w'.
  unfold EM.destroyEntity in Hstep0. ok_inv Hstep0.
  destruct (decide _) as [Hlt|]; [|discriminate]. ok_inv Hstep0. subst a0.
  done.
Qed.

Lemma createEntity_Ok {T} (w w' : World T) (id : Entity) :
  W.createEntity w = Ok (id, w') →
  livingCount (entityManager w) < MAX_ENTITIES
  ∧ availableIds (entityManager w) = id :: availableIds (entityManager w')
  ∧ signatures (entityManager w') = signatures (entityManager w)
  ∧ livingCount (entityManager w') = livingCount (entityManager w) + 1
  ∧ systems w' = systems w
  ∧ systemOrder w' = systemOrder w.
Proof.
  unfold W.createEntity. intros H. ok_inv H. destruct a as [id' em']. ok_inv H. subst id' w'.
  unfold EM.createEntity in Hstep. ok_inv Hstep. apply N.ltb_lt in Hstep0.
  destruct (availableIds (entityManager w)) as [|x q]; [discriminate|].
  ok_inv Hstep. subst x em'. cbn. by rewrite u32_incr_small.
Qed.

(** The part of a call's effect that the membership properties depend on:
    the signature array, the pool and the systems' entity sets. *)
Lemma api_step_effect {T} (c : api_call T) (w w' : World T) :
  api_step c w = Ok w' →
  match c with
  | ApiRegisterComponent _ =>
      signatures (entityManager w') = signatures (entityManager w)
      ∧ availableIds (entityManager w') = availableIds (entityManager w)
      ∧ systems w' = systems w
  | ApiRegisterSystem cls nm sig =>
      signatures (entityManager w') = signatures (entityManager w)
      ∧ availableIds (entityManager w') = availableIds (entityManager w)
      ∧ systems w' = <[nm := mkSystem ∅ nm sig true cls (allocated w)]> (systems w)
  | ApiCreateEntity =>
      signatures (entityManager w') = signatures (entityManager w)
      ∧ (∃ id, availableIds (entityManager w) = id :: availableIds (entityManager w'))
      ∧ systems w' = systems w
  | ApiDestroyEntity e =>
      entity_in_range e = true
      ∧ (N.to_nat e < length (signatures (entityManager w)))%nat
      ∧ signatures (entityManager w')
        = <[N.to_nat e := Sig.empty]> (signatures (entityManager w))
      ∧ availableIds (entityManager w') = availableIds (entityManager w) ++ [e]
      ∧ systems w' = system_erase e <$> systems w
  | ApiAddComponent ti e _ =>
      ∃ sig bit,
        entity_in_range e = true
        ∧ signatures (entityManager w) !! N.to_nat e = Some sig
        ∧ signatures (entityManager w')
          = <[N.to_nat e := N.setbit sig bit]> (signatures (entityManager w))
        ∧ availableIds (entityManager w') = availableIds (entityManager w)
        ∧ systems w' = W.refresh e (N.setbit sig bit) <$> systems w
  | ApiRemoveComponent ti e =>
      ∃ sig bit,
        entity_in_range e = true
        ∧ signatures (entityManager w) !! N.to_nat e = Some sig
        ∧ signatures (entityManager w')
          = <[N.to_nat e := N.clearbit sig bit]> (signatures (entityManager w))
        ∧ availableIds (entityManager w') = availableIds (entityManager w)
        ∧ systems w' = W.refresh e (N.clearbit sig bit) <$> systems w
  end.
Proof.
  destruct c as [ti|cls nm sig| |e|ti e v|ti e]; cbn [api_step]; intros H.
  - unfold W.registerComponent in H. ok_inv H. ok_inv H. by subst w'.
  - ok_inv H. by subst w'.
  - ok_inv H. destruct a as [id w1]. ok_inv H. subst w1.
    apply createEntity_Ok in Hstep as (_ & Hq & Hs & _ & Hsys & _). eauto.
  - apply destroyEntity_Ok in H as (? & ? & ? & ? & ? & _). done.
  - apply addComponent_Ok in H
      as (array & array' & sig & bit & em1 & _ & _ & Hsig & _ & _ & Hset & ->).
    apply getSignature_Ok in Hsig as [Hr Hsig].
    apply setSignature_Ok in Hset as (_ & _ & ->).
    exists sig, bit. done.
  - apply removeComponent_Ok in H
      as (array & array' & sig & bit & em2 & _ & _ & Hsig & _ & _ & Hset & ->).
    apply getSignature_Ok in Hsig as [Hr Hsig].
    apply setSignature_Ok in Hset as (_ & _ & ->).
    exists sig, bit. done.
Qed.

(** ** Signature/membership consistency *)

Lemma consistent_unfold {T} (w : World T) :
  membership_consistent w ↔
  ∀ nm s e, systems w !! nm = Some s →
    e ∈ entities s ↔
      entity_in_range e = true
      ∧ ∃ sig, signatures (entityManager w) !! N.to_nat e = Some sig
               ∧ Sig.any sig = true ∧ Sig.matches sig (signature s) = true.
Proof.
  unfold membership_consistent.
  assert (Hrhs : ∀ (s : System) e,
    (W.isAlive w e = Ok true
     ∧ ∃ sig, EM.getSignature (entityManager w) e = Ok sig
              ∧ Sig.matches sig (signature s) = true)
    ↔ (entity_in_range e = true
       ∧ ∃ sig, signatures (entityManager w) !! N.to_nat e = Some sig
                ∧ Sig.any sig = true ∧ Sig.matches sig (signature s) = true)).
  { intros s e. rewrite isAlive_true. split.
    - intros [(sig & Hsig & Hany) (sig' & Hsig' & Hm)].
      assert (sig' = sig) as -> by congruence.
      apply getSignature_Ok in Hsig as [Hr Hsig]. eauto.
    - intros (Hr & sig & Hsig & Hany & Hm).
      assert (EM.getSignature (entityManager w) e = Ok sig) by by apply getSignature_Ok.
      split; eauto. }
  split; intros H nm s e Hs.
  - rewrite <- Hrhs. by apply (H nm).
  - rewrite Hrhs. by apply (H nm).
Qed.

(** A call that rewrites the signature of one entity [e] and refreshes the
    systems for [e] alone keeps a consistent world consistent, provided the
    systems' new verdict on [e] is the one the property asks for. *)
Lemma consistent_local_update {T} (w w' : World T) (e : Entity) (sig' : Signature)
    (f : System → System) :
  membership_consistent w →
  entity_in_range e = true →
  (N.to_nat e < length (signatures (entityManager w)))%nat →
  signatures (entityManager w') = <[N.to_nat e := sig']> (signatures (entityManager w)) →
  systems w' = f <$> systems w →
  (∀ nm s, systems w !! nm = Some s →
     signature (f s) = signature s
     ∧ (∀ e', e' ≠ e → e' ∈ entities (f s) ↔ e' ∈ entities s)
     ∧ (e ∈ entities (f s) ↔
        Sig.any sig' = true ∧ Sig.matches sig' (signature s) = true)) →
  membership_consistent w'.
Proof.
  rewrite !consistent_unfold. intros Hcons Hr Hlt Hsigs Hsys Hf nm s' e' Hs'.
  rewrite Hsys, lookup_fmap in Hs'.
  destruct (systems w !! nm) as [s|] eqn:Hs; [|discriminate]. injection Hs' as <-.
  destruct (Hf nm s Hs) as (Hsame & Hother & Hthis). rewrite Hsigs, Hsame.
  destruct (decide (e' = e)) as [->|Hne].
  - rewrite list_lookup_insert_eq by done. rewrite Hthis. split.
    + intros [? ?]. eauto.
    + intros (_ & sig & [= <-] & ? & ?). done.
  - rewrite list_lookup_insert_ne by (intros Hn; by apply N2Nat.inj in Hn).
    rewrite (Hother e' Hne). by apply (Hcons nm).
Qed.

Lemma refresh_spec (e : Entity) (sig : Signature) (s : System) :
  signature (W.refresh e sig s) = signature s
  ∧ (∀ e', e' ≠ e → e' ∈ entities (W.refresh e sig s) ↔ e' ∈ entities s)
  ∧ (e ∈ entities (W.refresh e sig s) ↔ Sig.matches sig (signature s) = true).
Proof.
  unfold W.refresh. destruct (Sig.matches sig (signature s)); cbn.
  - split; [done|]. split; [|set_solver]. intros e' Hne. set_solver.
  - split; [done|]. split; [|set_solver]. intros e' Hne. set_solver.
Qed.

Lemma erase_spec (e : Entity) (s : System) :
  signature (system_erase e s) = signature s
  ∧ (∀ e', e' ≠ e → e' ∈ entities (system_erase e s) ↔ e' ∈ entities s)
  ∧ e ∉ entities (system_erase e s).
Proof. cbn. split; [done|]. split; [|set_solver]. intros e' Hne. set_solver. Qed.

(** C1 (amended): if signature/membership consistency holds for every
    system and every entity before a call to addComponent, removeComponent
    or destroyEntity, and every registered system requires at least one
    component, then it holds for every system and every entity immediately
    after the call. *)
Theorem C1_membership_stays_consistent {T} (c : api_call T) (w w' : World T) :
  membership_consistent w →
  nonempty_system_signatures w →
  is_mutation c = true →
  api_step c w = Ok w' →
  membership_consistent w'.
Proof.
  intros Hcons Hne Hmut Hstep. pose proof (api_step_effect c w w' Hstep) as Heff.
  destruct c as [ti|cls nm sig| |e|ti e v|ti e]; try discriminate Hmut.
  - destruct Heff as (Hr & Hlt & Hsigs & _ & Hsys).
    apply (consistent_local_update w w' e Sig.empty (system_erase e)); try done.
    intros nm s Hs. destruct (erase_spec e s) as (? & ? & ?).
    split; [done|]. split; [done|]. split; [done|]. intros [Hany _]. discriminate Hany.
  - destruct Heff as (sig & bit & Hr & Hsig & Hsigs & _ & Hsys).
    apply (consistent_local_update w w' e (N.setbit sig bit) (W.refresh e (N.setbit sig bit)));
      try done.
    { by eapply lookup_lt_Some. }
    intros nm s Hs. destruct (refresh_spec e (N.setbit sig bit) s) as (? & ? & Hin).
    split; [done|]. split; [done|]. rewrite Hin, any_setbit. tauto.
  - destruct Heff as (sig & bit & Hr & Hsig & Hsigs & _ & Hsys).
    apply (consistent_local_update w w' e (N.clearbit sig bit)
             (W.refresh e (N.clearbit sig bit))); try done.
    { by eapply lookup_lt_Some. }
    intros nm s Hs. destruct (refresh_spec e (N.clearbit sig bit) s) as (? & ? & Hin).
    split; [done|]. split; [done|]. rewrite Hin. split; [|tauto].
    intros Hm. split; [|done].
    destruct (Sig.any (N.clearbit sig bit)) eqn:Hany; [done|].
    apply negb_false_iff, N.eqb_eq in Hany. rewrite Hany in Hm.
    apply matches_empty_entity in Hm. by apply Hne in Hs.
Qed.

Lemma consistent_new {T} : membership_consistent (@W.new T).
Proof. intros nm s e Hs. cbn in Hs. by rewrite lookup_empty in Hs. Qed.

Lemma systems_first_consistent :
  membership_consistent (from_ok W.new (api_run systems_first_calls W.new)).
Proof.
  apply consistent_unfold. intros nm s e Hs.
  assert (Hsys : systems (from_ok W.new (api_run systems_first_calls W.new))
                 = {["Physics" := mkSystem ∅ "Physics" 1 true "SystemPhysics" 0]}).
  { vm_compute. reflexivity. }
  assert (Hsigs : signatures (entityManager (from_ok W.new (api_run systems_first_calls W.new)))
                  = replicate (N.to_nat (MAX_ENTITIES + 1)) 0).
  { vm_compute. reflexivity. }
  rewrite Hsys in Hs. apply lookup_singleton_Some in Hs as [<- <-].
  rewrite Hsigs. cbn [entities signature].
  split; [intros Hin; by apply not_elem_of_empty in Hin|].
  intros (_ & sig & Hsig & Hany & _). apply lookup_replicate in Hsig as [-> _].
  discriminate Hany.
Qed.

Lemma C1_membership_stays_consistent_witness :
  membership_consistent
    (from_ok W.new (api_step (ApiAddComponent "Position" 1 10%nat)
                      (from_ok W.new (api_run systems_first_calls W.new)))).
Proof.
  apply (C1_membership_stays_consistent (ApiAddComponent "Position" 1 10%nat)
           (from_ok W.new (api_run systems_first_calls W.new))).
  - exact systems_first_consistent.
  - intros nm s Hs.
    assert (Hsys : systems (from_ok W.new (api_run systems_first_calls W.new))
                   = {["Physics" := mkSystem ∅ "Physics" 1 true "SystemPhysics" 0]}).
    { vm_compute. reflexivity. }
    rewrite Hsys in Hs. apply lookup_singleton_Some in Hs as [_ <-]. done.
  - reflexivity.
  - vm_compute. reflexivity.
Defined.

(** A system registered after entity 1 got its component: entity 1 is alive
    and matches, yet the next addComponent (on entity 2) leaves it outside
    the system's set. *)
Lemma late_registration_inconsistent :
  ∃ w w', api_run late_registration_calls W.new = Ok w
          ∧ api_step (ApiAddComponent "Position" 2 20%nat) w = Ok w'
          ∧ ¬ membership_consistent w'.
Proof.
  set (w := from_ok W.new (api_run late_registration_calls W.new)).
  set (w' := from_ok W.new (api_step (ApiAddComponent "Position" 2 20%nat) w)).
  exists w, w'. split; [vm_compute; reflexivity|]. split; [vm_compute; reflexivity|].
  intros Hcons.
  assert (Hs : systems w' !! "Physics"
               = Some (mkSystem {[2]} "Physics" 1 true "SystemPhysics" 0)).
  { vm_compute. reflexivity. }
  apply (Hcons _ _ 1) in Hs. cbn [entities signature] in Hs.
  assert (Hin : 1 ∈ ({[2]} : gset N)).
  { apply Hs. split; [vm_compute; reflexivity|].
    exists 1. split; vm_compute; reflexivity. }
  apply elem_of_singleton in Hin. discriminate Hin.
Qed.

(** A system that requires nothing: removing the last component of entity 1
    leaves it in the system's set although it is no longer alive. *)
Lemma empty_signature_inconsistent :
  ∃ w w', api_run empty_signature_calls W.new = Ok w
          ∧ membership_consistent w
          ∧ api_step (ApiRemoveComponent "Position" 1) w = Ok w'
          ∧ ¬ membership_consistent w'.
Proof.
  set (w := from_ok W.new (api_run empty_signature_calls W.new)).
  set (w' := from_ok W.new (api_step (ApiRemoveComponent "Position" 1) w)).
  exists w, w'. split; [vm_compute; reflexivity|]. split; [|split; [vm_compute; reflexivity|]].
  - apply consistent_unfold. intros nm s e Hs.
    assert (Hsys : systems w = {["Audit" := mkSystem {[1]} "Audit" 0 true "SystemAudit" 0]}).
    { vm_compute. reflexivity. }
    assert (Hsigs : signatures (entityManager w)
                    = <[1%nat := 1]> (replicate (N.to_nat (MAX_ENTITIES + 1)) 0)).
    { vm_compute. reflexivity. }
    rewrite Hsys in Hs. apply lookup_singleton_Some in Hs as [<- <-].
    rewrite Hsigs. cbn [entities signature]. rewrite elem_of_singleton. split.
    + intros ->. split; [reflexivity|]. exists 1. done.
    + intros (Hr & sig & Hsig & Hany & _).
      destruct (decide (N.to_nat e = 1%nat)) as [Heq|Hne]; [lia|].
      rewrite list_lookup_insert_ne in Hsig by done.
      apply lookup_replicate in Hsig as [-> _]. discriminate Hany.
  - intros Hcons.
    assert (Hs : systems w' !! "Audit"
                 = Some (mkSystem {[1]} "Audit" 0 true "SystemAudit" 0)).
    { vm_compute. reflexivity. }
    apply (Hcons _ _ 1) in Hs. cbn [entities] in Hs.
    assert (Halive : W.isAlive w' 1 = Ok true) by (apply Hs; by apply elem_of_singleton).
    vm_compute in Halive. discriminate Halive.
Qed.

(** C1 as worded fails twice over: it does not hold after every mutation of
    a program, and the three calls do not even keep it once it holds. *)
Lemma C1_late_system_or_empty_signature :
  ¬ consistent_after_every_mutation ∧ ¬ consistency_kept_by_every_mutation.
Proof.
  split.
  - intros Hclaim.
    destruct late_registration_inconsistent as (w & w' & Hrun & Hstep & Hbad).
    apply Hbad. by apply (Hclaim late_registration_calls
                            (ApiAddComponent "Position" 2 20%nat) w w').
  - intros Hclaim.
    destruct empty_signature_inconsistent as (w & w' & Hrun & Hcons & Hstep & Hbad).
    apply Hbad. by apply (Hclaim (ApiRemoveComponent "Position" 1) w w').
Qed.

Lemma consistent_other_calls {T} (c : api_call T) (w w' : World T) :
  membership_consistent w →
  match c with
  | ApiRegisterComponent _ | ApiCreateEntity => True
  | ApiRegisterSystem _ _ _ =>
      ∀ i sig, signatures (entityManager w) !! i = Some sig → sig = Sig.empty
  | _ => False
  end →
  api_step c w = Ok w' →
  membership_consistent w'.
Proof.
  rewrite !consistent_unfold. intros Hcons Hside Hstep.
  pose proof (api_step_effect c w w' Hstep) as Heff.
  destruct c as [ti|cls nm sig| |e|ti e v|ti e]; try done.
  - destruct Heff as (-> & _ & ->). done.
  - destruct Heff as (-> & _ & ->). intros nm' s e.
    rewrite lookup_insert. case_decide as Heq; [|by apply Hcons].
    intros [= <-]. cbn [entities signature]. split; [set_solver|].
    intros (_ & sig' & Hsig' & Hany & _). apply Hside in Hsig'. by subst sig'.
  - destruct Heff as (-> & _ & ->). done.
Qed.

(** ** Late registration *)

(** A call other than addComponent or removeComponent on [e] never puts [e]
    into a system's set. *)
Lemma membership_inherited {T} (c : api_call T) (w w' : World T) (e : Entity)
    (nm : string) (s' : System) :
  api_step c w = Ok w' →
  refreshes e c = false →
  systems w' !! nm = Some s' →
  e ∈ entities s' →
  ∃ s, systems w !! nm = Some s ∧ e ∈ entities s.
Proof.
  intros Hstep Hc Hs' Hin. pose proof (api_step_effect c w w' Hstep) as Heff.
  destruct c as [ti|cls nm0 sig| |e0|ti e0 v|ti e0]; cbn [refreshes] in Hc.
  - destruct Heff as (_ & _ & Hsys). rewrite Hsys in Hs'. eauto.
  - destruct Heff as (_ & _ & Hsys). rewrite Hsys, lookup_insert in Hs'.
    case_decide; [|by eauto]. injection Hs' as <-. cbn in Hin. set_solver.
  - destruct Heff as (_ & _ & Hsys). rewrite Hsys in Hs'. eauto.
  - destruct Heff as (_ & _ & _ & _ & Hsys). rewrite Hsys, lookup_fmap in Hs'.
    destruct (systems w !! nm) as [s|]; [|discriminate]. injection Hs' as <-.
    exists s. split; [done|]. cbn in Hin. set_solver.
  - apply bool_decide_eq_false in Hc.
    destruct Heff as (sig & bit & _ & _ & _ & _ & Hsys). rewrite Hsys, lookup_fmap in Hs'.
    destruct (systems w !! nm) as [s|]; [|discriminate]. injection Hs' as <-.
    exists s. split; [done|].
    by apply (proj1 (proj2 (refresh_spec e0 (N.setbit sig bit) s)) e); [congruence|].
  - apply bool_decide_eq_false in Hc.
    destruct Heff as (sig & bit & _ & _ & _ & _ & Hsys). rewrite Hsys, lookup_fmap in Hs'.
    destruct (systems w !! nm) as [s|]; [|discriminate]. injection Hs' as <-.
    exists s. split; [done|].
    by apply (proj1 (proj2 (refresh_spec e0 (N.clearbit sig bit) s)) e); [congruence|].
Qed.

Lemma membership_inherited_run {T} (calls : list (api_call T)) (w w' : World T)
    (e : Entity) (nm : string) (s' : System) :
  Forall (λ c, refreshes e c = false) calls →
  api_run calls w = Ok w' →
  systems w' !! nm = Some s' →
  e ∈ entities s' →
  ∃ s, systems w !! nm = Some s ∧ e ∈ entities s.
Proof.
  revert w. induction calls as [|c rest IH]; intros w Hall Hrun Hs' Hin; cbn [api_run] in Hrun.
  - ok_inv Hrun. subst w'. eauto.
  - ok_inv Hrun. apply Forall_cons in Hall as [Hc Hrest].
    destruct (IH a Hrest Hrun Hs' Hin) as (s1 & Hs1 & Hin1).
    by apply (membership_inherited c w a e nm s1).
Qed.

(** The refresh decides membership of [e] by the signature match alone. *)
Lemma membership_after_refresh {T} (c : api_call T) (w w' : World T) (e : Entity)
    (nm : string) (s' : System) :
  api_step c w = Ok w' →
  refreshes e c = true →
  systems w' !! nm = Some s' →
  e ∈ entities s' ↔
    ∃ sig, EM.getSignature (entityManager w') e = Ok sig
           ∧ Sig.matches sig (signature s') = true.
Proof.
  intros Hstep Hc Hs'. pose proof (api_step_effect c w w' Hstep) as Heff.
  assert (Hgoal : ∀ sig sig0,
    entity_in_range e = true →
    signatures (entityManager w) !! N.to_nat e = Some sig0 →
    signatures (entityManager w') = <[N.to_nat e := sig]> (signatures (entityManager w)) →
    systems w' = W.refresh e sig <$> systems w →
    e ∈ entities s' ↔
      ∃ sig, EM.getSignature (entityManager w') e = Ok sig
             ∧ Sig.matches sig (signature s') = true).
  { intros sig sig0 Hr Hsig0 Hsigs Hsys. rewrite Hsys, lookup_fmap in Hs'.
    destruct (systems w !! nm) as [s|]; [|discriminate]. injection Hs' as <-.
    destruct (refresh_spec e sig s) as (Hsame & _ & Hin). rewrite Hin, Hsame.
    assert (Hget : EM.getSignature (entityManager w') e = Ok sig).
    { apply getSignature_Ok. split; [done|]. rewrite Hsigs.
      apply list_lookup_insert_eq. by eapply lookup_lt_Some. }
    split.
    - intros Hm. eauto.
    - intros (sig' & Hsig' & Hm). congruence. }
  destruct c as [ti|cls nm0 sig| |e0|ti e0 v|ti e0]; cbn [refreshes] in Hc;
    try discriminate Hc; apply bool_decide_eq_true in Hc; subst e0.
  - destruct Heff as (sig & bit & Hr & Hsig & Hsigs & _ & Hsys). by eapply Hgoal.
  - destruct Heff as (sig & bit & Hr & Hsig & Hsigs & _ & Hsys). by eapply Hgoal.
Qed.

(** C8: registerSystem returns, and stores under the name, a system whose
    entity set is empty whatever entities the world holds; no later call
    other than addComponent or removeComponent on an entity puts that entity
    into the set; and such a call puts it in exactly when the entity's new
    signature covers the system's. *)
Theorem C8_no_retroactive_membership {T} (w : World T) (cls nm : string) (sig : Signature) :
  let s := (W.registerSystem w cls nm sig).1 in
  let w1 := (W.registerSystem w cls nm sig).2 in
  entities s = ∅
  ∧ signature s = sig
  ∧ W.getSystem w1 nm = Some s
  ∧ (∀ e calls w2 s2,
       Forall (λ c, refreshes e c = false) calls →
       api_run calls w1 = Ok w2 →
       W.getSystem w2 nm = Some s2 →
       e ∉ entities s2)
  ∧ (∀ e calls c w2 w3 s3,
       api_run calls w1 = Ok w2 →
       refreshes e c = true →
       api_step c w2 = Ok w3 →
       W.getSystem w3 nm = Some s3 →
       e ∈ entities s3 ↔
         ∃ sig_e, EM.getSignature (entityManager w3) e = Ok sig_e
                  ∧ Sig.matches sig_e (signature s3) = true).
Proof.
  cbn [W.registerSystem fst snd]. split; [done|]. split; [done|]. split.
  { unfold W.getSystem. cbn. apply lookup_insert_eq. }
  split.
  - intros e calls w2 s2 Hall Hrun Hs2 Hin.
    destruct (membership_inherited_run calls _ w2 e nm s2 Hall Hrun Hs2 Hin)
      as (s & Hs & Hin0).
    cbn in Hs. rewrite lookup_insert_eq in Hs. injection Hs as <-.
    cbn in Hin0. set_solver.
  - intros e calls c w2 w3 s3 _ Hc Hstep Hs3.
    by apply (membership_after_refresh c w2 w3 e nm s3).
Qed.

(** Late registration at work: entity 1 holds Position before the system
    that requires it is registered, stays outside its set while entity 2 is
    created and equipped, and is inside after its own next addComponent. *)
Example late_registration_trace :
  let w := from_ok W.new (api_run (late_registration_calls
                                     ++ [ApiAddComponent "Position" 2 20%nat]) W.new) in
  let w' := from_ok W.new (api_step (ApiAddComponent "Velocity" 1 30%nat)
                             (from_ok W.new (api_step (ApiRegisterComponent "Velocity") w))) in
  (entities <$> W.getSystem w "Physics") = Some {[2]}
  ∧ W.isAlive w 1 = Ok true
  ∧ (entities <$> W.getSystem w' "Physics") = Some {[1; 2]}.
Proof. vm_compute. repeat split; f_equal. Qed.

(** ** updateSystems *)

Lemma enabled_instances_dispatch {T} (w w' : World T) (names : list string) :
  (∀ nm, dispatch w' nm = dispatch w nm) →
  enabled_instances w' names = enabled_instances w names.
Proof.
  intros Hsame. unfold enabled_instances.
  induction names as [|nm rest IH]; [done|]. cbn [omap list_omap].
  by rewrite Hsame, IH.
Qed.

Lemma enabled_instances_app {T} (w : World T) (l1 l2 : list string) :
  enabled_instances w (l1 ++ l2) = enabled_instances w l1 ++ enabled_instances w l2.
Proof. unfold enabled_instances. apply omap_app. Qed.

Section frame_of_updates.
Context {T Time : Type}.
Variable update : string → nat → World T → Time → result (World T).
Hypothesis Hhooks : hooks_keep_dispatch update.

Lemma updateSystems_loop_trace (names : list string) (w : World T) (dt : Time)
    (invoked : list nat) :
  (∀ nm, nm ∈ names → is_Some (systems w !! nm)) →
  ∃ w', W.updateSystems_loop update names w dt invoked
        = Ok (w', invoked ++ enabled_instances w names)
        ∧ ∀ nm, dispatch w' nm = dispatch w nm.
Proof.
  revert w invoked. induction names as [|nm rest IH]; intros w invoked Hreg.
  - exists w. cbn. by rewrite app_nil_r.
  - destruct (Hreg nm) as [s Hs]; [by left|].
    cbn [W.updateSystems_loop]. rewrite Hs.
    assert (Hd : dispatch w nm = Some (class s, instance s, enabled s)).
    { unfold dispatch. by rewrite Hs. }
    destruct (enabled s) eqn:Hen.
    + destruct (Hhooks (class s) (instance s) w dt) as (w1 & Hup & _ & Hsame).
      rewrite Hup. cbn [mbind result_bind].
      destruct (IH w1 (invoked ++ [instance s])) as (w' & Hloop & Hsame').
      { intros nm' Hin. specialize (Hsame nm'). unfold dispatch in Hsame.
        destruct (Hreg nm') as [s' Hs']; [by right|]. rewrite Hs' in Hsame.
        destruct (systems w1 !! nm'); [done|discriminate]. }
      exists w'. split; [|intros nm'; by rewrite Hsame', Hsame].
      rewrite Hloop. rewrite (enabled_instances_dispatch w w1) by done.
      unfold enabled_instances at 2. cbn [omap list_omap]. rewrite Hd.
      by rewrite <- app_assoc.
    + destruct (IH w invoked) as (w' & Hloop & Hsame').
      { intros nm' Hin. apply Hreg. by right. }
      exists w'. split; [|done]. rewrite Hloop.
      unfold enabled_instances at 2. cbn [omap list_omap]. by rewrite Hd.
Qed.
End frame_of_updates.

Lemma count_of_app (inst : nat) (l1 l2 : list nat) :
  count_of inst (l1 ++ l2) = (count_of inst l1 + count_of inst l2)%nat.
Proof. unfold count_of. by rewrite filter_app, length_app. Qed.

Lemma count_of_absent (inst : nat) (l : list nat) : inst ∉ l → count_of inst l = 0%nat.
Proof.
  unfold count_of. intros Hnotin. induction l as [|x l IH]; [done|].
  apply not_elem_of_cons in Hnotin as [Hne Hnotin].
  rewrite filter_cons_False by congruence. by apply IH.
Qed.

Lemma enabled_instances_allocated {T} (w : World T) (names : list string) (inst : nat) :
  (∀ nm s, systems w !! nm = Some s → (instance s < allocated w)%nat) →
  inst ∈ enabled_instances w names → (inst < allocated w)%nat.
Proof.
  intros Hwf Hin. unfold enabled_instances in Hin.
  apply list_elem_of_omap in Hin as (nm & _ & Hnm). unfold dispatch in Hnm.
  destruct (systems w !! nm) as [s|] eqn:Hs; [|discriminate]. cbn in Hnm.
  destruct (enabled s); [|discriminate]. injection Hnm as <-. by eapply Hwf.
Qed.

Lemma enabled_instances_agree {T} (w w' : World T) (names : list string) :
  (∀ nm, nm ∈ names → dispatch w' nm = dispatch w nm) →
  enabled_instances w' names = enabled_instances w names.
Proof.
  intros Hsame. unfold enabled_instances.
  induction names as [|nm rest IH]; [done|]. cbn [omap list_omap].
  rewrite Hsame by (by left). rewrite IH; [done|].
  intros nm' Hin. apply Hsame. by right.
Qed.


Lemma idle_hooks_keep_dispatch : hooks_keep_dispatch idle_hooks.
Proof. intros cls inst w dt. exists w. done. Qed.

Lemma systems_wf_new {T} : systems_wf (@W.new T).
Proof.
  split.
  - intros nm Hin. cbn in Hin. by apply elem_of_nil in Hin.
  - intros nm s Hs. cbn in Hs. by rewrite lookup_empty in Hs.
Qed.

Lemma systems_wf_fmap {T} (w w' : World T) (f : System → System) :
  systems_wf w →
  (∀ s, instance (f s) = instance s) →
  systems w' = f <$> systems w →
  systemOrder w' = systemOrder w →
  allocated w' = allocated w →
  systems_wf w'.
Proof.
  intros [Hreg Halloc] Hf Hsys Horder Hal. split.
  - intros nm Hin. rewrite Horder in Hin. rewrite Hsys, lookup_fmap.
    destruct (Hreg nm Hin) as [s ->]. by eexists.
  - intros nm s' Hs'. rewrite Hsys, lookup_fmap in Hs'. rewrite Hal.
    destruct (systems w !! nm) as [s|] eqn:Hs; [|discriminate]. injection Hs' as <-.
    rewrite Hf. by eapply Halloc.
Qed.

(** The calls of a program keep the system table well formed. *)
Lemma systems_wf_step {T} (c : api_call T) (w w' : World T) :
  systems_wf w → api_step c w = Ok w' → systems_wf w'.
Proof.
  intros Hwf Hstep. pose proof Hwf as [Hreg Halloc].
  destruct c as [ti|cls nm sig| |e|ti e v|ti e]; cbn [api_step] in Hstep.
  - unfold W.registerComponent in Hstep. ok_inv Hstep. ok_inv Hstep. by subst w'.
  - ok_inv Hstep. subst w'. cbn [W.registerSystem snd]. split; cbn.
    + intros nm' Hin. rewrite lookup_insert. case_decide; [by eexists|].
      apply Hreg. set_solver.
    + intros nm' s. rewrite lookup_insert. case_decide.
      * intros [= <-]. cbn. lia.
      * intros Hs. apply Halloc in Hs. lia.
  - ok_inv Hstep. destruct a as [id w1]. ok_inv Hstep. subst w1.
    unfold W.createEntity in Hstep0. ok_inv Hstep0. destruct a as [id' em'].
    ok_inv Hstep0. by subst w'.
  - unfold W.destroyEntity in Hstep. ok_inv Hstep. ok_inv Hstep. ok_inv Hstep. subst w'.
    by apply (systems_wf_fmap w _ (system_erase e)).
  - apply addComponent_Ok in Hstep as (? & ? & sig & bit & ? & _ & _ & _ & _ & _ & _ & ->).
    apply (systems_wf_fmap w _ (W.refresh e (N.setbit sig bit))); try done.
    intros s. unfold W.refresh. by destruct (Sig.matches _ _).
  - apply removeComponent_Ok in Hstep as (? & ? & sig & bit & ? & _ & _ & _ & _ & _ & _ & ->).
    apply (systems_wf_fmap w _ (W.refresh e (N.clearbit sig bit))); try done.
    intros s. unfold W.refresh. by destruct (Sig.matches _ _).
Qed.

Lemma systems_wf_run {T} (calls : list (api_call T)) (w w' : World T) :
  systems_wf w → api_run calls w = Ok w' → systems_wf w'.
Proof.
  revert w. induction calls as [|c rest IH]; intros w Hwf Hrun; cbn [api_run] in Hrun.
  - by ok_inv Hrun; subst.
  - ok_inv Hrun. apply (IH a); [|done]. by apply (systems_wf_step c w).
Qed.



Lemma C8_no_retroactive_membership_witness :
  let w := from_ok W.new (api_run late_registration_calls (@W.new nat)) in
  let s := (W.registerSystem w "SystemAudit" "Audit" 1).1 in
  let w1 := (W.registerSystem w "SystemAudit" "Audit" 1).2 in
  entities s = ∅
  ∧ W.getSystem w1 "Audit" = Some s
  ∧ W.isAlive w1 1 = Ok true
  ∧ EM.getSignature (entityManager w1) 1 = Ok 1.
Proof.
  intros w s w1.
  destruct (C8_no_retroactive_membership w "SystemAudit" "Audit" 1) as (H1 & _ & H2 & _).
  split; [exact H1|]. split; [exact H2|]. split; vm_compute; reflexivity.
Defined.

(** ** The scenarios of the specification, evaluated *)

Example swap_with_last :
  ca_run [CallInsert 7 10%nat; CallInsert 3 20%nat; CallInsert 5 30%nat; CallRemove 7] CA.new
  = Ok {| components := [30%nat; 20%nat];
          entityToIndex := {[5 := 0%nat; 3 := 1%nat]};
          indexToEntity := [5; 3] |}.
Proof. vm_compute. reflexivity. Qed.

Example duplicate_insert_is_fatal :
  ca_run [CallInsert 7 10%nat; CallInsert 7 20%nat] CA.new = Fail AssertionFailure.
Proof. reflexivity. Qed.

Example movement_scenario :
  members_after (movement_setup ++ [ApiAddComponent "Position" 1 10%nat]) "Movement"
  = Some ∅
  ∧ members_after (movement_setup ++ [ApiAddComponent "Position" 1 10%nat;
                                      ApiAddComponent "Velocity" 1 20%nat]) "Movement"
    = Some {[1]}
  ∧ members_after (movement_setup ++ [ApiAddComponent "Position" 1 10%nat;
                                      ApiAddComponent "Velocity" 1 20%nat;
                                      ApiRemoveComponent "Position" 1]) "Movement"
    = Some ∅.
Proof. vm_compute. repeat split; f_equal. Qed.

Example destroy_scenario :
  let w := from_ok W.new
             (api_run (movement_setup ++ [ApiAddComponent "Position" 1 10%nat;
                                          ApiAddComponent "Velocity" 1 20%nat;
                                          ApiDestroyEntity 1]) W.new) in
  W.hasComponent w "Position" 1 = Ok false
  ∧ W.hasComponent w "Velocity" 1 = Ok false
  ∧ (entities <$> W.getSystem w "Movement") = Some ∅
  ∧ W.isAlive w 1 = Ok false.
Proof. vm_compute. repeat split; f_equal. Qed.

Example sixty_fifth_bit_throws :
  Sig.set Sig.empty 63 = Ok (2 ^ 63) ∧ Sig.set Sig.empty 64 = Fail OutOfRange.
Proof. split; reflexivity. Qed.

Example double_destroy_wraps_the_counter :
  (em ← EM.destroyEntity EM.new 1; Ok (livingCount em)) = Ok (2 ^ 32 - 1).
Proof. vm_compute. reflexivity. Qed.

(** * Further properties of the code *)

(** ** ComponentArray: insert, get, getEntity, getData, entityDestroyed *)

(** X1: on a dense store, insert for an entity that holds no component
    returns normally; afterwards get returns the inserted value for that
    entity, size() has grown by one, and has and get answer as before for
    every other entity. For an entity that holds one, insert fails its
    assertion. *)
Theorem X1_insert_then_get {T} (ca : ComponentArray T) (e : Entity) (v : T) :
  dense_inv ca →
  (CA.has ca e = true → CA.insert ca e v = Fail AssertionFailure)
  ∧ (CA.has ca e = false →
     ∃ ca', CA.insert ca e v = Ok ca'
            ∧ dense_inv ca'
            ∧ CA.get ca' e = Ok v
            ∧ CA.has ca' e = true
            ∧ CA.size ca' = S (CA.size ca)
            ∧ ∀ e', e' ≠ e →
                CA.has ca' e' = CA.has ca e' ∧ CA.get ca' e' = CA.get ca e').
Proof.
  intros Hinv. split.
  - intros Hhas. unfold CA.insert. by rewrite Hhas.
  - intros Hhas. destruct (insert_dense ca Hinv e v Hhas) as (ca' & Hins & Hinv' & Hdom).
    exists ca'. split; [done|]. split; [done|].
    unfold CA.insert in Hins. rewrite Hhas in Hins. cbn in Hins. injection Hins as <-.
    destruct Hinv as (Hlen & Hsize & Hback).
    split; [|split; [|split]].
    + unfold CA.get, vec_get. cbn. rewrite lookup_insert_eq.
      by rewrite list_lookup_middle.
    + apply has_true. cbn. rewrite lookup_insert_eq. eauto.
    + unfold CA.size. cbn. rewrite length_app. cbn. lia.
    + intros e' Hne. unfold CA.has, CA.get. cbn. rewrite lookup_insert_ne by done.
      split; [done|]. destruct (entityToIndex ca !! e') as [i|] eqn:Hi; [|done].
      unfold vec_get. rewrite lookup_app_l; [done|].
      rewrite <- Hlen. eapply lookup_lt_Some. by apply Hback.
Qed.

Lemma X1_insert_then_get_witness :
  let ca := from_ok CA.new (ca_run [CallInsert 7 10%nat; CallInsert 3 20%nat] CA.new) in
  ∃ ca', CA.insert ca 5 30%nat = Ok ca' ∧ CA.get ca' 5 = Ok 30%nat.
Proof.
  intros ca.
  destruct (X1_insert_then_get ca 5 30%nat) as [_ H].
  - apply (ca_run_dense [CallInsert 7 10%nat; CallInsert 3 20%nat] CA.new).
    + apply dense_inv_new.
    + vm_compute. reflexivity.
  - destruct H as (ca' & H1 & _ & H2 & _); [vm_compute; reflexivity|].
    exists ca'. split; [exact H1|exact H2].
Defined.

Lemma dense_owner_of_slot {T} (ca : ComponentArray T) (i : nat) (e : Entity) :
  dense_inv ca → indexToEntity ca !! i = Some e → entityToIndex ca !! e = Some i.
Proof.
  intros Hinv Hi. pose proof Hinv as (Hlen & _ & Hback).
  destruct (dense_slot_owned ca Hinv i) as [e0 He0].
  { rewrite <- Hlen. by eapply lookup_lt_Some. }
  pose proof (Hback _ _ He0) as Hi0. congruence.
Qed.

(** X2: on a dense store, walking the dense data by index visits every
    holder exactly once: getEntity names a different entity at every index
    below size(), the entities it names are exactly those for which has is
    true, the component at an index is the one get returns for the entity
    getEntity names there, and at size() or beyond getEntity leaves the
    vector. *)
Theorem X2_dense_iteration {T} (ca : ComponentArray T) :
  dense_inv ca →
  NoDup (indexToEntity ca)
  ∧ (∀ e, CA.has ca e = true ↔ ∃ i, CA.getEntity ca i = Ok e)
  ∧ (∀ i, (i < CA.size ca)%nat →
       ∃ e v, CA.getEntity ca i = Ok e
              ∧ CA.getData ca !! i = Some v
              ∧ CA.get ca e = Ok v)
  ∧ (∀ i, (CA.size ca ≤ i)%nat → CA.getEntity ca i = Fail UndefinedBehaviour).
Proof.
  intros Hinv. pose proof Hinv as (Hlen & Hsize & Hback).
  split; [|split; [|split]].
  - apply NoDup_alt. intros i j e Hi Hj.
    apply (dense_owner_of_slot ca i e Hinv) in Hi.
    apply (dense_owner_of_slot ca j e Hinv) in Hj. congruence.
  - intros e. rewrite has_true. unfold CA.getEntity, vec_get. split.
    + intros [i Hi]. exists i. by rewrite (Hback e i Hi).
    + intros [i Hi]. exists i.
      destruct (indexToEntity ca !! i) as [e'|] eqn:He'; [|discriminate].
      injection Hi as ->. by apply dense_owner_of_slot.
  - intros i Hi. unfold CA.size in Hi.
    destruct (lookup_lt_is_Some_2 (indexToEntity ca) i) as [e He]; [lia|].
    destruct (lookup_lt_is_Some_2 (components ca) i) as [v Hv]; [lia|].
    exists e, v. unfold CA.getEntity, CA.getData, CA.get, vec_get.
    rewrite He, (dense_owner_of_slot ca i e Hinv He), Hv. done.
  - intros i Hi. unfold CA.getEntity, vec_get, CA.size in *.
    rewrite lookup_ge_None_2; [done|lia].
Qed.

Lemma X2_dense_iteration_witness :
  let ca := from_ok CA.new
              (ca_run [CallInsert 7 10%nat; CallInsert 3 20%nat; CallInsert 5 30%nat;
                       CallRemove 7] CA.new) in
  NoDup (indexToEntity ca) ∧ (∀ e, CA.has ca e = true ↔ ∃ i, CA.getEntity ca i = Ok e).
Proof.
  intros ca. destruct (X2_dense_iteration ca) as (H1 & H2 & _).
  - apply (ca_run_dense [CallInsert 7 10%nat; CallInsert 3 20%nat; CallInsert 5 30%nat;
                         CallRemove 7] CA.new).
    + apply dense_inv_new.
    + vm_compute. reflexivity.
  - split; [exact H1|exact H2].
Defined.

Lemma entityDestroyed_dense {T} (ca : ComponentArray T) (e : Entity) :
  dense_inv ca →
  ∃ ca', CA.entityDestroyed ca e = Ok ca'
         ∧ dense_inv ca'
         ∧ dom (entityToIndex ca') = dom (entityToIndex ca) ∖ {[e]}
         ∧ ∀ e', e' ≠ e → CA.get ca' e' = CA.get ca e'.
Proof.
  intros Hinv. unfold CA.entityDestroyed. destruct (CA.has ca e) eqn:Hhas.
  - apply has_true in Hhas as [r Hr].
    destruct (remove_dense ca Hinv e r Hr) as (ca' & Hrm & Hinv' & Hdom & _ & Hget).
    by exists ca'.
  - exists ca. split; [done|]. split; [done|]. split; [|done].
    apply has_false, not_elem_of_dom in Hhas. set_solver.
Qed.

(** X3: entityDestroyed never fails on a dense store: it leaves a store
    without the entity untouched, and from a store with the entity it takes
    exactly that entity's component away, every other entity keeping its
    own. *)
Theorem X3_entityDestroyed {T} (ca : ComponentArray T) (e : Entity) :
  dense_inv ca →
  ∃ ca', CA.entityDestroyed ca e = Ok ca'
         ∧ dense_inv ca'
         ∧ CA.has ca' e = false
         ∧ (CA.has ca e = false → ca' = ca)
         ∧ (CA.has ca e = true → S (CA.size ca') = CA.size ca)
         ∧ ∀ e', e' ≠ e →
             CA.has ca' e' = CA.has ca e' ∧ CA.get ca' e' = CA.get ca e'.
Proof.
  intros Hinv.
  destruct (entityDestroyed_dense ca e Hinv) as (ca' & Hd & Hinv' & Hdom & Hget).
  exists ca'. split; [done|]. split; [done|]. split; [|split; [|split]].
  - apply has_false, not_elem_of_dom. rewrite Hdom. set_solver.
  - intros Hhas. unfold CA.entityDestroyed in Hd. rewrite Hhas in Hd. by injection Hd.
  - intros Hhas. unfold CA.entityDestroyed in Hd. rewrite Hhas in Hd.
    apply has_true in Hhas as [r Hr].
    destruct (remove_dense ca Hinv e r Hr) as (ca1 & Hrm & _ & _ & Hsz & _).
    congruence.
  - intros e' Hne. split; [|by apply Hget].
    unfold CA.has. apply bool_decide_ext. rewrite <- !elem_of_dom, Hdom. set_solver.
Qed.

Lemma X3_entityDestroyed_witness :
  let ca := from_ok CA.new (ca_run [CallInsert 7 10%nat; CallInsert 3 20%nat] CA.new) in
  ∃ ca', CA.entityDestroyed ca 7 = Ok ca' ∧ CA.has ca' 7 = false.
Proof.
  intros ca. destruct (X3_entityDestroyed ca 7) as (ca' & H1 & _ & H2 & _).
  - apply (ca_run_dense [CallInsert 7 10%nat; CallInsert 3 20%nat] CA.new).
    + apply dense_inv_new.
    + vm_compute. reflexivity.
  - exists ca'. split; [exact H1|exact H2].
Defined.

(** ** Worlds a program can reach: the invariant *)

Lemma has_dom {T} (ca : ComponentArray T) (e : Entity) :
  CA.has ca e = bool_decide (e ∈ dom (entityToIndex ca)).
Proof. unfold CA.has. apply bool_decide_ext. by rewrite elem_of_dom. Qed.

Lemma world_inv_new {T} : world_inv (@W.new T).
Proof.
  split; [apply length_replicate|]. split; [|split].
  - unfold registry_ok. cbn. split; [by rewrite !dom_empty_L|].
    split; [intros ti b Hb; by rewrite lookup_empty in Hb|].
    split; [intros ti1 ti2 b Hb; by rewrite lookup_empty in Hb|].
    split; [intros b Hb; lia|].
    intros ti a Ha. by rewrite lookup_empty in Ha.
  - intros i sig b Hsig _. cbn in Hsig. apply lookup_replicate in Hsig as [-> _].
    apply N.bits_0.
  - intros ti b a e Hb. cbn in Hb. by rewrite lookup_empty in Hb.
Qed.

Lemma world_inv_local_update {T} (w w' : World T) (ti : TypeIndex) (b : ComponentBit)
    (a a' : ComponentArray T) (e : Entity) (sig sig' : Signature) :
  world_inv w →
  typeToBit (componentManager w) !! ti = Some b →
  b < MAX_COMPONENTS →
  typeToArray (componentManager w) !! ti = Some a →
  entity_in_range e = true →
  signatures (entityManager w) !! N.to_nat e = Some sig →
  dense_inv a' →
  (∀ x, x ≠ e → CA.has a' x = CA.has a x) →
  CA.has a' e = N.testbit sig' b →
  (∀ b2, b2 ≠ b → N.testbit sig' b2 = N.testbit sig b2) →
  signatures (entityManager w')
  = <[N.to_nat e := sig']> (signatures (entityManager w)) →
  componentManager w'
  = {| typeToBit := typeToBit (componentManager w);
       typeToArray := <[ti := a']> (typeToArray (componentManager w));
       nextBit := nextBit (componentManager w) |} →
  world_inv w'.
Proof.
  intros (Hlen & Hreg & Hunused & Hagree) Hb Hb64 Ha Hr Hsig Hdense Hother Hthis Hbits Hsigs Hcm.
  destruct Hreg as (Hdom & Hlt & Hinj & Hall & Hd).
  assert (Hidx : (N.to_nat e < length (signatures (entityManager w)))%nat)
    by by eapply lookup_lt_Some.
  split; [|split; [|split]].
  - unfold EM.array_ok. by rewrite Hsigs, length_insert.
  - unfold registry_ok. rewrite Hcm. cbn. split; [|split; [done|split; [done|split; [done|]]]].
    + rewrite dom_insert_L, Hdom.
      assert (ti ∈ dom (typeToArray (componentManager w))) by (apply elem_of_dom; eauto).
      set_solver.
    + intros ti' a0. rewrite lookup_insert. case_decide; [by intros [= <-]|by apply Hd].
  - intros i s b2 Hs Hge. rewrite Hcm in Hge. cbn in Hge. rewrite Hsigs in Hs.
    destruct (decide (i = N.to_nat e)) as [->|Hne].
    + rewrite list_lookup_insert_eq in Hs by done. injection Hs as <-.
      rewrite Hbits; [by apply (Hunused _ _ _ Hsig)|]. apply Hlt in Hb. lia.
    + rewrite list_lookup_insert_ne in Hs by done. by apply (Hunused i).
  - intros ti' b' a0 x Hb' Ha0. rewrite Hcm in Hb', Ha0. cbn in Hb', Ha0. rewrite Hsigs.
    rewrite lookup_insert in Ha0. case_decide as Hti.
    + subst ti'. injection Ha0 as <-. assert (b' = b) as -> by congruence.
      destruct (decide (x = e)) as [->|Hne].
      * rewrite list_lookup_insert_eq by done. rewrite Hthis. split.
        -- intros Ht. split; [done|]. eauto.
        -- intros (_ & s & [= <-] & Ht). done.
      * rewrite list_lookup_insert_ne by (intros Hn; by apply N2Nat.inj in Hn).
        rewrite Hother by done. by apply Hagree with ti.
    + destruct (decide (x = e)) as [->|Hne].
      * rewrite list_lookup_insert_eq by done.
        rewrite (Hagree ti' b' a0 e Hb' Ha0).
        assert (b' ≠ b) by (intros ->; apply Hti; by apply (Hinj ti ti' b)).
        split.
        -- intros (_ & s & Hs & Ht). assert (s = sig) as -> by congruence.
           split; [done|]. exists sig'. split; [done|]. by rewrite Hbits.
        -- intros (_ & s & [= <-] & Ht). split; [done|]. exists sig. split; [done|].
           by rewrite <- Hbits.
      * rewrite list_lookup_insert_ne by (intros Hn; by apply N2Nat.inj in Hn).
        by apply Hagree with ti'.
Qed.

Lemma destroyEntity_inv {T} (w w' : World T) (e : Entity) :
  W.destroyEntity w e = Ok w' →
  componentManager w'
  = {| typeToBit := typeToBit (componentManager w);
       typeToArray := (λ a, from_ok a (CA.entityDestroyed a e))
                        <$> typeToArray (componentManager w);
       nextBit := nextBit (componentManager w) |}.
Proof.
  unfold W.destroyEntity. intros H. ok_inv H. ok_inv H. ok_inv H. subst w'.
  unfold CM.entityDestroyed in Hstep. destruct (decide _); [|discriminate].
  by injection Hstep as <-.
Qed.

Lemma world_inv_destroy {T} (w w' : World T) (e : Entity) :
  world_inv w → W.destroyEntity w e = Ok w' → world_inv w'.
Proof.
  intros (Hlen & Hreg & Hunused & Hagree) Hd.
  pose proof (destroyEntity_inv w w' e Hd) as Hcm.
  apply destroyEntity_Ok in Hd as (Hr & Hidx & Hsigs & _ & _ & _).
  destruct Hreg as (Hdom & Hlt & Hinj & Hall & Hdense).
  split; [|split; [|split]].
  - unfold EM.array_ok. by rewrite Hsigs, length_insert.
  - unfold registry_ok. rewrite Hcm. cbn.
    split; [by rewrite dom_fmap_L|]. split; [done|]. split; [done|]. split; [done|].
    intros ti a'. rewrite lookup_fmap.
    destruct (typeToArray (componentManager w) !! ti) as [a|] eqn:Ha; [|discriminate].
    intros [= <-].
    destruct (entityDestroyed_dense a e (Hdense ti a Ha)) as (a1 & -> & ? & _). done.
  - intros i s b Hs Hge. rewrite Hcm in Hge. cbn in Hge. rewrite Hsigs in Hs.
    destruct (decide (i = N.to_nat e)) as [->|Hne].
    + rewrite list_lookup_insert_eq in Hs by done. injection Hs as <-. apply N.bits_0.
    + rewrite list_lookup_insert_ne in Hs by done. by apply (Hunused i).
  - intros ti b a' x Hb Ha'. rewrite Hcm in Hb, Ha'. cbn in Hb, Ha'. rewrite Hsigs.
    rewrite lookup_fmap in Ha'.
    destruct (typeToArray (componentManager w) !! ti) as [a|] eqn:Ha; [|discriminate].
    injection Ha' as <-.
    destruct (entityDestroyed_dense a e (Hdense ti a Ha)) as (a1 & -> & _ & Hdom1 & _).
    cbn [from_ok]. rewrite has_dom, Hdom1, bool_decide_eq_true.
    destruct (decide (x = e)) as [->|Hne].
    + rewrite list_lookup_insert_eq by done. split; [set_solver|].
      intros (_ & s & [= <-] & Ht). by rewrite N.bits_0 in Ht.
    + rewrite list_lookup_insert_ne by (intros Hn; by apply N2Nat.inj in Hn).
      rewrite <- (Hagree ti b a x Hb Ha), has_dom, bool_decide_eq_true. set_solver.
Qed.

Lemma world_inv_register {T} (w w' : World T) (ti : TypeIndex) :
  world_inv w →
  nextBit (componentManager w) + 1 < 2 ^ 64 →
  W.registerComponent w ti = Ok w' →
  world_inv w' ∧ nextBit (componentManager w') = nextBit (componentManager w) + 1.
Proof.
  intros (Hlen & Hreg & Hunused & Hagree) Hwrap H.
  unfold W.registerComponent in H. ok_inv H. ok_inv H. subst w'.
  unfold CM.registerComponent in Hstep. ok_inv Hstep. ok_inv Hstep. subst a.
  apply bool_decide_eq_true in Hstep0.
  destruct Hreg as (Hdom & Hlt & Hinj & Hall & Hdense).
  assert (Hnext : size_t_wrap (nextBit (componentManager w) + 1)
                  = nextBit (componentManager w) + 1).
  { unfold size_t_wrap. by apply N.mod_small. }
  split; [|cbn; exact Hnext].
  split; [done|]. split; [|split].
  - unfold registry_ok. cbn. rewrite Hnext. split; [|split; [|split; [|split]]].
    + by rewrite !dom_insert_L, Hdom.
    + intros ti' b. rewrite lookup_insert. case_decide.
      * intros [= <-]. lia.
      * intros Hb. apply Hlt in Hb. lia.
    + intros ti1 ti2 b. rewrite !lookup_insert. repeat case_decide; subst.
      * done.
      * intros [= <-] Hb. apply Hlt in Hb. lia.
      * intros Hb [= <-]. apply Hlt in Hb. lia.
      * apply Hinj.
    + intros b Hb. destruct (decide (b = nextBit (componentManager w))) as [->|Hne].
      * exists ti. by rewrite lookup_insert_eq.
      * destruct (Hall b) as [ti' Hti']; [lia|]. exists ti'.
        rewrite lookup_insert_ne; [done|]. intros ->. congruence.
    + intros ti' a. rewrite lookup_insert. case_decide.
      * intros [= <-]. apply dense_inv_new.
      * apply Hdense.
  - intros i s b Hs Hge. cbn in Hge, Hs. rewrite Hnext in Hge.
    apply (Hunused i s b Hs). lia.
  - intros ti' b a x. cbn. rewrite !lookup_insert. case_decide as Hti.
    + intros [= <-] [= <-]. split; [discriminate|].
      intros (_ & s & Hs & Ht). rewrite (Hunused _ _ _ Hs) in Ht; [done|lia].
    + apply Hagree.
Qed.

Lemma world_inv_step {T} (c : api_call T) (w w' : World T) :
  world_inv w →
  nextBit (componentManager w) + 1 < 2 ^ 64 →
  api_step c w = Ok w' →
  world_inv w' ∧ nextBit (componentManager w') ≤ nextBit (componentManager w) + 1.
Proof.
  intros Hinv Hwrap Hstep.
  destruct c as [ti|cls nm sig| |e|ti e v|ti e]; cbn [api_step] in Hstep.
  - destruct (world_inv_register w w' ti Hinv Hwrap Hstep) as [? ->]. split; [done|lia].
  - ok_inv Hstep. subst w'. split; [exact Hinv|cbn; lia].
  - ok_inv Hstep. destruct a as [id w1]. ok_inv Hstep. subst w1.
    unfold W.createEntity in Hstep0. ok_inv Hstep0. destruct a as [id' em'].
    ok_inv Hstep0. subst w'.
    unfold EM.createEntity in Hstep. ok_inv Hstep.
    destruct (availableIds (entityManager w)); [discriminate|]. ok_inv Hstep. subst em'.
    split; [exact Hinv|cbn; lia].
  - split; [by apply (world_inv_destroy w w' e)|].
    rewrite (destroyEntity_inv w w' e Hstep). cbn. lia.
  - apply addComponent_Ok in Hstep
      as (a & a' & sig & b & em1 & Ha & Hins & Hsig & Hb & Hlt & Hset & ->).
    apply getSignature_Ok in Hsig as [Hr Hsig].
    apply setSignature_Ok in Hset as (_ & _ & ->).
    split; [|cbn; lia].
    pose proof Hinv as (_ & (_ & _ & _ & _ & Hdense) & _ & _).
    assert (Hhas : CA.has a e = false).
    { unfold CA.insert in Hins. ok_inv Hins. by apply negb_true_iff. }
    destruct (insert_dense a (Hdense ti a Ha) e v Hhas) as (a1 & Hins1 & Hd1 & Hdom1).
    assert (a1 = a') as -> by congruence.
    apply (world_inv_local_update w _ ti b a a' e sig (N.setbit sig b)); try done.
    + intros x Hne. rewrite !has_dom, Hdom1. apply bool_decide_ext. set_solver.
    + rewrite has_dom, Hdom1, N.setbit_eq. apply bool_decide_eq_true. set_solver.
    + intros b2 Hne. by apply N.setbit_neq.
  - apply removeComponent_Ok in Hstep
      as (a & a' & sig & b & em1 & Ha & Hrm & Hsig & Hb & Hlt & Hset & ->).
    apply getSignature_Ok in Hsig as [Hr Hsig].
    apply setSignature_Ok in Hset as (_ & _ & ->).
    split; [|cbn; lia].
    pose proof Hinv as (_ & (_ & _ & _ & _ & Hdense) & _ & _).
    destruct (entityToIndex a !! e) as [r|] eqn:Hidx;
      [|unfold CA.remove in Hrm; rewrite Hidx in Hrm; discriminate].
    destruct (remove_dense a (Hdense ti a Ha) e r Hidx) as (a1 & Hrm1 & Hd1 & Hdom1 & _).
    assert (a1 = a') as -> by congruence.
    apply (world_inv_local_update w _ ti b a a' e sig (N.clearbit sig b)); try done.
    + intros x Hne. rewrite !has_dom, Hdom1. apply bool_decide_ext. set_solver.
    + rewrite has_dom, Hdom1, N.clearbit_eq. apply bool_decide_eq_false. set_solver.
    + intros b2 Hne. by apply N.clearbit_neq.
Qed.

Lemma world_inv_run {T} (calls : list (api_call T)) (w w' : World T) :
  world_inv w →
  nextBit (componentManager w) + N.of_nat (length calls) < 2 ^ 64 →
  api_run calls w = Ok w' →
  world_inv w'.
Proof.
  revert w. induction calls as [|c rest IH]; intros w Hinv Hwrap Hrun; cbn [api_run] in Hrun.
  - by ok_inv Hrun; subst.
  - ok_inv Hrun. cbn [length] in Hwrap.
    destruct (world_inv_step c w a Hinv) as [Hinv1 Hnext]; [lia|done|].
    apply (IH a); [done|lia|done].
Qed.

Lemma reachable_inv {T} (w : World T) : reachable w → world_inv w.
Proof.
  intros (calls & Hlen & Hrun).
  apply (world_inv_run calls W.new w); [apply world_inv_new|by cbn|done].
Qed.

Lemma reachable_step {T} (c : api_call T) (w w' : World T) :
  world_inv w → nextBit (componentManager w) + 1 < 2 ^ 64 →
  api_step c w = Ok w' → world_inv w'.
Proof. intros Hinv Hwrap Hstep. by destruct (world_inv_step c w w' Hinv Hwrap Hstep). Qed.

(** ** World: what the stores and the signatures say about each other *)

Lemma getComponentBit_Ok {T} (w : World T) (ti : TypeIndex) (b : ComponentBit) :
  W.getComponentBit w ti = Ok b ↔ typeToBit (componentManager w) !! ti = Some b.
Proof.
  unfold W.getComponentBit, CM.getBit.
  destruct (typeToBit (componentManager w) !! ti); split; congruence.
Qed.

Lemma registered_array {T} (w : World T) (ti : TypeIndex) (b : ComponentBit) :
  world_inv w →
  typeToBit (componentManager w) !! ti = Some b →
  ∃ a, typeToArray (componentManager w) !! ti = Some a ∧ dense_inv a.
Proof.
  intros (_ & (Hdom & _ & _ & _ & Hdense) & _) Hb.
  assert (Hin : ti ∈ dom (typeToArray (componentManager w))).
  { rewrite <- Hdom. apply elem_of_dom. eauto. }
  apply elem_of_dom in Hin as [a Ha]. exists a. split; [done|]. by eapply Hdense.
Qed.

Lemma registered_bit {T} (w : World T) (ti : TypeIndex) (a : ComponentArray T) :
  world_inv w →
  typeToArray (componentManager w) !! ti = Some a →
  ∃ b, typeToBit (componentManager w) !! ti = Some b.
Proof.
  intros (_ & (Hdom & _) & _) Ha.
  assert (Hin : ti ∈ dom (typeToBit (componentManager w))).
  { rewrite Hdom. apply elem_of_dom. eauto. }
  by apply elem_of_dom in Hin.
Qed.

Lemma inv_getSignature {T} (w : World T) (e : Entity) :
  world_inv w → entity_in_range e = true →
  ∃ sig, EM.getSignature (entityManager w) e = Ok sig
         ∧ signatures (entityManager w) !! N.to_nat e = Some sig.
Proof.
  intros (Hlen & _) Hr. pose proof Hr as [? ?]%in_range_spec.
  destruct (lookup_lt_is_Some_2 (signatures (entityManager w)) (N.to_nat e)) as [sig Hsig].
  { rewrite Hlen. lia. }
  exists sig. split; [by apply getSignature_Ok|done].
Qed.

Lemma inv_has_iff_bit {T} (w : World T) (ti : TypeIndex) (b : ComponentBit) (e : Entity) :
  world_inv w →
  typeToBit (componentManager w) !! ti = Some b →
  W.hasComponent w ti e = Ok true ↔
    ∃ sig, EM.getSignature (entityManager w) e = Ok sig ∧ Sig.test sig b = true.
Proof.
  intros Hinv Hb. destruct (registered_array w ti b Hinv Hb) as (a & Ha & _).
  destruct Hinv as (_ & _ & _ & Hagree).
  rewrite hasComponent_Ok. split.
  - intros (a' & Ha' & Hhas). assert (a' = a) as -> by congruence.
    apply (Hagree ti b a e Hb Ha) in Hhas as (Hr & sig & Hsig & Ht).
    exists sig. split; [by apply getSignature_Ok|done].
  - intros (sig & [Hr Hsig]%getSignature_Ok & Ht). exists a. split; [done|].
    apply (Hagree ti b a e Hb Ha). eauto.
Qed.

(** X4: in a world a program can reach, the signature mirrors the stores:
    for a registered type, hasComponent returns normally, and it returns
    true exactly for the valid ids whose stored signature has the type's
    bit set. *)
Theorem X4_signature_mirrors_storage {T} (w : World T) (ti : TypeIndex)
    (b : ComponentBit) (e : Entity) :
  reachable w →
  W.getComponentBit w ti = Ok b →
  ∃ h, W.hasComponent w ti e = Ok h
       ∧ (h = true ↔
          ∃ sig, EM.getSignature (entityManager w) e = Ok sig ∧ Sig.test sig b = true).
Proof.
  intros Hreach Hb%getComponentBit_Ok. pose proof (reachable_inv w Hreach) as Hinv.
  destruct (registered_array w ti b Hinv Hb) as (a & Ha & _).
  exists (CA.has a e). split; [apply hasComponent_Ok; eauto|].
  rewrite <- (inv_has_iff_bit w ti b e Hinv Hb), hasComponent_Ok. split.
  - intros Hh. eauto.
  - intros (a' & Ha' & Hh). congruence.
Qed.

Lemma alive_iff_holder {T} (w : World T) (e : Entity) :
  world_inv w →
  W.isAlive w e = Ok true ↔ ∃ ti, W.hasComponent w ti e = Ok true.
Proof.
  intros Hinv. pose proof Hinv as (_ & (_ & _ & _ & Hall & _) & Hunused & _).
  rewrite isAlive_true. split.
  - intros (sig & Hget & [pos Hpos]%any_spec).
    pose proof Hget as [Hr Hsig]%getSignature_Ok.
    destruct (N.lt_ge_cases pos (nextBit (componentManager w))) as [Hlt|Hge].
    + destruct (Hall pos Hlt) as [ti Hti]. exists ti.
      apply (inv_has_iff_bit w ti pos e Hinv Hti). eauto.
    + unfold Sig.test in Hpos. rewrite (Hunused _ _ pos Hsig) in Hpos; [done|by left].
  - intros [ti Hhas]. pose proof Hhas as (a & Ha & _)%hasComponent_Ok.
    destruct (registered_bit w ti a Hinv Ha) as [b Hb].
    apply (inv_has_iff_bit w ti b e Hinv Hb) in Hhas as (sig & Hget & Ht).
    exists sig. split; [done|]. apply any_spec. eauto.
Qed.

(** X5: in a world a program can reach, isAlive(e) is true exactly when e
    holds a component of at least one registered type. *)
Theorem X5_alive_iff_holds_a_component {T} (w : World T) (e : Entity) :
  reachable w →
  W.isAlive w e = Ok true ↔ ∃ ti, W.hasComponent w ti e = Ok true.
Proof. intros Hreach. apply alive_iff_holder. by apply reachable_inv. Qed.

Lemma two_entities_reachable : reachable two_entities.
Proof. exists two_entities_calls. split; vm_compute; reflexivity. Qed.

Lemma X4_signature_mirrors_storage_witness :
  ∃ h, W.hasComponent two_entities "Velocity" 2 = Ok h
       ∧ (h = true ↔
          ∃ sig, EM.getSignature (entityManager two_entities) 2 = Ok sig
                 ∧ Sig.test sig 1 = true).
Proof.
  apply (X4_signature_mirrors_storage two_entities "Velocity" 1 2).
  - exact two_entities_reachable.
  - vm_compute. reflexivity.
Defined.

Lemma X5_alive_iff_holds_a_component_witness :
  W.isAlive two_entities 2 = Ok true ↔ ∃ ti, W.hasComponent two_entities ti 2 = Ok true.
Proof. apply (X5_alive_iff_holds_a_component two_entities 2). exact two_entities_reachable. Defined.

(** ** World: destroyEntity, addComponent, removeComponent, getComponent *)

Lemma cm_entityDestroyed_Ok {T} (w : World T) (e : Entity) :
  world_inv w →
  CM.entityDestroyed (componentManager w) e
  = Ok {| typeToBit := typeToBit (componentManager w);
          typeToArray := (λ a, from_ok a (CA.entityDestroyed a e))
                           <$> typeToArray (componentManager w);
          nextBit := nextBit (componentManager w) |}.
Proof.
  intros (_ & (_ & _ & _ & _ & Hdense) & _). unfold CM.entityDestroyed.
  rewrite decide_True; [done|]. intros ti a Ha.
  destruct (entityDestroyed_dense a e (Hdense ti a Ha)) as (a' & -> & _). done.
Qed.

Lemma getComponent_array {T} (w : World T) (ti : TypeIndex) (a : ComponentArray T)
    (e : Entity) :
  typeToArray (componentManager w) !! ti = Some a →
  W.getComponent w ti e = CA.get a e ∧ W.hasComponent w ti e = Ok (CA.has a e).
Proof.
  intros Ha. unfold W.getComponent, W.hasComponent, CM.getComponent, CM.hasComponent,
    CM.getComponentArray. by rewrite Ha.
Qed.

Lemma getComponent_unregistered {T} (w : World T) (ti : TypeIndex) (e : Entity) :
  typeToArray (componentManager w) !! ti = None →
  W.getComponent w ti e = Fail AssertionFailure
  ∧ W.hasComponent w ti e = Fail AssertionFailure.
Proof.
  intros Ha. unfold W.getComponent, W.hasComponent, CM.getComponent, CM.hasComponent,
    CM.getComponentArray. by rewrite Ha.
Qed.

(** X6: in a world a program can reach, destroyEntity on a valid id returns
    normally; afterwards the entity is not alive, holds no component of any
    registered type and is in no system's set, while every other entity
    answers hasComponent and getComponent as before. On the null id or an
    id above MAX_ENTITIES it fails the range assertion. *)
Theorem X6_destroyEntity_clears_the_entity {T} (w : World T) (e : Entity) :
  reachable w →
  (entity_in_range e = false → W.destroyEntity w e = Fail AssertionFailure)
  ∧ (entity_in_range e = true →
     ∃ w', W.destroyEntity w e = Ok w'
           ∧ W.isAlive w' e = Ok false
           ∧ (∀ ti h, W.hasComponent w ti e = Ok h → W.hasComponent w' ti e = Ok false)
           ∧ (∀ nm s, W.getSystem w' nm = Some s → e ∉ entities s)
           ∧ ∀ ti e', e' ≠ e →
               W.hasComponent w' ti e' = W.hasComponent w ti e'
               ∧ W.getComponent w' ti e' = W.getComponent w ti e').
Proof.
  intros Hreach. pose proof (reachable_inv w Hreach) as Hinv.
  pose proof Hinv as (Hlen & (_ & _ & _ & _ & Hdense) & _).
  split.
  - intros Hr. unfold W.destroyEntity. rewrite (cm_entityDestroyed_Ok w e Hinv).
    cbn [mbind result_bind]. unfold EM.destroyEntity. by rewrite Hr.
  - intros Hr. pose proof Hr as [? ?]%in_range_spec.
    assert (Hidx : (N.to_nat e < length (signatures (entityManager w)))%nat).
    { rewrite Hlen. lia. }
    eexists. split.
    { unfold W.destroyEntity. rewrite (cm_entityDestroyed_Ok w e Hinv).
      cbn [mbind result_bind]. unfold EM.destroyEntity. rewrite Hr.
      cbn [cassert mbind result_bind]. rewrite decide_True by done. reflexivity. }
    split; [|split; [|split]].
    + unfold W.isAlive. rewrite isAlive_guard, Hr. cbn [negb].
      unfold EM.getSignature. cbn. rewrite Hr. cbn.
      by rewrite list_lookup_insert_eq.
    + intros ti h [a [Ha _]]%hasComponent_Ok.
      apply hasComponent_Ok. cbn. rewrite lookup_fmap, Ha. cbn.
      eexists. split; [done|].
      destruct (entityDestroyed_dense a e (Hdense ti a Ha)) as (a' & -> & _ & Hdom & _).
      cbn. apply has_false, not_elem_of_dom. rewrite Hdom. set_solver.
    + intros nm s Hs. unfold W.getSystem in Hs. cbn in Hs. rewrite lookup_fmap in Hs.
      destruct (systems w !! nm) as [s0|]; [|discriminate]. injection Hs as <-.
      apply erase_spec.
    + intros ti e' Hne.
      destruct (typeToArray (componentManager w) !! ti) as [a|] eqn:Ha.
      * destruct (getComponent_array w ti a e' Ha) as [-> ->].
        destruct (entityDestroyed_dense a e (Hdense ti a Ha)) as (a' & Ha' & _ & Hdom & Hget).
        match goal with |- W.hasComponent ?w1 _ _ = _ ∧ _ =>
          destruct (getComponent_array w1 ti a' e') as [-> ->]
        end.
        { cbn [componentManager typeToArray]. rewrite lookup_fmap, Ha.
          cbn [fmap option_fmap option_map]. by rewrite Ha'. }
        split; [|by apply Hget]. f_equal. rewrite !has_dom, Hdom.
        apply bool_decide_ext. set_solver.
      * destruct (getComponent_unregistered w ti e' Ha) as [-> ->].
        match goal with |- W.hasComponent ?w1 _ _ = _ ∧ _ =>
          destruct (getComponent_unregistered w1 ti e') as [-> ->]
        end; [|done].
        cbn. by rewrite lookup_fmap, Ha.
Qed.

Lemma X6_destroyEntity_clears_the_entity_witness :
  ∃ w', W.destroyEntity two_entities 1 = Ok w'
        ∧ W.isAlive w' 1 = Ok false
        ∧ W.getComponent w' "Position" 2 = W.getComponent two_entities "Position" 2.
Proof.
  destruct (X6_destroyEntity_clears_the_entity two_entities 1 two_entities_reachable)
    as [_ H].
  destruct H as (w' & H1 & H2 & _ & _ & H3); [reflexivity|].
  exists w'. split; [exact H1|]. split; [exact H2|].
  apply (H3 "Position" 2). discriminate.
Defined.

Lemma addComponent_run {T} (w : World T) (ti : TypeIndex) (e : Entity) (v : T)
    (a : ComponentArray T) :
  typeToArray (componentManager w) !! ti = Some a →
  CA.has a e = false →
  W.addComponent w ti e v
  = (sig ← EM.getSignature (entityManager w) e;
     bit ← CM.getBit (componentManager w) ti;
     sig' ← Sig.set sig bit;
     em ← EM.setSignature (entityManager w) e sig';
     Ok (W.updateSystemEntitySets
           {| entityManager := em;
              componentManager :=
                {| typeToBit := typeToBit (componentManager w);
                   typeToArray :=
                     <[ti := {| components := components a ++ [v];
                                entityToIndex := <[e := length (components a)]>
                                                   (entityToIndex a);
                                indexToEntity := indexToEntity a ++ [e] |}]>
                       (typeToArray (componentManager w));
                   nextBit := nextBit (componentManager w) |};
              systems := systems w; systemOrder := systemOrder w;
              allocated := allocated w |} e sig')).
Proof.
  intros Ha Hhas. unfold W.addComponent, CM.addComponent, CM.getComponentArray.
  rewrite Ha. cbn [mbind result_bind]. unfold CA.insert. rewrite Hhas.
  cbn [negb cassert mbind result_bind]. reflexivity.
Qed.

Lemma frame_other_type {T} (w w' : World T) (ti ti' : TypeIndex) (a' : ComponentArray T)
    (e' : Entity) :
  typeToArray (componentManager w')
  = <[ti := a']> (typeToArray (componentManager w)) →
  ti' ≠ ti →
  W.hasComponent w' ti' e' = W.hasComponent w ti' e'
  ∧ W.getComponent w' ti' e' = W.getComponent w ti' e'.
Proof.
  intros Hcm Hne.
  unfold W.hasComponent, W.getComponent, CM.hasComponent, CM.getComponent,
    CM.getComponentArray.
  by rewrite Hcm, lookup_insert_ne.
Qed.

(** X7: in a world a program can reach, addComponent<T>(e, v) returns
    normally exactly when T is registered with a bit inside the signature,
    e is a valid id and e holds no T component; after a normal return
    getComponent<T>(e) is v, hasComponent<T>(e) is true, e is alive, and
    hasComponent and getComponent answer as before for every other entity
    and every other type. *)
Theorem X7_addComponent_then_getComponent {T} (w : World T) (ti : TypeIndex)
    (e : Entity) (v : T) :
  reachable w →
  (is_ok (W.addComponent w ti e v) = true ↔
   ∃ b, W.getComponentBit w ti = Ok b
        ∧ b < MAX_COMPONENTS
        ∧ entity_in_range e = true
        ∧ W.hasComponent w ti e = Ok false)
  ∧ ∀ w', W.addComponent w ti e v = Ok w' →
      W.getComponent w' ti e = Ok v
      ∧ W.hasComponent w' ti e = Ok true
      ∧ W.isAlive w' e = Ok true
      ∧ ∀ ti' e', ti' ≠ ti ∨ e' ≠ e →
          W.hasComponent w' ti' e' = W.hasComponent w ti' e'
          ∧ W.getComponent w' ti' e' = W.getComponent w ti' e'.
Proof.
  intros Hreach. pose proof (reachable_inv w Hreach) as Hinv. split.
  - split.
    + destruct (W.addComponent w ti e v) as [w'|] eqn:Hadd; [|discriminate]. intros _.
      apply addComponent_Ok in Hadd
        as (a & a' & sig & b & em1 & Ha & Hins & [Hr _]%getSignature_Ok & Hb & Hlt & _).
      exists b. split; [by apply getComponentBit_Ok|]. split; [done|]. split; [done|].
      apply hasComponent_Ok. exists a. split; [done|].
      unfold CA.insert in Hins. ok_inv Hins. by apply negb_true_iff.
    + intros (b & Hb%getComponentBit_Ok & Hlt & Hr & (a & Ha & Hhas)%hasComponent_Ok).
      destruct (inv_getSignature w e Hinv Hr) as (sig & Hget & Hsig).
      rewrite (addComponent_run w ti e v a Ha Hhas), Hget. cbn [mbind result_bind].
      unfold CM.getBit. rewrite Hb. cbn [mbind result_bind].
      unfold Sig.set. replace (b <? MAX_COMPONENTS) with true
        by (symmetry; by apply N.ltb_lt).
      cbn [mbind result_bind]. unfold EM.setSignature. rewrite Hr.
      cbn [cassert mbind result_bind].
      rewrite decide_True by (by eapply lookup_lt_Some). reflexivity.
  - intros w' Hadd.
    apply addComponent_Ok in Hadd
      as (a & a' & sig & b & em1 & Ha & Hins & Hget & Hb & Hlt & Hset & ->).
    pose proof Hinv as (_ & (_ & _ & _ & _ & Hdense) & _).
    destruct (Hdense ti a Ha) as (Hlen & _ & Hback).
    unfold CA.insert in Hins. ok_inv Hins. ok_inv Hins. subst a'.
    apply negb_true_iff in Hstep.
    match goal with |- W.getComponent ?w1 _ _ = _ ∧ _ => set (w1' := w1) end.
    assert (Harr : typeToArray (componentManager w1')
                   = <[ti := {| components := components a ++ [v];
                                entityToIndex := <[e := length (components a)]>
                                                   (entityToIndex a);
                                indexToEntity := indexToEntity a ++ [e] |}]>
                       (typeToArray (componentManager w))) by done.
    assert (Hnew : typeToArray (componentManager w1') !! ti
                   = Some {| components := components a ++ [v];
                             entityToIndex := <[e := length (components a)]>
                                                (entityToIndex a);
                             indexToEntity := indexToEntity a ++ [e] |}).
    { rewrite Harr. apply lookup_insert_eq. }
    split; [|split; [|split]].
    + rewrite (proj1 (getComponent_array w1' ti _ e Hnew)).
      unfold CA.get, vec_get. cbn. rewrite lookup_insert_eq. by rewrite list_lookup_middle.
    + rewrite (proj2 (getComponent_array w1' ti _ e Hnew)). f_equal.
      apply has_true. cbn. rewrite lookup_insert_eq. eauto.
    + apply isAlive_true. exists (N.setbit sig b). split; [|apply any_setbit].
      subst w1'. cbn [W.updateSystemEntitySets entityManager].
      rewrite (getSignature_after_set _ _ e e _ Hset). by rewrite decide_True.
    + intros ti' e' Hcase. destruct (decide (ti' = ti)) as [->|Hne].
      * destruct Hcase as [?|Hne]; [done|].
        destruct (getComponent_array w1' ti _ e' Hnew) as [-> ->].
        destruct (getComponent_array w ti a e' Ha) as [-> ->].
        unfold CA.has, CA.get. cbn. rewrite lookup_insert_ne by done. split; [done|].
        destruct (entityToIndex a !! e') as [i|] eqn:Hi; [|done].
        unfold vec_get. rewrite lookup_app_l; [done|].
        rewrite <- Hlen. eapply lookup_lt_Some. by apply Hback.
      * by apply (frame_other_type w w1' ti ti' _ e' Harr).
Qed.

Lemma X7_addComponent_then_getComponent_witness :
  let w' := from_ok W.new (W.addComponent two_entities "Velocity" 2 40%nat) in
  W.getComponent w' "Velocity" 2 = Ok 40%nat
  ∧ W.hasComponent w' "Velocity" 2 = Ok true
  ∧ W.isAlive w' 2 = Ok true.
Proof.
  intros w'.
  destruct (proj2 (X7_addComponent_then_getComponent two_entities "Velocity" 2 40%nat
                     two_entities_reachable) w') as (H1 & H2 & H3 & _).
  - vm_compute. reflexivity.
  - split; [exact H1|]. split; [exact H2|exact H3].
Defined.

(** X8: how addComponent<T>(e, v) fails in a world a program can reach: on
    its assertions when T is not registered, when e already holds a T
    component, or when e is the null id or above MAX_ENTITIES; with
    std::out_of_range when T is the 65th or a later registered type. *)
Theorem X8_addComponent_contract {T} (w : World T) (ti : TypeIndex) (e : Entity) (v : T) :
  reachable w →
  (W.hasComponent w ti e ≠ Ok false → W.addComponent w ti e v = Fail AssertionFailure)
  ∧ (W.hasComponent w ti e = Ok false → entity_in_range e = false →
     W.addComponent w ti e v = Fail AssertionFailure)
  ∧ (∀ b, W.hasComponent w ti e = Ok false → entity_in_range e = true →
          W.getComponentBit w ti = Ok b → MAX_COMPONENTS ≤ b →
          W.addComponent w ti e v = Fail OutOfRange).
Proof.
  intros Hreach. pose proof (reachable_inv w Hreach) as Hinv.
  split; [|split].
  - intros Hhas. unfold W.addComponent, CM.addComponent, CM.getComponentArray.
    unfold W.hasComponent, CM.hasComponent, CM.getComponentArray in Hhas.
    destruct (typeToArray (componentManager w) !! ti) as [a|]; [|done].
    cbn [mbind result_bind] in *. unfold CA.insert.
    destruct (CA.has a e); [done|]. by destruct Hhas.
  - intros (a & Ha & Hhas)%hasComponent_Ok Hr.
    rewrite (addComponent_run w ti e v a Ha Hhas). unfold EM.getSignature. by rewrite Hr.
  - intros b (a & Ha & Hhas)%hasComponent_Ok Hr Hb%getComponentBit_Ok Hge.
    destruct (inv_getSignature w e Hinv Hr) as (sig & Hget & _).
    rewrite (addComponent_run w ti e v a Ha Hhas), Hget. cbn [mbind result_bind].
    unfold CM.getBit. rewrite Hb. cbn [mbind result_bind]. unfold Sig.set.
    replace (b <? MAX_COMPONENTS) with false by (symmetry; by apply N.ltb_ge).
    reflexivity.
Qed.

Lemma X8_addComponent_contract_witness :
  W.addComponent two_entities "Position" 1 50%nat = Fail AssertionFailure
  ∧ W.addComponent two_entities "Velocity" 0 50%nat = Fail AssertionFailure.
Proof.
  destruct (X8_addComponent_contract two_entities "Position" 1 50%nat
              two_entities_reachable) as (H1 & _).
  destruct (X8_addComponent_contract two_entities "Velocity" 0 50%nat
              two_entities_reachable) as (_ & H2 & _).
  split.
  - apply H1. vm_compute. discriminate.
  - apply H2; vm_compute; reflexivity.
Defined.

Lemma bits_inside_bitset {T} (w : World T) (e : Entity) (sig : Signature) (b : ComponentBit) :
  world_inv w →
  signatures (entityManager w) !! N.to_nat e = Some sig →
  N.testbit sig b = true →
  b < MAX_COMPONENTS.
Proof.
  intros (_ & _ & Hunused & _) Hsig Ht.
  destruct (N.lt_ge_cases b MAX_COMPONENTS) as [Hlt|Hge]; [done|].
  rewrite (Hunused _ _ b Hsig) in Ht; [done|by right].
Qed.

(** X9: in a world a program can reach, removeComponent<T>(e) returns
    normally when e holds a T component, and fails its assertion otherwise
    (T unregistered included); after a normal return hasComponent<T>(e) is
    false, getComponent<T>(e) fails its assertion, and hasComponent and
    getComponent answer as before for every other entity and every other
    type. *)
Theorem X9_removeComponent_keeps_the_rest {T} (w : World T) (ti : TypeIndex) (e : Entity) :
  reachable w →
  (W.hasComponent w ti e ≠ Ok true → W.removeComponent w ti e = Fail AssertionFailure)
  ∧ (W.hasComponent w ti e = Ok true →
     ∃ w', W.removeComponent w ti e = Ok w'
           ∧ W.hasComponent w' ti e = Ok false
           ∧ W.getComponent w' ti e = Fail AssertionFailure
           ∧ ∀ ti' e', ti' ≠ ti ∨ e' ≠ e →
               W.hasComponent w' ti' e' = W.hasComponent w ti' e'
               ∧ W.getComponent w' ti' e' = W.getComponent w ti' e').
Proof.
  intros Hreach. pose proof (reachable_inv w Hreach) as Hinv. split.
  - intros Hhas. unfold W.removeComponent, CM.removeComponent, CM.getComponentArray.
    unfold W.hasComponent, CM.hasComponent, CM.getComponentArray in Hhas.
    destruct (typeToArray (componentManager w) !! ti) as [a|]; [|done].
    cbn [mbind result_bind] in *. unfold CA.remove.
    destruct (entityToIndex a !! e) as [r|] eqn:Hr; [|done].
    destruct Hhas. f_equal. apply has_true. eauto.
  - intros Hhas. pose proof Hhas as (a & Ha & [r Hr]%has_true)%hasComponent_Ok.
    destruct (registered_bit w ti a Hinv Ha) as [b Hb].
    apply (inv_has_iff_bit w ti b e Hinv Hb) in Hhas as (sig & Hget & Ht).
    pose proof Hget as [Hrange Hsig]%getSignature_Ok.
    pose proof (bits_inside_bitset w e sig b Hinv Hsig Ht) as Hlt.
    pose proof Hinv as (_ & (_ & _ & _ & _ & Hdense) & _).
    destruct (remove_dense a (Hdense ti a Ha) e r Hr) as (a' & Hrm & _ & Hdom & _ & Hkeep).
    eexists. split.
    { unfold W.removeComponent, CM.removeComponent, CM.getComponentArray.
      rewrite Ha. cbn [mbind result_bind]. rewrite Hrm. cbn [mbind result_bind].
      rewrite Hget. cbn [mbind result_bind]. unfold CM.getBit. cbn [typeToBit].
      rewrite Hb. cbn [mbind result_bind]. unfold Sig.reset_bit.
      replace (b <? MAX_COMPONENTS) with true by (symmetry; by apply N.ltb_lt).
      cbn [mbind result_bind]. unfold EM.setSignature. rewrite Hrange.
      cbn [cassert mbind result_bind].
      rewrite decide_True by (by eapply lookup_lt_Some). reflexivity. }
    match goal with |- W.hasComponent ?w1 _ _ = _ ∧ _ => set (w1' := w1) end.
    assert (Harr : typeToArray (componentManager w1')
                   = <[ti := a']> (typeToArray (componentManager w))) by done.
    assert (Hnew : typeToArray (componentManager w1') !! ti = Some a').
    { rewrite Harr. apply lookup_insert_eq. }
    assert (Hgone : entityToIndex a' !! e = None).
    { apply not_elem_of_dom. rewrite Hdom. set_solver. }
    split; [|split].
    + rewrite (proj2 (getComponent_array w1' ti a' e Hnew)). f_equal. by apply has_false.
    + rewrite (proj1 (getComponent_array w1' ti a' e Hnew)). unfold CA.get. by rewrite Hgone.
    + intros ti' e' Hcase. destruct (decide (ti' = ti)) as [->|Hne].
      * destruct Hcase as [?|Hne]; [done|].
        destruct (getComponent_array w1' ti a' e' Hnew) as [-> ->].
        destruct (getComponent_array w ti a e' Ha) as [-> ->].
        split; [|by apply Hkeep]. f_equal. rewrite !has_dom, Hdom.
        apply bool_decide_ext. set_solver.
      * by apply (frame_other_type w w1' ti ti' a' e' Harr).
Qed.

Lemma X9_removeComponent_keeps_the_rest_witness :
  ∃ w', W.removeComponent two_entities "Position" 1 = Ok w'
        ∧ W.hasComponent w' "Position" 1 = Ok false
        ∧ W.getComponent w' "Position" 1 = Fail AssertionFailure.
Proof.
  destruct (proj2 (X9_removeComponent_keeps_the_rest two_entities "Position" 1
                     two_entities_reachable)) as (w' & H1 & H2 & H3 & _).
  - vm_compute. reflexivity.
  - exists w'. split; [exact H1|]. split; [exact H2|exact H3].
Defined.

(** ** ComponentManager: registerComponent, getBit; World: makeSignature *)

Lemma bit_kept_by_step {T} (c : api_call T) (w w' : World T) (ti : TypeIndex)
    (b : ComponentBit) :
  api_step c w = Ok w' →
  typeToBit (componentManager w) !! ti = Some b →
  typeToBit (componentManager w') !! ti = Some b.
Proof.
  intros Hstep Hb. destruct c as [ti0|cls nm sig| |e|ti0 e v|ti0 e]; cbn [api_step] in Hstep.
  - unfold W.registerComponent in Hstep. ok_inv Hstep. ok_inv Hstep. subst w'.
    unfold CM.registerComponent in Hstep0. ok_inv Hstep0. ok_inv Hstep0. subst a.
    apply bool_decide_eq_true in Hstep. cbn. rewrite lookup_insert_ne; [done|].
    intros ->. congruence.
  - ok_inv Hstep. by subst w'.
  - ok_inv Hstep. destruct a as [id w1]. ok_inv Hstep. subst w1.
    unfold W.createEntity in Hstep0. ok_inv Hstep0. destruct a as [id' em'].
    ok_inv Hstep0. by subst w'.
  - by rewrite (destroyEntity_inv w w' e Hstep).
  - by apply addComponent_Ok in Hstep as (? & ? & ? & ? & ? & _ & _ & _ & _ & _ & _ & ->).
  - by apply removeComponent_Ok in Hstep as (? & ? & ? & ? & ? & _ & _ & _ & _ & _ & _ & ->).
Qed.

Lemma bit_kept_by_run {T} (calls : list (api_call T)) (w w' : World T) (ti : TypeIndex)
    (b : ComponentBit) :
  api_run calls w = Ok w' →
  typeToBit (componentManager w) !! ti = Some b →
  typeToBit (componentManager w') !! ti = Some b.
Proof.
  revert w. induction calls as [|c rest IH]; intros w Hrun Hb; cbn [api_run] in Hrun.
  - by ok_inv Hrun; subst.
  - ok_inv Hrun. apply (IH a Hrun). by apply (bit_kept_by_step c w a).
Qed.

Lemma register_in_order {T} (tis : list TypeIndex) (w : World T) :
  NoDup tis →
  (∀ ti, ti ∈ tis → typeToBit (componentManager w) !! ti = None) →
  nextBit (componentManager w) + N.of_nat (length tis) < 2 ^ 64 →
  ∃ w', api_run (ApiRegisterComponent <$> tis) w = Ok w'
        ∧ ∀ i ti, tis !! i = Some ti →
            typeToBit (componentManager w') !! ti
            = Some (nextBit (componentManager w) + N.of_nat i).
Proof.
  revert w. induction tis as [|ti0 rest IH]; intros w Hnd Hfresh Hwrap.
  - exists w. split; [done|]. intros i ti Hi. by rewrite lookup_nil in Hi.
  - apply NoDup_cons in Hnd as [Hnotin Hnd]. cbn [length] in Hwrap.
    set (w1 := {| entityManager := entityManager w;
                  componentManager :=
                    {| typeToBit := <[ti0 := nextBit (componentManager w)]>
                                      (typeToBit (componentManager w));
                       typeToArray := <[ti0 := CA.new]> (typeToArray (componentManager w));
                       nextBit := nextBit (componentManager w) + 1 |};
                  systems := systems w; systemOrder := systemOrder w;
                  allocated := allocated w |}).
    assert (Hstep : api_step (ApiRegisterComponent ti0) w = Ok w1).
    { cbn [api_step]. unfold W.registerComponent, CM.registerComponent.
      rewrite (Hfresh ti0) by (by left). rewrite bool_decide_eq_true_2 by done.
      cbn [cassert mbind result_bind]. unfold size_t_wrap.
      rewrite N.mod_small by lia. reflexivity. }
    destruct (IH w1 Hnd) as (w' & Hrun & Hbits).
    { intros ti Hin. cbn. rewrite lookup_insert_ne; [apply Hfresh; by right|].
      intros ->. done. }
    { cbn. lia. }
    exists w'. split; [cbn [fmap list_fmap api_run]; by rewrite Hstep|].
    intros [|i] ti Hi; cbn in Hi.
    + injection Hi as <-. apply (bit_kept_by_run _ w1 w' ti0 _ Hrun).
      cbn. rewrite lookup_insert_eq. f_equal. lia.
    + rewrite (Hbits i ti Hi). cbn. f_equal. lia.
Qed.

(** X10: bit indices are assigned in order and never change: registering
    distinct types on a new world gives the i-th of them the bit i;
    registering a type a second time fails the assertion, as does asking
    for the bit of an unregistered type; and a bit a type has got is the
    bit it has after any further calls. *)
Theorem X10_bit_index_stability {T} (tis : list TypeIndex) :
  NoDup tis →
  N.of_nat (length tis) < 2 ^ 64 →
  ∃ w : World T,
    api_run (ApiRegisterComponent <$> tis) W.new = Ok w
    ∧ (∀ i ti, tis !! i = Some ti → W.getComponentBit w ti = Ok (N.of_nat i))
    ∧ (∀ ti, ti ∈ tis → W.registerComponent w ti = Fail AssertionFailure)
    ∧ (∀ ti, ti ∉ tis → W.getComponentBit w ti = Fail AssertionFailure)
    ∧ ∀ calls w' ti b,
        api_run calls w = Ok w' →
        W.getComponentBit w ti = Ok b →
        W.getComponentBit w' ti = Ok b.
Proof.
  intros Hnd Hlen.
  destruct (register_in_order tis (@W.new T) Hnd) as (w & Hrun & Hbits).
  { intros ti _. cbn. apply lookup_empty. }
  { cbn. lia. }
  exists w. split; [done|]. split; [|split; [|split]].
  - intros i ti Hi. apply getComponentBit_Ok. by rewrite (Hbits i ti Hi).
  - intros ti [i Hi]%list_elem_of_lookup.
    unfold W.registerComponent, CM.registerComponent. rewrite (Hbits i ti Hi).
    by rewrite bool_decide_eq_false_2.
  - intros ti Hnotin. unfold W.getComponentBit, CM.getBit.
    destruct (typeToBit (componentManager w) !! ti) as [b|] eqn:Hb; [|done].
    exfalso. apply Hnotin.
    assert (Hdom : ∀ (l : list TypeIndex) (w0 w1 : World T),
      api_run (ApiRegisterComponent <$> l) w0 = Ok w1 →
      ∀ ti b, typeToBit (componentManager w1) !! ti = Some b →
              ti ∈ l ∨ typeToBit (componentManager w0) !! ti = Some b).
    { clear. induction l as [|t l IH]; intros w0 w1 Hrun ti b Hb; cbn in Hrun.
      - ok_inv Hrun. subst w1. by right.
      - ok_inv Hrun. destruct (IH a w1 Hrun ti b Hb) as [Hin|Hb0]; [left; by right|].
        unfold W.registerComponent in Hstep. ok_inv Hstep. ok_inv Hstep. subst a.
        unfold CM.registerComponent in Hstep0. ok_inv Hstep0. ok_inv Hstep0. subst a0.
        cbn in Hb0. rewrite lookup_insert in Hb0. case_decide; [subst; left; by left|].
        by right. }
    destruct (Hdom tis W.new w Hrun ti b Hb) as [Hin|Hb0]; [done|].
    cbn in Hb0. by rewrite lookup_empty in Hb0.
  - intros calls w' ti b Hrun' Hb%getComponentBit_Ok. apply getComponentBit_Ok.
    by apply (bit_kept_by_run calls w w').
Qed.

Lemma X10_bit_index_stability_witness :
  ∃ w : World nat,
    api_run (ApiRegisterComponent <$> ["Position"; "Velocity"; "Health"]) W.new = Ok w
    ∧ W.getComponentBit w "Health" = Ok 2.
Proof.
  destruct (X10_bit_index_stability (T := nat) ["Position"; "Velocity"; "Health"])
    as (w & H1 & H2 & _).
  - apply (bool_decide_unpack _). vm_compute. exact I.
  - vm_compute. reflexivity.
  - exists w. split; [exact H1|]. apply (H2 2%nat). reflexivity.
Defined.

(** ** Signatures as sets of required components *)

Lemma matches_subset (sig sys : Signature) :
  Sig.matches sig sys = true ↔ ∀ pos, N.testbit sys pos = true → N.testbit sig pos = true.
Proof.
  unfold Sig.matches. rewrite N.eqb_eq. split.
  - intros Heq pos Hpos. rewrite <- Heq, N.land_spec in Hpos.
    by apply andb_true_iff in Hpos as [? _].
  - intros Hsub. apply N.bits_inj. intros pos. rewrite N.land_spec.
    destruct (N.testbit sys pos) eqn:Hs; [|apply andb_false_r].
    by rewrite (Hsub pos Hs).
Qed.

Lemma makeSignature_from_Ok {T} (w : World T) (tis : list TypeIndex) (sig0 s : Signature) :
  W.makeSignature_from sig0 w tis = Ok s →
  (∀ ti, ti ∈ tis → ∃ b, typeToBit (componentManager w) !! ti = Some b ∧ b < MAX_COMPONENTS)
  ∧ ∀ pos, N.testbit s pos = true ↔
           N.testbit sig0 pos = true
           ∨ ∃ ti, ti ∈ tis ∧ typeToBit (componentManager w) !! ti = Some pos.
Proof.
  revert sig0. induction tis as [|ti rest IH]; intros sig0 Hmk; cbn in Hmk.
  - injection Hmk as <-. split; [intros ti Hin; by apply elem_of_nil in Hin|].
    intros pos. split; [by left|]. intros [?|(ti & Hin & _)]; [done|].
    by apply elem_of_nil in Hin.
  - ok_inv Hmk. rename a into b. ok_inv Hmk. rename a into sig1.
    unfold CM.getBit in Hstep.
    destruct (typeToBit (componentManager w) !! ti) as [b0|] eqn:Hb; [|discriminate].
    injection Hstep as ->. unfold Sig.set in Hstep0.
    destruct (N.ltb_spec b MAX_COMPONENTS) as [Hlt|]; [|discriminate].
    injection Hstep0 as <-. destruct (IH _ Hmk) as [Hreg Hbits]. split.
    + intros ti' [->|Hin]%elem_of_cons; [eauto|by apply Hreg].
    + intros pos. rewrite Hbits, N.setbit_iff. split.
      * intros [[<-|?]|(ti' & Hin & Hb')].
        -- right. exists ti. split; [by left|done].
        -- by left.
        -- right. exists ti'. split; [by right|done].
      * intros [?|(ti' & [->|Hin]%elem_of_cons & Hb')].
        -- left. by right.
        -- left. left. congruence.
        -- right. eauto.
Qed.

Lemma makeSignature_from_total {T} (w : World T) (tis : list TypeIndex) (sig0 : Signature) :
  (∀ ti, ti ∈ tis → ∃ b, typeToBit (componentManager w) !! ti = Some b ∧ b < MAX_COMPONENTS) →
  ∃ s, W.makeSignature_from sig0 w tis = Ok s.
Proof.
  revert sig0. induction tis as [|ti rest IH]; intros sig0 Hreg; cbn.
  - eauto.
  - destruct (Hreg ti) as (b & Hb & Hlt); [by left|].
    unfold CM.getBit. rewrite Hb. cbn [mbind result_bind]. unfold Sig.set.
    replace (b <? MAX_COMPONENTS) with true by (symmetry; by apply N.ltb_lt).
    cbn [mbind result_bind]. apply IH. intros ti' Hin. apply Hreg. by right.
Qed.

(** X11: makeSignature<T1, ..., Tn> returns normally exactly when every
    listed type is registered with a bit inside the signature; the
    signature it returns has exactly the bits of the listed types; and in a
    world a program can reach, an entity's stored signature passes the
    system test [(sig & required) == required] against it exactly when the
    entity holds a component of every listed type. *)
Theorem X11_makeSignature_requires_all_listed {T} (w : World T) (tis : list TypeIndex) :
  (is_ok (W.makeSignature w tis) = true ↔
   ∀ ti, ti ∈ tis → ∃ b, W.getComponentBit w ti = Ok b ∧ b < MAX_COMPONENTS)
  ∧ ∀ s, W.makeSignature w tis = Ok s →
      (∀ pos, Sig.test s pos = true ↔ ∃ ti, ti ∈ tis ∧ W.getComponentBit w ti = Ok pos)
      ∧ (reachable w →
         ∀ e sig, EM.getSignature (entityManager w) e = Ok sig →
           Sig.matches sig s = true ↔ ∀ ti, ti ∈ tis → W.hasComponent w ti e = Ok true).
Proof.
  split.
  - split.
    + destruct (W.makeSignature w tis) as [s|] eqn:Hmk; [|discriminate]. intros _.
      apply makeSignature_from_Ok in Hmk as [Hreg _].
      intros ti Hin. destruct (Hreg ti Hin) as (b & Hb & Hlt).
      exists b. split; [by apply getComponentBit_Ok|done].
    + intros Hreg. destruct (makeSignature_from_total w tis Sig.empty) as [s Hs].
      { intros ti Hin. destruct (Hreg ti Hin) as (b & Hb%getComponentBit_Ok & Hlt). eauto. }
      unfold W.makeSignature. by rewrite Hs.
  - intros s Hmk. apply makeSignature_from_Ok in Hmk as [Hreg Hbits].
    assert (Hbits' : ∀ pos, Sig.test s pos = true ↔
                       ∃ ti, ti ∈ tis ∧ W.getComponentBit w ti = Ok pos).
    { intros pos. unfold Sig.test. rewrite Hbits. unfold Sig.empty. rewrite N.bits_0.
      split.
      - intros [?|(ti & Hin & Hb)]; [done|]. exists ti. split; [done|].
        by apply getComponentBit_Ok.
      - intros (ti & Hin & Hb%getComponentBit_Ok). right. eauto. }
    split; [exact Hbits'|].
    intros Hreach e sig Hget. pose proof (reachable_inv w Hreach) as Hinv.
    rewrite matches_subset. split.
    + intros Hsub ti Hin. destruct (Hreg ti Hin) as (b & Hb & _).
      apply (inv_has_iff_bit w ti b e Hinv Hb). exists sig. split; [done|].
      apply Hsub. apply Hbits'. exists ti. split; [done|]. by apply getComponentBit_Ok.
    + intros Hall pos (ti & Hin & Hb%getComponentBit_Ok)%Hbits'.
      apply (inv_has_iff_bit w ti pos e Hinv Hb) in Hall; [|done].
      destruct Hall as (sig' & Hget' & Ht). assert (sig' = sig) as -> by congruence.
      exact Ht.
Qed.

Lemma X11_makeSignature_requires_all_listed_witness :
  W.makeSignature two_entities ["Position"; "Velocity"] = Ok 3
  ∧ (Sig.matches 3 3 = true ↔
     ∀ ti, ti ∈ ["Position"; "Velocity"] → W.hasComponent two_entities ti 1 = Ok true).
Proof.
  assert (Hmk : W.makeSignature two_entities ["Position"; "Velocity"] = Ok 3)
    by (vm_compute; reflexivity).
  split; [exact Hmk|].
  destruct (proj2 (X11_makeSignature_requires_all_listed two_entities
                     ["Position"; "Velocity"]) 3 Hmk) as [_ H].
  apply (H two_entities_reachable 1 3). vm_compute. reflexivity.
Defined.

(** ** World: systems registered before the first component is added *)

Lemma api_run_app {T} (l1 l2 : list (api_call T)) (w w' : World T) :
  api_run (l1 ++ l2) w = Ok w' ↔ ∃ w1, api_run l1 w = Ok w1 ∧ api_run l2 w1 = Ok w'.
Proof.
  revert w. induction l1 as [|c l1 IH]; intros w; cbn [app api_run].
  - split; [eauto|]. by intros (w1 & [= <-] & H).
  - rewrite bind_Ok. split.
    + intros (a & Hstep & (w1 & H1 & H2)%IH). exists w1. split; [|done].
      apply bind_Ok. eauto.
    + intros (w1 & (a & Hstep & H1)%bind_Ok & H2). exists a. split; [done|].
      apply IH. eauto.
Qed.

Lemma consistent_mutation {T} (c : api_call T) (w w' : World T) :
  membership_consistent w →
  nonempty_system_signatures w →
  is_mutation c = true →
  api_step c w = Ok w' →
  membership_consistent w'.
Proof.
  intros Hcons Hne Hmut Hstep. pose proof (api_step_effect c w w' Hstep) as Heff.
  destruct c as [ti|cls nm sig| |e|ti e v|ti e]; try discriminate Hmut.
  - destruct Heff as (Hr & Hlt & Hsigs & _ & Hsys).
    apply (consistent_local_update w w' e Sig.empty (system_erase e)); try done.
    intros nm s Hs. destruct (erase_spec e s) as (? & ? & ?).
    split; [done|]. split; [done|]. split; [done|]. intros [Hany _]. discriminate Hany.
  - destruct Heff as (sig & bit & Hr & Hsig & Hsigs & _ & Hsys).
    apply (consistent_local_update w w' e (N.setbit sig bit) (W.refresh e (N.setbit sig bit)));
      try done.
    { by eapply lookup_lt_Some. }
    intros nm s Hs. destruct (refresh_spec e (N.setbit sig bit) s) as (? & ? & Hin).
    split; [done|]. split; [done|]. rewrite Hin, any_setbit. tauto.
  - destruct Heff as (sig & bit & Hr & Hsig & Hsigs & _ & Hsys).
    apply (consistent_local_update w w' e (N.clearbit sig bit)
             (W.refresh e (N.clearbit sig bit))); try done.
    { by eapply lookup_lt_Some. }
    intros nm s Hs. destruct (refresh_spec e (N.clearbit sig bit) s) as (? & ? & Hin).
    split; [done|]. split; [done|]. rewrite Hin. split; [|tauto].
    intros Hm. split; [|done].
    destruct (Sig.any (N.clearbit sig bit)) eqn:Hany; [done|].
    apply negb_false_iff, N.eqb_eq in Hany. rewrite Hany in Hm.
    apply matches_empty_entity in Hm. by apply Hne in Hs.
Qed.

Lemma nonempty_kept {T} (c : api_call T) (w w' : World T) :
  nonempty_system_signatures w →
  match c with ApiRegisterSystem _ _ sig => Sig.any sig = true | _ => True end →
  api_step c w = Ok w' →
  nonempty_system_signatures w'.
Proof.
  intros Hne Hc Hstep. pose proof (api_step_effect c w w' Hstep) as Heff.
  intros nm s. destruct c as [ti|cls nm0 sig| |e|ti e v|ti e].
  - destruct Heff as (_ & _ & ->). apply Hne.
  - destruct Heff as (_ & _ & ->). rewrite lookup_insert. case_decide; [|apply Hne].
    intros [= <-]. cbn [signature]. intros ->. discriminate Hc.
  - destruct Heff as (_ & _ & ->). apply Hne.
  - destruct Heff as (_ & _ & _ & _ & ->). rewrite lookup_fmap.
    destruct (systems w !! nm) as [s0|] eqn:Hs0; [|done]. intros [= <-].
    destruct (erase_spec e s0) as [-> _]. by apply (Hne nm).
  - destruct Heff as (sig & bit & _ & _ & _ & _ & ->). rewrite lookup_fmap.
    destruct (systems w !! nm) as [s0|] eqn:Hs0; [|done]. intros [= <-].
    destruct (refresh_spec e (N.setbit sig bit) s0) as [-> _]. by apply (Hne nm).
  - destruct Heff as (sig & bit & _ & _ & _ & _ & ->). rewrite lookup_fmap.
    destruct (systems w !! nm) as [s0|] eqn:Hs0; [|done]. intros [= <-].
    destruct (refresh_spec e (N.clearbit sig bit) s0) as [-> _]. by apply (Hne nm).
Qed.

Lemma setup_run {T} (setup : list (api_call T)) (w w' : World T) :
  forallb is_setup_call setup = true →
  membership_consistent w →
  nonempty_system_signatures w →
  (∀ i sig, signatures (entityManager w) !! i = Some sig → sig = Sig.empty) →
  api_run setup w = Ok w' →
  membership_consistent w' ∧ nonempty_system_signatures w'.
Proof.
  revert w. induction setup as [|c rest IH]; intros w Hall Hcons Hne Hsigs Hrun;
    cbn [api_run] in Hrun.
  - by ok_inv Hrun; subst.
  - cbn [forallb] in Hall. apply andb_true_iff in Hall as [Hc Hall]. ok_inv Hrun.
    pose proof (api_step_effect c w a Hstep) as Heff.
    apply (IH a Hall).
    + apply (consistent_other_calls c w a Hcons); [|done].
      by destruct c.
    + apply (nonempty_kept c w a Hne); [|done]. by destruct c.
    + destruct c as [ti|cls nm0 sig| |e|ti e v|ti e]; try discriminate Hc.
      * destruct Heff as (-> & _). exact Hsigs.
      * destruct Heff as (-> & _). exact Hsigs.
      * destruct Heff as (-> & _). exact Hsigs.
    + done.
Qed.

Lemma body_run {T} (body : list (api_call T)) (w w' : World T) :
  forallb registers_no_system body = true →
  membership_consistent w →
  nonempty_system_signatures w →
  api_run body w = Ok w' →
  membership_consistent w' ∧ nonempty_system_signatures w'.
Proof.
  revert w. induction body as [|c rest IH]; intros w Hall Hcons Hne Hrun;
    cbn [api_run] in Hrun.
  - by ok_inv Hrun; subst.
  - cbn [forallb] in Hall. apply andb_true_iff in Hall as [Hc Hall]. ok_inv Hrun.
    apply (IH a Hall); [| |done].
    + destruct (is_mutation c) eqn:Hmut.
      * by apply (consistent_mutation c w a).
      * apply (consistent_other_calls c w a Hcons); [|done]. by destruct c.
    + apply (nonempty_kept c w a Hne); [|done]. by destruct c.
Qed.

Lemma matches_iff_holds_all {T} (w : World T) (tis : list TypeIndex) (s sig : Signature)
    (e : Entity) :
  world_inv w →
  W.makeSignature w tis = Ok s →
  EM.getSignature (entityManager w) e = Ok sig →
  Sig.matches sig s = true ↔ ∀ ti, ti ∈ tis → W.hasComponent w ti e = Ok true.
Proof.
  intros Hinv Hmk Hget. apply makeSignature_from_Ok in Hmk as [Hreg Hbits].
  rewrite matches_subset. split.
  - intros Hsub ti Hin. destruct (Hreg ti Hin) as (b & Hb & _).
    apply (inv_has_iff_bit w ti b e Hinv Hb). exists sig. split; [done|].
    apply Hsub. apply Hbits. right. eauto.
  - intros Hall pos [Hpos|(ti & Hin & Hb)]%Hbits.
    { unfold Sig.empty in Hpos. by rewrite N.bits_0 in Hpos. }
    apply (inv_has_iff_bit w ti pos e Hinv Hb) in Hall; [|done].
    destruct Hall as (sig' & Hget' & Ht). assert (sig' = sig) as -> by congruence.
    exact Ht.
Qed.

(** X12: in a program that makes all its registerSystem calls, each with a
    non-empty signature, before the first addComponent, removeComponent or
    destroyEntity, every system's entity set is at every later point
    exactly the set of living entities whose signature passes the system
    test; and when the system's signature is the one makeSignature gives
    for a list of types, its entity set is exactly the set of entities
    that hold a component of every listed type. *)
Theorem X12_systems_track_holders {T} (setup body : list (api_call T)) (w : World T) :
  forallb is_setup_call setup = true →
  forallb registers_no_system body = true →
  N.of_nat (length (setup ++ body)) < 2 ^ 64 →
  api_run (setup ++ body) W.new = Ok w →
  membership_consistent w
  ∧ ∀ nm s tis,
      W.getSystem w nm = Some s →
      W.makeSignature w tis = Ok (signature s) →
      ∀ e, e ∈ entities s ↔ ∀ ti, ti ∈ tis → W.hasComponent w ti e = Ok true.
Proof.
  intros Hsetup Hbody Hlen Hrun.
  assert (Hinv : world_inv w) by (apply reachable_inv; by exists (setup ++ body)).
  apply api_run_app in Hrun as (w1 & Hrun1 & Hrun2).
  destruct (setup_run setup W.new w1 Hsetup) as [Hcons1 Hne1].
  { apply consistent_new. }
  { intros nm s Hs. cbn in Hs. by rewrite lookup_empty in Hs. }
  { intros i sig Hsig. cbn in Hsig. by apply lookup_replicate in Hsig as [-> _]. }
  { exact Hrun1. }
  destruct (body_run body w1 w Hbody Hcons1 Hne1 Hrun2) as [Hcons Hne].
  split; [done|]. intros nm s tis Hs Hmk e. unfold W.getSystem in Hs.
  rewrite (Hcons nm s e Hs). split.
  - intros (_ & sig & Hget & Hm). by apply (matches_iff_holds_all w tis (signature s) sig e).
  - intros Hall. destruct tis as [|ti0 rest].
    { cbn in Hmk. injection Hmk as Hmk. symmetry in Hmk. by destruct (Hne nm s Hs). }
    pose proof Hmk as [Hreg _]%makeSignature_from_Ok.
    destruct (Hreg ti0) as (b & Hb & _); [by left|].
    assert (Hhas : W.hasComponent w ti0 e = Ok true) by (apply Hall; by left).
    apply (inv_has_iff_bit w ti0 b e Hinv Hb) in Hhas as (sig & Hget & Ht).
    split.
    + apply isAlive_true. exists sig. split; [done|]. apply any_spec. eauto.
    + exists sig. split; [done|].
      by apply (matches_iff_holds_all w (ti0 :: rest) (signature s) sig e).
Qed.

Lemma X12_systems_track_holders_witness :
  membership_consistent two_entities
  ∧ ∀ nm s tis,
      W.getSystem two_entities nm = Some s →
      W.makeSignature two_entities tis = Ok (signature s) →
      ∀ e, e ∈ entities s ↔ ∀ ti, ti ∈ tis → W.hasComponent two_entities ti e = Ok true.
Proof.
  apply (X12_systems_track_holders movement_setup
           [ApiAddComponent "Position" 1 10%nat; ApiAddComponent "Velocity" 1 20%nat;
            ApiCreateEntity; ApiAddComponent "Position" 2 30%nat]).
  - reflexivity.
  - reflexivity.
  - vm_compute. reflexivity.
  - vm_compute. reflexivity.
Defined.

(** ** World: updateSystems on the systems of a program *)

Lemma order_inv_new {T} : order_inv (@W.new T).
Proof.
  split; [done|]. split.
  - intros nm Hin. cbn in Hin. by apply elem_of_nil in Hin.
  - intros nm s Hs. cbn in Hs. by rewrite lookup_empty in Hs.
Qed.

Lemma order_inv_fmap {T} (w w' : World T) (f : System → System) :
  order_inv w →
  (∀ s, instance (f s) = instance s ∧ enabled (f s) = enabled s) →
  systems w' = f <$> systems w →
  systemOrder w' = systemOrder w →
  allocated w' = allocated w →
  order_inv w'.
Proof.
  intros (Hal & Hreg & Hobj) Hf Hsys Horder Hal'. split; [congruence|]. split.
  - intros nm Hin. rewrite Horder in Hin. rewrite Hsys, lookup_fmap.
    destruct (Hreg nm Hin) as [s ->]. by eexists.
  - intros nm s' Hs'. rewrite Hsys, lookup_fmap in Hs'.
    destruct (systems w !! nm) as [s|] eqn:Hs; [|discriminate]. injection Hs' as <-.
    destruct (Hf s) as [-> ->]. rewrite Horder. by apply Hobj.
Qed.

Lemma order_inv_step {T} (c : api_call T) (w w' : World T) :
  order_inv w → api_step c w = Ok w' → order_inv w'.
Proof.
  intros Hinv Hstep. pose proof Hinv as (Hal & Hreg & Hobj).
  destruct c as [ti|cls nm sig| |e|ti e v|ti e]; cbn [api_step] in Hstep.
  - unfold W.registerComponent in Hstep. ok_inv Hstep. ok_inv Hstep. by subst w'.
  - ok_inv Hstep. subst w'. cbn [W.registerSystem snd]. split; [|split]; cbn.
    + rewrite length_app. cbn. lia.
    + intros nm' Hin. rewrite lookup_insert. case_decide; [by eexists|].
      apply Hreg. set_solver.
    + intros nm' s. rewrite lookup_insert. case_decide as Heq.
      * intros [= <-]. cbn. split; [done|]. rewrite Hal. subst nm'.
        by rewrite lookup_app_r, Nat.sub_diag.
      * intros Hs. destruct (Hobj nm' s Hs) as [Hen Hpos]. split; [done|].
        by apply lookup_app_l_Some.
  - ok_inv Hstep. destruct a as [id w1]. ok_inv Hstep. subst w1.
    unfold W.createEntity in Hstep0. ok_inv Hstep0. destruct a as [id' em'].
    ok_inv Hstep0. by subst w'.
  - unfold W.destroyEntity in Hstep. ok_inv Hstep. ok_inv Hstep. ok_inv Hstep. subst w'.
    by apply (order_inv_fmap w _ (system_erase e)).
  - apply addComponent_Ok in Hstep as (? & ? & sig & bit & ? & _ & _ & _ & _ & _ & _ & ->).
    apply (order_inv_fmap w _ (W.refresh e (N.setbit sig bit))); try done.
    intros s. unfold W.refresh. by destruct (Sig.matches _ _).
  - apply removeComponent_Ok in Hstep as (? & ? & sig & bit & ? & _ & _ & _ & _ & _ & _ & ->).
    apply (order_inv_fmap w _ (W.refresh e (N.clearbit sig bit))); try done.
    intros s. unfold W.refresh. by destruct (Sig.matches _ _).
Qed.

Lemma order_inv_run {T} (calls : list (api_call T)) (w w' : World T) :
  order_inv w → api_run calls w = Ok w' → order_inv w'.
Proof.
  revert w. induction calls as [|c rest IH]; intros w Hinv Hrun; cbn [api_run] in Hrun.
  - by ok_inv Hrun; subst.
  - ok_inv Hrun. apply (IH a); [|done]. by apply (order_inv_step c w).
Qed.

Lemma switch_off_order {T} (off : list string) (w : World T) :
  systemOrder (switch_off off w) = systemOrder w.
Proof. induction off as [|nm off IH]; [done|]. cbn. exact IH. Qed.

Lemma dispatch_switch_off {T} (off : list string) (w : World T) (nm : string) :
  dispatch (switch_off off w) nm
  = (λ d, (d.1, d.2 && bool_decide (nm ∉ off))) <$> dispatch w nm.
Proof.
  induction off as [|nm0 off IH].
  - cbn [switch_off foldr]. rewrite bool_decide_eq_true_2 by apply not_elem_of_nil.
    destruct (dispatch w nm) as [[d en]|]; [|done]. cbn. by rewrite andb_true_r.
  - cbn [switch_off foldr]. fold (switch_off off w).
    assert (Hset : ∀ w0 : World T,
      dispatch (W.setEnabled w0 nm0 false) nm
      = (λ d, (d.1, if decide (nm = nm0) then false else d.2)) <$> dispatch w0 nm).
    { intros w0. unfold dispatch, W.setEnabled. cbn [systems].
      destruct (decide (nm = nm0)) as [->|Hne].
      - rewrite lookup_alter_eq. by destruct (systems w0 !! nm0).
      - rewrite lookup_alter_ne by done. by destruct (systems w0 !! nm) as [[]|]. }
    rewrite Hset, IH. destruct (dispatch w nm) as [[d en]|]; [|done]. cbn.
    f_equal. f_equal. destruct (decide (nm = nm0)) as [->|Hne].
    + rewrite (bool_decide_eq_false_2 (nm0 ∉ nm0 :: off)); [by rewrite andb_false_r|].
      intros Hn. apply Hn. by left.
    + f_equal. apply bool_decide_ext. rewrite not_elem_of_cons. tauto.
Qed.

Lemma omap_increasing {A} (f : A → option nat) (l : list A) (k : nat) :
  (∀ i x j, l !! i = Some x → f x = Some j → j = (k + i)%nat) →
  StronglySorted Nat.lt (omap f l) ∧ Forall (λ j, (k ≤ j)%nat) (omap f l).
Proof.
  revert k. induction l as [|x l IH]; intros k Hpos.
  - split; constructor.
  - destruct (IH (S k)) as [Hsorted Hge].
    { intros i y j Hi Hj. rewrite (Hpos (S i) y j Hi Hj). lia. }
    cbn [omap list_omap]. destruct (f x) as [j|] eqn:Hfx.
    + assert (j = k) as -> by (rewrite (Hpos 0%nat x j eq_refl Hfx); lia).
      split.
      * constructor; [done|]. eapply Forall_impl; [exact Hge|]. intros; cbv beta in *; lia.
      * constructor; [lia|]. eapply Forall_impl; [exact Hge|]. intros; cbv beta in *; lia.
    + split; [done|]. eapply Forall_impl; [exact Hge|]. intros; cbv beta in *; lia.
Qed.



(** ** EntityManager: the counter, the pool and the signature array *)

Lemma pushed_ids_lookup (first : Entity) (count i : nat) :
  (i < count)%nat → pushed_ids first count !! i = Some (first + N.of_nat i).
Proof.
  revert first i. induction count as [|k IH]; intros first i Hi; [lia|].
  destruct i as [|i]; cbn [pushed_ids lookup list_lookup].
  - f_equal. lia.
  - rewrite IH by lia. f_equal. lia.
Qed.

(** X14: in a run in which destroyEntity and setSignature are applied only
    to live ids, getLivingCount is the number of live entities, the pool
    holds the other MAX_ENTITIES minus that many ids, and every live id is a
    valid one; createEntity returns an id and adds one to the count while
    the count is below MAX_ENTITIES, and fails its assertion, before it
    touches the queue, when the count is MAX_ENTITIES; destroyEntity on a
    live id returns normally and takes one off the count. *)
Theorem X14_living_count (calls : list em_call) (em : EntityManager) (live : list Entity) :
  on_live_ids calls em_fresh = true →
  em_run calls em_fresh = Ok (em, live) →
  EM.getLivingCount em = N.of_nat (length live)
  ∧ N.of_nat (length (availableIds em)) + EM.getLivingCount em = MAX_ENTITIES
  ∧ (∀ e, e ∈ live → NULL_ENTITY < e ∧ e ≤ MAX_ENTITIES)
  ∧ (EM.getLivingCount em < MAX_ENTITIES →
     ∃ id em', EM.createEntity em = Ok (id, em')
               ∧ EM.getLivingCount em' = EM.getLivingCount em + 1)
  ∧ (EM.getLivingCount em = MAX_ENTITIES → EM.createEntity em = Fail AssertionFailure)
  ∧ ∀ e, e ∈ live →
      ∃ em', EM.destroyEntity em e = Ok em'
             ∧ EM.getLivingCount em' + 1 = EM.getLivingCount em.
Proof.
  intros Hlive Hrun.
  assert (Hinv : em_inv (em, live)) by (eapply em_run_inv; eauto using em_inv_fresh).
  pose proof (em_inv_count _ Hinv) as Hcount. cbn [fst snd] in Hcount.
  pose proof Hinv as (Hlen & _ & Hlc & _). cbn [fst snd] in Hlen, Hlc.
  unfold EM.getLivingCount. rewrite Hlc.
  split; [done|]. split; [lia|]. split; [|split; [|split]].
  - intros e He. apply in_range_spec. apply (em_inv_range _ Hinv). by right.
  - intros Hlt. unfold EM.createEntity. rewrite Hlc.
    replace (N.of_nat (length live) <? MAX_ENTITIES) with true
      by (symmetry; by apply N.ltb_lt).
    cbn [cassert mbind result_bind].
    destruct (availableIds em) as [|id rest]; [cbn in Hcount; lia|].
    eexists _, _. split; [reflexivity|]. cbn [livingCount].
    by rewrite u32_incr_small.
  - intros Hfull. unfold EM.createEntity. rewrite Hlc, Hfull.
    by rewrite N.ltb_irrefl.
  - intros e He.
    assert (Hr : entity_in_range e = true) by (apply (em_inv_range _ Hinv); by right).
    unfold EM.destroyEntity. rewrite Hr. cbn [cassert mbind result_bind].
    rewrite decide_True by (by apply (em_inv_index _ Hinv)).
    eexists. split; [reflexivity|]. cbn [livingCount]. rewrite Hlc.
    assert (0 < length live)%nat by (destruct live; [by apply elem_of_nil in He|cbn; lia]).
    rewrite u32_decr_pos by lia. lia.
Qed.

Lemma X14_living_count_witness :
  EM.getLivingCount
    (from_ok em_fresh (em_run [CallCreate; CallCreate; CallDestroy 1; CallCreate] em_fresh)).1
  = 2.
Proof.
  pose proof (X14_living_count [CallCreate; CallCreate; CallDestroy 1; CallCreate]
    (from_ok em_fresh (em_run [CallCreate; CallCreate; CallDestroy 1; CallCreate] em_fresh)).1
    (from_ok em_fresh (em_run [CallCreate; CallCreate; CallDestroy 1; CallCreate] em_fresh)).2)
    as H.
  destruct H as [H _]; [vm_compute; reflexivity..|].
  rewrite H. vm_compute. reflexivity.
Defined.

(** X15: the first k createEntity calls on a new manager, k up to
    MAX_ENTITIES, return the ids 1, 2, ..., k in this order; afterwards
    getLivingCount is k and each of the ids has an empty signature. *)
Theorem X15_new_manager_counts_up (k : nat) :
  (k ≤ N.to_nat MAX_ENTITIES)%nat →
  ∃ ids em,
    create_many k EM.new = Ok (ids, em)
    ∧ length ids = k
    ∧ (∀ i, (i < k)%nat → ids !! i = Some (N.of_nat i + 1))
    ∧ EM.getLivingCount em = N.of_nat k
    ∧ ∀ id, id ∈ ids → EM.getSignature em id = Ok Sig.empty.
Proof.
  intros Hk. eexists _, _. split; [by apply create_many_new|].
  split; [apply pushed_ids_length|]. split; [|split; [done|]].
  - intros i Hi. rewrite pushed_ids_lookup by done. f_equal. lia.
  - intros id [Hlo Hhi]%elem_of_pushed_ids. apply getSignature_Ok. split.
    + apply in_range_spec. lia.
    + cbn [signatures EM.new]. apply lookup_replicate_2. lia.
Qed.

Lemma X15_new_manager_counts_up_witness :
  ∃ ids em, create_many 3 EM.new = Ok (ids, em) ∧ ids !! 2%nat = Some 3.
Proof.
  destruct (X15_new_manager_counts_up 3) as (ids & em & Hrun & _ & Hids & _).
  - vm_compute. lia.
  - exists ids, em. split; [exact Hrun|]. apply (Hids 2%nat). lia.
Defined.

(** X16: on a manager whose array has its declared length, setSignature on
    an id in (0, MAX_ENTITIES] returns normally, getSignature then returns
    the stored signature, and every other id's signature, the counter and
    the pool are as before; on the null id or an id above MAX_ENTITIES both
    calls fail their assertion. *)
Theorem X16_setSignature_then_getSignature (em : EntityManager) (e : Entity) (s : Signature) :
  EM.array_ok em →
  (NULL_ENTITY < e ∧ e ≤ MAX_ENTITIES →
   ∃ em', EM.setSignature em e s = Ok em'
          ∧ EM.getSignature em' e = Ok s
          ∧ (∀ e', e' ≠ e → EM.getSignature em' e' = EM.getSignature em e')
          ∧ EM.getLivingCount em' = EM.getLivingCount em
          ∧ availableIds em' = availableIds em
          ∧ EM.array_ok em')
  ∧ (e = NULL_ENTITY ∨ MAX_ENTITIES < e →
     EM.setSignature em e s = Fail AssertionFailure
     ∧ EM.getSignature em e = Fail AssertionFailure).
Proof.
  intros Hlen. split.
  - intros Hr%in_range_spec.
    assert (Hlt : (N.to_nat e < length (signatures em))%nat).
    { rewrite Hlen. apply in_range_spec in Hr. lia. }
    eexists. split; [apply setSignature_Ok; eauto|]. split; [|split; [|split; [|split]]].
    + apply getSignature_Ok. split; [done|]. cbn [signatures].
      by apply list_lookup_insert_eq.
    + intros e' Hne. unfold EM.getSignature. cbn [signatures].
      rewrite list_lookup_insert_ne; [done|]. intros Hn. by apply N2Nat.inj in Hn.
    + done.
    + done.
    + unfold EM.array_ok. cbn [signatures]. by rewrite length_insert.
  - intros Hout.
    assert (Hr : entity_in_range e = false).
    { apply not_true_is_false. rewrite in_range_spec. unfold NULL_ENTITY in Hout. lia. }
    unfold EM.setSignature, EM.getSignature. by rewrite Hr.
Qed.

Lemma X16_setSignature_then_getSignature_witness :
  ∃ em', EM.setSignature EM.new 7 5 = Ok em' ∧ EM.getSignature em' 7 = Ok 5.
Proof.
  destruct (X16_setSignature_then_getSignature EM.new 7 5) as [H _].
  - vm_compute. reflexivity.
  - destruct H as (em' & Hset & Hget & _); [vm_compute; done|].
    exists em'. split; [exact Hset|exact Hget].
Defined.

(** ** CommandManager: post, flush, clear, empty *)

Section commands.
Context {C St : Type}.
Variable exec : C → St → St * list C.

Lemma commands_flush_quiet (q : list C) (s : St) :
  (∀ c, c ∈ q → ∀ s0, (exec c s0).2 = []) →
  Commands.flush exec (length q) s (Commands.mk q)
  = Some (foldl (λ s0 c, (exec c s0).1) s q, Commands.new, q).
Proof.
  revert s. induction q as [|c rest IH]; intros s Hquiet; [done|].
  cbn [length Commands.flush Commands.commandQueue foldl].
  pose proof (Hquiet c (list_elem_of_here _ _) s) as Hc.
  destruct (exec c s) as [s' posted] eqn:Hexec. cbn [fst snd] in *. subst posted.
  rewrite app_nil_r, IH; [done|]. intros d Hd. apply Hquiet. by right.
Qed.
End commands.

(** X17: flush calls the queued commands in the order they were posted:
    when it returns the queue is empty and the commands that were queued
    at the start were called first, in queue order. With commands that
    post nothing it returns after one call per queued command, the
    application state being the result of running them front to back. A
    command posted by a running command is called by the same flush, after
    everything that was queued before it. clear drops the queued commands
    without calling them. *)
Theorem X17_flush_runs_commands_in_posting_order {C St} (exec : C → St → St * list C) :
  (∀ fuel s cm s' cm' ran,
     Commands.flush exec fuel s cm = Some (s', cm', ran) →
     Commands.empty cm' = true ∧ ∃ later, ran = Commands.commandQueue cm ++ later)
  ∧ (∀ s cm,
       (∀ c, c ∈ Commands.commandQueue cm → ∀ s0, (exec c s0).2 = []) →
       Commands.flush exec (length (Commands.commandQueue cm)) s cm
       = Some (foldl (λ s0 c, (exec c s0).1) s (Commands.commandQueue cm),
               Commands.new, Commands.commandQueue cm))
  ∧ (∀ s cm c,
       (∀ d, d ∈ Commands.commandQueue cm ++ (exec c s).2 → ∀ s0, (exec d s0).2 = []) →
       ∃ s',
         Commands.flush exec (S (length (Commands.commandQueue cm ++ (exec c s).2))) s
           {| Commands.commandQueue := c :: Commands.commandQueue cm |}
         = Some (s', Commands.new, c :: Commands.commandQueue cm ++ (exec c s).2))
  ∧ (∀ s cm c,
       (∀ s0, (exec c s0).2 = []) →
       Commands.flush exec 1 s (Commands.post (Commands.clear cm) c)
       = Some ((exec c s).1, Commands.new, [c])).
Proof.
  split; [|split; [|split]].
  - intros fuel. induction fuel as [|n IH]; intros s [q] s' cm' ran Hflush;
      destruct q as [|c rest]; cbn [Commands.flush Commands.commandQueue] in Hflush.
    + injection Hflush as <- <- <-. split; [done|]. by exists [].
    + discriminate.
    + injection Hflush as <- <- <-. split; [done|]. by exists [].
    + destruct (exec c s) as [s1 posted].
      destruct (Commands.flush exec n s1 _) as [[[s2 cm2] ran2]|] eqn:Hrec; [|discriminate].
      cbn in Hflush. injection Hflush as <- <- <-.
      destruct (IH _ _ _ _ _ Hrec) as [Hempty [later ->]]. split; [done|].
      cbn [Commands.commandQueue]. exists (posted ++ later). by rewrite <- app_assoc.
  - intros s [q] Hquiet. by apply commands_flush_quiet.
  - intros s [q] c Hquiet. cbn [Commands.commandQueue] in *.
    cbn [Commands.flush Commands.commandQueue].
    destruct (exec c s) as [s1 posted]. cbn [snd] in *.
    rewrite (commands_flush_quiet exec (q ++ posted) s1 Hquiet). cbn. eauto.
  - intros s cm c Hquiet. cbn. pose proof (Hquiet s) as Hc.
    destruct (exec c s) as [s1 posted]. cbn in *. by subst posted.
Qed.

Lemma X17_flush_runs_commands_in_posting_order_witness :
  Commands.flush logging_exec 4 [] (Commands.mk [3; 0; 5]%nat)
  = Some ([3; 0; 5; 7]%nat, Commands.new, [3; 0; 5; 7]%nat)
  ∧ ∃ later, [3; 0; 5; 7]%nat = [3; 0; 5]%nat ++ later.
Proof.
  assert (H : Commands.flush logging_exec 4 [] (Commands.mk [3; 0; 5]%nat)
              = Some ([3; 0; 5; 7]%nat, Commands.new, [3; 0; 5; 7]%nat))
    by (vm_compute; reflexivity).
  split; [exact H|].
  exact (proj2 (proj1 (X17_flush_runs_commands_in_posting_order logging_exec) _ _ _ _ _ _ H)).
Defined.

(** X18: a command that posts itself again whenever it runs keeps flush
    from returning: whatever the number of loop iterations allowed, flush
    is still running after them. *)
Theorem X18_flush_never_returns_on_reposting_command {C St}
    (exec : C → St → St * list C) (c : C) :
  (∀ s, c ∈ (exec c s).2) →
  ∀ fuel s cm, c ∈ Commands.commandQueue cm → Commands.flush exec fuel s cm = None.
Proof.
  intros Hrepost fuel. induction fuel as [|n IH]; intros s [q] Hin;
    cbn [Commands.commandQueue] in Hin; destruct q as [|cmd rest];
    try (by apply elem_of_nil in Hin); cbn [Commands.flush Commands.commandQueue]; [done|].
  destruct (exec cmd s) as [s1 posted] eqn:Hexec.
  rewrite IH; [done|]. cbn [Commands.commandQueue]. apply elem_of_app.
  apply elem_of_cons in Hin as [->|Hin]; [|by left].
  right. pose proof (Hrepost s) as Hc. by rewrite Hexec in Hc.
Qed.

Lemma X18_flush_never_returns_on_reposting_command_witness :
  Commands.flush (λ (c : nat) (s : nat), (S s, [c])) 1000 0%nat (Commands.mk [1%nat]) = None.
Proof.
  apply (X18_flush_never_returns_on_reposting_command (λ (c : nat) (s : nat), (S s, [c])) 1%nat).
  - intros s. cbn. by left.
  - cbn. by left.
Defined.

(** ** EventManager: subscribe, post, flush, clear *)

Lemma ev_run_queue {P L} (calls : list (ev_call P L)) (em : Events.EventManager P L) :
  Events.eventQueue (ev_run calls em) = Events.eventQueue em ++ posted_events calls.
Proof.
  revert em. induction calls as [|c rest IH]; intros em.
  - cbn. by rewrite app_nil_r.
  - unfold ev_run in *. cbn [foldl]. rewrite IH. unfold posted_events.
    destruct c as [nm l|nm p]; cbn; [done|]. by rewrite <- app_assoc.
Qed.

Lemma ev_run_listeners {P L} (calls : list (ev_call P L)) (em : Events.EventManager P L)
    (nm : string) :
  default [] (Events.listeners (ev_run calls em) !! nm)
  = default [] (Events.listeners em !! nm) ++ subscribers calls nm.
Proof.
  revert em. induction calls as [|c rest IH]; intros em.
  - cbn. by rewrite app_nil_r.
  - unfold ev_run in *. cbn [foldl]. rewrite IH. unfold subscribers.
    destruct c as [nm' l|nm' p]; cbn; [|done].
    rewrite lookup_insert. destruct (decide (nm' = nm)) as [->|Hne]; cbn.
    + by rewrite <- app_assoc.
    + done.
Qed.

Section events.
Context {P L St : Type}.
Variable notify : L → Events.Event P → St → St * list (Events.Event P).

Lemma deliver_quiet (ls : list L) (event : Events.Event P) (s : St)
    (posted : list (Events.Event P)) (called : list (L * Events.Event P)) :
  (∀ l ev s0, (notify l ev s0).2 = []) →
  Events.deliver notify ls event s posted called
  = (foldl (λ s0 l, (notify l event s0).1) s ls, posted,
     called ++ ((λ l, (l, event)) <$> ls)).
Proof.
  intros Hquiet. revert s posted called.
  induction ls as [|l rest IH]; intros s posted called.
  - cbn. by rewrite app_nil_r.
  - cbn [Events.deliver foldl fmap list_fmap]. pose proof (Hquiet l event s) as Hl.
    destruct (notify l event s) as [s1 p]. cbn in *. subst p.
    rewrite IH, app_nil_r, <- app_assoc. done.
Qed.

Lemma events_flush_quiet (q : list (Events.Event P)) (m : gmap string (list L)) (s : St) :
  (∀ l ev s0, (notify l ev s0).2 = []) →
  Events.flush notify (length q) s (Events.mk q m)
  = Some (foldl (λ s0 d, (notify d.1 d.2 s0).1) s
            (event ← q; (λ l, (l, event)) <$> default [] (m !! Events.name event)),
          Events.mk [] m,
          event ← q; (λ l, (l, event)) <$> default [] (m !! Events.name event)).
Proof.
  intros Hquiet. revert s. induction q as [|event rest IH]; intros s; [done|].
  cbn [length Events.flush Events.eventQueue Events.listeners mbind list_bind].
  assert (Hd : (match m !! Events.name event with
                | Some ls => Events.deliver notify ls event s [] []
                | None => (s, [], [])
                end)
               = (foldl (λ s0 l, (notify l event s0).1) s
                    (default [] (m !! Events.name event)), [],
                  (λ l, (l, event)) <$> default [] (m !! Events.name event))).
  { destruct (m !! Events.name event) as [ls|]; [|done]. by rewrite deliver_quiet. }
  rewrite Hd, app_nil_r, IH. clear Hd. cbn. rewrite foldl_app.
  assert (Hfold : ∀ ls s1,
    foldl (λ s0 l, (notify l event s0).1) s1 ls
    = foldl (λ s0 d, (notify d.1 d.2 s0).1) s1 ((λ l, (l, event)) <$> ls)).
  { induction ls as [|l ls IHl]; intros s1; [done|]. cbn. apply IHl. }
  by rewrite Hfold.
Qed.

Lemma deliver_echo (nm : string) (l : L) (ls : list L) (event : Events.Event P) (s : St)
    (posted : list (Events.Event P)) (called : list (L * Events.Event P)) :
  (∀ ev s0, ∃ ev', ev' ∈ (notify l ev s0).2 ∧ Events.name ev' = nm) →
  l ∈ ls ∨ (∃ ev', ev' ∈ posted ∧ Events.name ev' = nm) →
  ∃ ev', ev' ∈ (Events.deliver notify ls event s posted called).1.2 ∧ Events.name ev' = nm.
Proof.
  intros Hecho. revert s posted called.
  induction ls as [|l0 rest IH]; intros s posted called Hin.
  - destruct Hin as [Hin|Hin]; [by apply elem_of_nil in Hin|done].
  - cbn [Events.deliver]. destruct (notify l0 event s) as [s1 p] eqn:Hn.
    apply IH. destruct Hin as [[->|Hin]%elem_of_cons|(ev' & Hev' & Hnm)].
    + right. destruct (Hecho event s) as (ev' & Hev' & Hnm). rewrite Hn in Hev'.
      exists ev'. split; [|done]. apply elem_of_app. by right.
    + by left.
    + right. exists ev'. split; [|done]. apply elem_of_app. by left.
Qed.
End events.

(** X19: after a script of subscribe and post calls on a new manager, flush,
    with listeners that post nothing, returns after one iteration per
    posted event; it has called, for each event in posting order, every
    listener the script subscribed under the event's name, in subscription
    order and whether subscribed before or after the event was posted; an
    event whose name has no listener is dropped; the queue is empty
    afterwards and the subscriptions are kept. After clear the
    subscriptions are gone as well: an event posted then reaches no
    listener. *)
Theorem X19_flush_delivers_in_order {P L St}
    (notify : L → Events.Event P → St → St * list (Events.Event P))
    (calls : list (ev_call P L)) (s : St) :
  (∀ l ev s0, (notify l ev s0).2 = []) →
  Events.flush notify (length (posted_events calls)) s (ev_run calls Events.new)
  = Some (foldl (λ s0 d, (notify d.1 d.2 s0).1) s (deliveries calls),
          {| Events.eventQueue := [];
             Events.listeners := Events.listeners (ev_run calls Events.new) |},
          deliveries calls)
  ∧ ∀ nm p,
      Events.flush notify 1 s (Events.post (Events.clear (ev_run calls Events.new)) nm p)
      = Some (s, Events.new, []).
Proof.
  intros Hquiet. split; [|done].
  pose proof (ev_run_queue calls (@Events.new P L)) as Hq. cbn in Hq.
  destruct (ev_run calls Events.new) as [q m] eqn:Hrun. cbn in Hq. subst q.
  rewrite events_flush_quiet by done. cbn [Events.listeners].
  assert (Hd : (event ← posted_events calls;
                (λ l, (l, event)) <$> default [] (m !! Events.name event))
               = deliveries calls).
  { unfold deliveries. apply list_bind_ext; [|done]. intros event.
    pose proof (ev_run_listeners calls (@Events.new P L) (Events.name event)) as Hl.
    rewrite Hrun in Hl. cbn in Hl. rewrite lookup_empty in Hl. cbn in Hl. by rewrite Hl. }
  by rewrite Hd.
Qed.

Lemma X19_flush_delivers_in_order_witness :
  Events.flush logging_notify 2 []
    (ev_run [EvSubscribe "hit" "audio"; EvPost "hit" 1%nat; EvPost "miss" 2%nat;
             EvSubscribe "hit" "score"] Events.new)
  = Some ([("audio", 1%nat); ("score", 1%nat)],
          {| Events.eventQueue := [];
             Events.listeners := {["hit" := ["audio"; "score"]]} |},
          [("audio", Events.mkEvent "hit" 1%nat); ("score", Events.mkEvent "hit" 1%nat)]).
Proof.
  pose proof (X19_flush_delivers_in_order logging_notify
    [EvSubscribe "hit" "audio"; EvPost "hit" 1%nat; EvPost "miss" 2%nat;
     EvSubscribe "hit" "score"] []) as [H _]; [done|].
  vm_compute in H. vm_compute. exact H.
Defined.

(** X20: a listener that, whenever it is called, posts an event of the
    name it is subscribed under keeps flush from returning once such an
    event is queued: whatever the number of loop iterations allowed, flush
    is still running after them. *)
Theorem X20_flush_never_returns_on_echoing_listener {P L St}
    (notify : L → Events.Event P → St → St * list (Events.Event P))
    (nm : string) (l : L) :
  (∀ ev s, ∃ ev', ev' ∈ (notify l ev s).2 ∧ Events.name ev' = nm) →
  ∀ fuel s em ls event,
    Events.listeners em !! nm = Some ls → l ∈ ls →
    event ∈ Events.eventQueue em → Events.name event = nm →
    Events.flush notify fuel s em = None.
Proof.
  intros Hecho fuel. induction fuel as [|n IH]; intros s [q m] ls event Hls Hl Hin Hnm;
    cbn [Events.eventQueue Events.listeners] in *; destruct q as [|ev0 rest];
    try (by apply elem_of_nil in Hin); cbn [Events.flush Events.eventQueue Events.listeners];
    [done|].
  assert (Hnext : ∃ ev', ev' ∈ rest ++
            (match m !! Events.name ev0 with
             | Some ls0 => Events.deliver notify ls0 ev0 s [] []
             | None => (s, [], [])
             end).1.2 ∧ Events.name ev' = nm).
  { apply elem_of_cons in Hin as [<-|Hin].
    - rewrite Hnm, Hls.
      destruct (deliver_echo notify nm l ls event s [] [] Hecho (or_introl Hl))
        as (ev' & Hev' & Hnm').
      exists ev'. split; [|done]. apply elem_of_app. by right.
    - exists event. split; [|done]. apply elem_of_app. by left. }
  destruct (match m !! Events.name ev0 with
            | Some ls0 => Events.deliver notify ls0 ev0 s [] []
            | None => (s, [], [])
            end) as [[s1 posted] called].
  cbn [fst snd] in Hnext. destruct Hnext as (ev' & Hev' & Hnm').
  by rewrite (IH s1 {| Events.eventQueue := rest ++ posted; Events.listeners := m |}
                ls ev' Hls Hl Hev' Hnm').
Qed.

Lemma X20_flush_never_returns_on_echoing_listener_witness :
  Events.flush echo_notify 1000 []
    (ev_run [EvSubscribe "tick" "clock"; EvPost "tick" 0%nat] Events.new) = None.
Proof.
  apply (X20_flush_never_returns_on_echoing_listener echo_notify "tick" "clock")
    with (ls := ["clock"]) (event := Events.mkEvent "tick" 0%nat).
  - intros ev s. eexists. split; [cbn; by left|done].
  - vm_compute. reflexivity.
  - by left.
  - cbn. by left.
  - reflexivity.
Defined.

(** ** ApplicationSettings: trim, load, getString, getBool, hasKey *)

Lemma all_ws_app (p q : Settings.str) : all_ws (p ++ q) = all_ws p && all_ws q.
Proof. unfold all_ws. apply forallb_app. Qed.

Lemma all_ws_not_in (p : Settings.str) (c : ascii) :
  all_ws p = true → c ∉ Settings.whitespace → c ∉ p.
Proof.
  intros Hp Hc Hin. induction p as [|x p IH]; [by apply elem_of_nil in Hin|].
  cbn in Hp. apply andb_true_iff in Hp as [Hx Hp]. apply bool_decide_eq_true in Hx.
  apply elem_of_cons in Hin as [->|Hin]; [done|by apply IH].
Qed.

Lemma find_first_all_ws (s : Settings.str) :
  all_ws s = true → Settings.find_first_not_of Settings.whitespace s = None.
Proof.
  induction s as [|c s IH]; [done|]. cbn [all_ws forallb Settings.find_first_not_of].
  intros [Hc Hs]%andb_true_iff. rewrite Hc. unfold all_ws in IH. by rewrite IH.
Qed.

Lemma find_first_after_ws (p rest : Settings.str) (c : ascii) :
  all_ws p = true → c ∉ Settings.whitespace →
  Settings.find_first_not_of Settings.whitespace (p ++ c :: rest) = Some (length p).
Proof.
  intros Hp Hc. induction p as [|x p IH]; cbn [app length Settings.find_first_not_of].
  - by rewrite bool_decide_eq_false_2.
  - cbn in Hp. apply andb_true_iff in Hp as [Hx Hp]. rewrite Hx.
    unfold all_ws in IH. by rewrite IH.
Qed.

Lemma find_last_all_ws (s : Settings.str) (pos : nat) (found : option nat) :
  all_ws s = true →
  Settings.find_last_not_of_from Settings.whitespace s pos found = found.
Proof.
  revert pos found. induction s as [|c s IH]; intros pos found; [done|].
  cbn [all_ws forallb Settings.find_last_not_of_from].
  intros [Hc Hs]%andb_true_iff. rewrite Hc. by apply IH.
Qed.

Lemma find_last_before_ws (a post : Settings.str) (c : ascii) (pos : nat)
    (found : option nat) :
  c ∉ Settings.whitespace → all_ws post = true →
  Settings.find_last_not_of_from Settings.whitespace (a ++ c :: post) pos found
  = Some (pos + length a)%nat.
Proof.
  intros Hc Hpost. revert pos found.
  induction a as [|x a IH]; intros pos found; cbn [app length Settings.find_last_not_of_from].
  - rewrite (bool_decide_eq_false_2 _ Hc), find_last_all_ws by done. f_equal. lia.
  - rewrite IH. f_equal. lia.
Qed.

Lemma trim_tight (pre t post : Settings.str) :
  all_ws pre = true → all_ws post = true → tight t = true →
  Settings.trim (pre ++ t ++ post) = t.
Proof.
  intros Hpre Hpost Ht. unfold Settings.trim.
  destruct t as [|c t'].
  - cbn [app]. rewrite find_first_all_ws; [done|]. by rewrite all_ws_app, Hpre, Hpost.
  - unfold tight in Ht. apply andb_true_iff in Ht as [Hhead Hlast].
    cbn [head] in Hhead. apply bool_decide_eq_true in Hhead.
    destruct (last (c :: t')) as [d|] eqn:Hd; [|by apply last_None in Hd].
    apply bool_decide_eq_true in Hlast. apply last_Some in Hd as [a Ha].
    assert (Hfirst : Settings.find_first_not_of Settings.whitespace
                       (pre ++ (c :: t') ++ post) = Some (length pre)).
    { cbn [app]. by apply find_first_after_ws. }
    assert (Hfinal : Settings.find_last_not_of Settings.whitespace
                       (pre ++ (c :: t') ++ post) = Some (length pre + length a)%nat).
    { unfold Settings.find_last_not_of. rewrite Ha.
      assert (Hassoc : pre ++ (a ++ [d]) ++ post = (pre ++ a) ++ d :: post)
        by (by rewrite <- !app_assoc).
      rewrite Hassoc, find_last_before_ws by done. by rewrite length_app. }
    rewrite Hfirst, Hfinal. unfold Settings.substr.
    rewrite drop_app_length.
    replace (length pre + length a - length pre + 1)%nat with (length (c :: t'))
      by (rewrite Ha, length_app; cbn; lia).
    by rewrite take_app_length.
Qed.

Lemma trim_decompose (s : Settings.str) :
  ∃ pre t post, s = pre ++ t ++ post
                ∧ all_ws pre = true ∧ all_ws post = true ∧ tight t = true.
Proof.
  induction s as [|c s (pre & t & post & -> & Hpre & Hpost & Ht)].
  - by exists [], [], [].
  - destruct (decide (c ∈ Settings.whitespace)) as [Hc|Hc].
    + exists (c :: pre), t, post. split; [done|]. split; [|done].
      cbn. by rewrite bool_decide_eq_true_2.
    + destruct t as [|x t'].
      * exists [], [c], (pre ++ post). split; [done|]. split; [done|].
        split; [by rewrite all_ws_app, Hpre, Hpost|].
        unfold tight. cbn. by rewrite bool_decide_eq_true_2.
      * exists [], (c :: pre ++ x :: t'), post.
        split; [cbn [app]; by rewrite <- app_assoc|].
        split; [done|]. split; [done|].
        unfold tight in *. cbn [head]. rewrite bool_decide_eq_true_2 by done.
        apply andb_true_iff in Ht as [_ Hlast]. cbn [andb].
        replace (last (c :: pre ++ x :: t')) with (last (x :: t')); [done|].
        change (c :: pre ++ x :: t') with ((c :: pre) ++ x :: t').
        by rewrite last_app_cons.
Qed.

(** X21: trim returns the argument without its leading and trailing
    blanks, tabs, carriage returns and newlines: the argument is the result
    between two runs of such characters, the result neither starts nor ends
    with one, a string made of them only gives the empty string, and trim
    leaves a string it has returned as it is. *)
Theorem X21_trim_strips_both_ends (s : Settings.str) :
  (∃ pre post, s = pre ++ Settings.trim s ++ post
               ∧ all_ws pre = true ∧ all_ws post = true)
  ∧ tight (Settings.trim s) = true
  ∧ (all_ws s = true → Settings.trim s = [])
  ∧ Settings.trim (Settings.trim s) = Settings.trim s
  ∧ ∀ pre t post,
      all_ws pre = true → all_ws post = true → tight t = true →
      Settings.trim (pre ++ t ++ post) = t.
Proof.
  destruct (trim_decompose s) as (pre & t & post & -> & Hpre & Hpost & Ht).
  rewrite (trim_tight pre t post Hpre Hpost Ht).
  split; [by exists pre, post|]. split; [done|]. split; [|split].
  - intros Hall. rewrite !all_ws_app in Hall.
    apply andb_true_iff in Hall as [_ [Hall _]%andb_true_iff].
    destruct t as [|c t']; [done|]. unfold tight in Ht. cbn in Ht, Hall.
    apply andb_true_iff in Ht as [Hc _]. apply andb_true_iff in Hall as [Hc' _].
    apply bool_decide_eq_true in Hc, Hc'. done.
  - by apply (trim_tight [] t []) in Ht; [rewrite app_nil_r in Ht|..].
  - apply trim_tight.
Qed.

Lemma find_first_occurrence (c : ascii) (k rest : Settings.str) :
  c ∉ k → Settings.find c (k ++ c :: rest) = Some (length k).
Proof.
  intros Hk. induction k as [|x k IH]; cbn [app length Settings.find].
  - by rewrite decide_True.
  - apply not_elem_of_cons in Hk as [Hx Hk]. rewrite decide_False by done.
    by rewrite IH.
Qed.

Lemma trim_all_ws (s : Settings.str) : all_ws s = true → Settings.trim s = [].
Proof. intros Hs. unfold Settings.trim. by rewrite find_first_all_ws. Qed.

Lemma load_line_unfold (st : Settings.ApplicationSettings) (line tl : Settings.str)
    (c0 : ascii) :
  line = c0 :: tl → c0 ≠ "#"%char → c0 ≠ "!"%char →
  Settings.load_line st line
  = match Settings.find "="%char line with
    | None => st
    | Some pos =>
        match Settings.trim (take pos line) with
        | [] => st
        | c :: key =>
            {| Settings.properties :=
                 <[c :: key := Settings.trim (drop (pos + 1) line)]>
                   (Settings.properties st) |}
        end
    end.
Proof.
  intros -> H1 H2. unfold Settings.load_line.
  rewrite !bool_decide_eq_false_2 by done. cbn [orb].
  destruct (Settings.find "="%char (c0 :: tl)) as [pos|]; [|done].
  unfold Settings.substr, Settings.substr_from. cbn [drop].
  by destruct (Settings.trim (take pos (c0 :: tl))).
Qed.

Lemma load_line_ok (st : Settings.ApplicationSettings) (l : settings_line) :
  line_ok l = true → Settings.load_line st (line_text l) = assign st l.
Proof.
  unfold line_ok. intros [Hnl Hl]%andb_true_iff. destruct l as [p1 k p2 p3 v p4|line].
  - apply andb_true_iff in Hl as
      [[[[[[[[Hp1 Hp2]%andb_true_iff Hp3]%andb_true_iff Hp4]%andb_true_iff
            Htk]%andb_true_iff Hv]%andb_true_iff Hk]%andb_true_iff Heq]%andb_true_iff Hhead].
    apply bool_decide_eq_true in Heq, Hk.
    assert (Hweq : "="%char ∉ Settings.whitespace).
    { apply (bool_decide_unpack _). vm_compute. exact I. }
    assert (Hline : line_text (Assign p1 k p2 p3 v p4)
                    = (p1 ++ k ++ p2) ++ "="%char :: (p3 ++ v ++ p4)).
    { cbn [line_text app]. by rewrite <- !app_assoc. }
    assert (Hfind : Settings.find "="%char (line_text (Assign p1 k p2 p3 v p4))
                    = Some (length (p1 ++ k ++ p2))).
    { rewrite Hline. apply find_first_occurrence. rewrite !not_elem_of_app.
      split; [by apply all_ws_not_in|]. split; [done|by apply all_ws_not_in]. }
    destruct (p1 ++ k) as [|c0 pk] eqn:Hpk.
    { apply app_eq_nil in Hpk as [_ ->]. done. }
    cbn [head] in Hhead. apply andb_true_iff in Hhead as [Hh1 Hh2].
    assert (Hstart : ∃ tl, line_text (Assign p1 k p2 p3 v p4) = c0 :: tl).
    { cbn [line_text]. rewrite (app_assoc p1 k), Hpk. cbn [app]. eauto. }
    destruct Hstart as [tl Htl]. apply bool_decide_eq_true in Hh1, Hh2.
    rewrite (load_line_unfold st _ tl c0 Htl Hh1 Hh2), Hfind, Hline.
    rewrite take_app_length.
    assert (Hdrop : drop (length (p1 ++ k ++ p2) + 1)
                      ((p1 ++ k ++ p2) ++ "="%char :: p3 ++ v ++ p4) = p3 ++ v ++ p4).
    { generalize (p1 ++ k ++ p2). intros a.
      induction a as [|x a IH]; [done|]. cbn. exact IH. }
    rewrite Hdrop, !trim_tight by done. cbn [assign]. by destruct k.
  - cbn [line_text assign]. destruct line as [|c rest]; [done|].
    unfold Settings.load_line.
    destruct (bool_decide (c = "#"%char) || bool_decide (c = "!"%char)); [done|].
    cbn [orb] in Hl. destruct (Settings.find "="%char (c :: rest)) as [pos|]; [|done].
    unfold Settings.substr. cbn [drop]. by rewrite trim_all_ws.
Qed.

Lemma read_lines_line (l rest : Settings.str) :
  "010"%char ∉ l →
  Settings.read_lines (l ++ "010"%char :: rest) = l :: Settings.read_lines rest.
Proof.
  intros Hl. induction l as [|c l IH]; cbn [app Settings.read_lines].
  - by rewrite decide_True.
  - apply not_elem_of_cons in Hl as [Hc Hl]. rewrite decide_False by done.
    by rewrite IH.
Qed.

Lemma read_lines_last (l : Settings.str) :
  "010"%char ∉ l → l ≠ [] → Settings.read_lines l = [l].
Proof.
  intros Hl Hne. induction l as [|c l IH]; [done|]. cbn [Settings.read_lines].
  apply not_elem_of_cons in Hl as [Hc Hl]. rewrite decide_False by done.
  destruct l as [|c' l']; [done|]. by rewrite IH.
Qed.

Lemma load_joined_lines (st : Settings.ApplicationSettings) (lines : list Settings.str)
    (final_newline : bool) :
  (∀ l, l ∈ lines → "010"%char ∉ l) →
  foldl Settings.load_line st
    (Settings.read_lines
       (join_lines lines ++ (if final_newline then ["010"%char] else [])))
  = foldl Settings.load_line st lines.
Proof.
  revert st. induction lines as [|l rest IH]; intros st Hnl.
  - by destruct final_newline.
  - assert (Hl : "010"%char ∉ l) by (apply Hnl; by left).
    destruct rest as [|l2 rest'].
    + cbn [join_lines]. destruct final_newline.
      * by rewrite read_lines_line.
      * rewrite app_nil_r. destruct l as [|c l']; [done|]. by rewrite read_lines_last.
    + change (join_lines (l :: l2 :: rest')) with (l ++ "010"%char :: join_lines (l2 :: rest')).
      rewrite <- app_assoc. cbn [app]. rewrite read_lines_line by done.
      cbn [foldl]. apply IH. intros l' Hin. apply Hnl. by right.
Qed.

Lemma assign_other_key (st : Settings.ApplicationSettings) (ls : list settings_line)
    (k : Settings.str) :
  (∀ l, l ∈ ls → assigned_key l ≠ Some k) →
  Settings.properties (foldl assign st ls) !! k = Settings.properties st !! k.
Proof.
  revert st. induction ls as [|l ls IH]; intros st Hk; [done|]. cbn [foldl].
  rewrite IH by (intros l' Hin; apply Hk; by right).
  assert (Hl : assigned_key l ≠ Some k) by (apply Hk; by left).
  destruct l as [p1 k' p2 p3 v p4|line]; [|done]. cbn.
  rewrite lookup_insert_ne; [done|]. intros ->. by apply Hl.
Qed.

(** X22: load throws std::runtime_error for a file it cannot open.
    Otherwise it reads the file line by line: a line [key = value], with
    or without whitespace around the key and the value, sets the key to the
    value; empty lines, lines that start with '#' or '!', lines without
    '=' and lines with nothing but whitespace before the '=' change
    nothing; the last line need not end in a newline. The last assignment
    to a key is the one getString, getBool and hasKey see, and a key the
    file does not assign is as it was before the call. *)
Theorem X22_load_reads_assignments (fs : Settings.str → option Settings.str)
    (st : Settings.ApplicationSettings) (filePath : Settings.str) :
  (fs filePath = None →
   Settings.load fs st filePath
   = Settings.Throws (Settings.RuntimeError
       (String.list_ascii_of_string "Cannot open settings file: " ++ filePath)))
  ∧ ∀ (final_newline : bool) (ls : list settings_line),
      forallb line_ok ls = true →
      fs filePath = Some (file_text final_newline ls) →
      Settings.load fs st filePath = Settings.Returns (foldl assign st ls)
      ∧ (∀ before p1 k p2 p3 v p4 after,
           ls = before ++ Assign p1 k p2 p3 v p4 :: after →
           (∀ l, l ∈ after → assigned_key l ≠ Some k) →
           Settings.getString (foldl assign st ls) k = Settings.Returns v
           ∧ Settings.hasKey (foldl assign st ls) k = true
           ∧ Settings.getBool (foldl assign st ls) k
             = Settings.Returns
                 (bool_decide (v ∈ String.list_ascii_of_string
                                     <$> ["true"; "1"; "yes"]%string)))
      ∧ (∀ k, (∀ l, l ∈ ls → assigned_key l ≠ Some k) →
           Settings.getString (foldl assign st ls) k = Settings.getString st k
           ∧ Settings.hasKey (foldl assign st ls) k = Settings.hasKey st k).
Proof.
  split.
  - intros Hfs. unfold Settings.load. by rewrite Hfs.
  - intros final_newline ls Hok Hfs. split; [|split].
    + unfold Settings.load. rewrite Hfs. f_equal. unfold file_text.
      rewrite load_joined_lines.
      * clear Hfs. revert st. induction ls as [|l ls IH]; intros st; [done|].
        cbn [forallb] in Hok. apply andb_true_iff in Hok as [Hl Hok].
        cbn [fmap list_fmap foldl]. rewrite load_line_ok by done. by apply IH.
      * intros l (l0 & -> & Hin)%list_elem_of_fmap.
        rewrite forallb_forall in Hok. apply list_elem_of_In, Hok in Hin.
        unfold line_ok in Hin. apply andb_true_iff in Hin as [Hnl _].
        by apply bool_decide_eq_true in Hnl.
    + intros before p1 k p2 p3 v p4 after -> Hafter.
      assert (Hk : Settings.properties
                     (foldl assign st (before ++ Assign p1 k p2 p3 v p4 :: after)) !! k
                   = Some v).
      { rewrite foldl_app. cbn [foldl]. rewrite assign_other_key by done.
        cbn. by rewrite lookup_insert_eq. }
      unfold Settings.getBool, Settings.getString, Settings.hasKey. rewrite Hk.
      split; [done|]. split; [by apply bool_decide_eq_true_2|]. f_equal.
      destruct (decide (v = String.list_ascii_of_string "true")) as [->|H1];
        [by vm_compute|].
      destruct (decide (v = String.list_ascii_of_string "1")) as [->|H2];
        [by vm_compute|].
      destruct (decide (v = String.list_ascii_of_string "yes")) as [->|H3];
        [by vm_compute|].
      rewrite !bool_decide_eq_false_2; [done| |done..].
      cbn. rewrite !elem_of_cons, elem_of_nil. tauto.
    + intros k Hk. unfold Settings.getString, Settings.hasKey.
      by rewrite assign_other_key.
Qed.

Lemma X22_load_reads_assignments_witness :
  ∃ st, Settings.load (λ _, Some (file_text false example_settings)) Settings.new []
        = Settings.Returns st
        ∧ Settings.getString st (String.list_ascii_of_string "title")
          = Settings.Returns (String.list_ascii_of_string "Menu")
        ∧ Settings.getBool st (String.list_ascii_of_string "#fullscreen")
          = Settings.Returns true.
Proof.
  destruct (proj2 (X22_load_reads_assignments
                     (λ _, Some (file_text false example_settings)) Settings.new [])
              false example_settings) as (Hload & Hlast & _).
  - vm_compute. reflexivity.
  - reflexivity.
  - eexists. split; [exact Hload|]. split; vm_compute; reflexivity.
Defined.

(** ** hello_world: TerminalSystem::update on the world *)

Lemma write_component_frame {T} (w : World T) (ti : TypeIndex) (e : Entity) (v v0 : T) :
  (∀ ti' a, typeToArray (componentManager w) !! ti' = Some a → dense_inv a) →
  W.getComponent w ti e = Ok v0 →
  ∃ w', write_component w ti e v = Ok w'
        ∧ entityManager w' = entityManager w
        ∧ systems w' = systems w
        ∧ systemOrder w' = systemOrder w
        ∧ (∀ ti' a, typeToArray (componentManager w') !! ti' = Some a → dense_inv a)
        ∧ (∀ ti' e', W.hasComponent w' ti' e' = W.hasComponent w ti' e')
        ∧ (∀ ti' e', ti' ≠ ti ∨ e' ≠ e → W.getComponent w' ti' e' = W.getComponent w ti' e')
        ∧ W.getComponent w' ti e = Ok v.
Proof.
  intros Hdense Hget.
  unfold W.getComponent, CM.getComponent, CM.getComponentArray in Hget.
  destruct (typeToArray (componentManager w) !! ti) as [a|] eqn:Ha; [|discriminate].
  cbn [mbind result_bind] in Hget. unfold CA.get in Hget.
  destruct (entityToIndex a !! e) as [i|] eqn:Hi; [|discriminate].
  unfold vec_get in Hget. destruct (components a !! i) as [x|] eqn:Hx; [|discriminate].
  pose proof (lookup_lt_Some _ _ _ Hx) as Hlt.
  pose proof (Hdense ti a Ha) as Hinv.
  unfold write_component, CM.getComponentArray. rewrite Ha. cbn [mbind result_bind].
  rewrite Hi. unfold vec_set. rewrite decide_True by done. cbn [mbind result_bind].
  eexists. split; [reflexivity|]. cbn [entityManager systems systemOrder componentManager
    typeToArray].
  split; [done|]. split; [done|]. split; [done|].
  set (a' := {| components := <[i := v]> (components a);
                entityToIndex := entityToIndex a; indexToEntity := indexToEntity a |}).
  assert (Hget' : ∀ e', CA.get a' e' = if decide (e' = e) then Ok v else CA.get a e').
  { intros e'. unfold CA.get. cbn [entityToIndex components a'].
    case_decide as Heq.
    - subst e'. rewrite Hi. unfold vec_get. by rewrite list_lookup_insert_eq.
    - destruct (entityToIndex a !! e') as [i'|] eqn:Hi'; [|done].
      unfold vec_get. rewrite list_lookup_insert_ne; [done|].
      intros <-. apply Heq. by apply (dense_inj a Hinv e' e i). }
  split; [|split; [|split]].
  - intros ti' a0. rewrite lookup_insert. case_decide; [|by apply Hdense].
    intros [= <-]. destruct Hinv as (Hlen & Hsize & Hback).
    split; [|split]; cbn; by rewrite ?length_insert.
  - intros ti' e'. unfold W.hasComponent, CM.hasComponent, CM.getComponentArray.
    cbn [componentManager typeToArray]. rewrite lookup_insert. case_decide; [|done].
    subst ti'. by rewrite Ha.
  - intros ti' e' Hne. unfold W.getComponent, CM.getComponent, CM.getComponentArray.
    cbn [componentManager typeToArray]. rewrite lookup_insert. case_decide as Heq; [|done].
    subst ti'. rewrite Ha. cbn [mbind result_bind]. rewrite Hget'.
    destruct Hne as [?|Hne]; [done|]. by rewrite decide_False.
  - unfold W.getComponent, CM.getComponent, CM.getComponentArray.
    cbn [componentManager typeToArray]. rewrite lookup_insert_eq.
    cbn [mbind result_bind]. rewrite Hget'. by rewrite decide_True.
Qed.

Lemma omap_agree {A B} (f g : A → option B) (l : list A) :
  (∀ x, x ∈ l → f x = g x) → omap f l = omap g l.
Proof.
  induction l as [|x l IH]; intros Hfg; [done|]. cbn [omap list_omap].
  rewrite (Hfg x) by (by left). rewrite IH; [done|]. intros y Hy. apply Hfg. by right.
Qed.

Lemma update_loop_spec (l : list Entity) (w : World Hello.component) (out : list string) :
  NoDup l →
  (∀ ti a, typeToArray (componentManager w) !! ti = Some a → dense_inv a) →
  (∀ e, e ∈ l → holds_message w e) →
  ∃ w', Hello.update_loop l w out = Ok (w', out ++ (omap (pending w) l ≫= Hello.message))
        ∧ entityManager w' = entityManager w
        ∧ systems w' = systems w
        ∧ systemOrder w' = systemOrder w
        ∧ (∀ ti e, W.hasComponent w' ti e = W.hasComponent w ti e)
        ∧ (∀ ti e, ti ≠ "MessageStatusComponent" →
                   W.getComponent w' ti e = W.getComponent w ti e)
        ∧ (∀ e, W.getComponent w' "MessageStatusComponent" e
                = if decide (e ∈ l) then Ok (Hello.MessageStatusComponent true)
                  else W.getComponent w "MessageStatusComponent" e).
Proof.
  revert w out. induction l as [|e rest IH]; intros w out Hnd Hdense Hall.
  - exists w. cbn. rewrite app_nil_r. repeat split; done.
  - apply NoDup_cons in Hnd as [Hnotin Hnd].
    destruct (Hall e (list_elem_of_here _ _)) as (text & printed & Htext & Hstatus).
    cbn [Hello.update_loop]. rewrite Htext, Hstatus. cbn [mbind result_bind].
    destruct printed; cbn [negb].
    + destruct (IH w out Hnd Hdense) as (w' & Hloop & Hem & Hsys & Hord & Hhas & Hoth & Hst).
      { intros e' Hin. apply Hall. by right. }
      exists w'. split; [|split; [done|split; [done|split; [done|split; [done|split; [done|]]]]]].
      * rewrite Hloop. cbn [omap list_omap].
        assert (Hp : pending w e = None) by (unfold pending; by rewrite Htext, Hstatus).
        by rewrite Hp.
      * intros e'. rewrite Hst. destruct (decide (e' = e)) as [->|Hne].
        -- rewrite decide_False by done. rewrite decide_True by (by left). done.
        -- destruct (decide (e' ∈ rest)) as [Hin|Hout].
           ++ rewrite decide_True; [done|by right].
           ++ rewrite decide_False; [done|]. rewrite not_elem_of_cons. done.
    + destruct (write_component_frame w "MessageStatusComponent" e
                  (Hello.MessageStatusComponent true) _ Hdense Hstatus)
        as (w1 & Hwrite & Hem1 & Hsys1 & Hord1 & Hdense1 & Hhas1 & Hoth1 & Hnew1).
      rewrite Hwrite. cbn [mbind result_bind].
      assert (Hpend : ∀ e', e' ≠ e → pending w1 e' = pending w e').
      { intros e' Hne. unfold pending. rewrite !Hoth1; [done|by right|by left]. }
      destruct (IH w1 (out ++ Hello.message text) Hnd Hdense1)
        as (w' & Hloop & Hem & Hsys & Hord & Hhas & Hoth & Hst).
      { intros e' Hin. destruct (Hall e') as (t' & p' & Ht' & Hp'); [by right|].
        assert (e' ≠ e) by (intros ->; done).
        exists t', p'. rewrite !Hoth1; [done|by right|by left]. }
      exists w'. split; [|split; [congruence|split; [congruence|split; [congruence|]]]].
      { rewrite Hloop.
        rewrite (omap_agree (pending w1) (pending w) rest)
          by (intros e' Hin; apply Hpend; intros ->; done).
        cbn [omap list_omap].
        assert (Hp : pending w e = Some text) by (unfold pending; by rewrite Htext, Hstatus).
        rewrite Hp. cbn [mbind list_bind]. by rewrite <- app_assoc. }
      split; [|split].
      * intros ti e'. by rewrite Hhas, Hhas1.
      * intros ti e' Hne. rewrite Hoth by done. apply Hoth1. by left.
      * intros e'. rewrite Hst. destruct (decide (e' = e)) as [->|Hne].
        -- rewrite decide_False by done. rewrite decide_True by (by left). done.
        -- destruct (decide (e' ∈ rest)) as [Hin|Hout].
           ++ rewrite decide_True; [done|by right].
           ++ rewrite decide_False by (rewrite not_elem_of_cons; done).
              apply Hoth1. by right.
Qed.

Lemma update_loop_idle (l : list Entity) (w : World Hello.component) (out : list string) :
  (∀ e, e ∈ l → ∃ text,
     W.getComponent w "TextComponent" e = Ok (Hello.TextComponent text)
     ∧ W.getComponent w "MessageStatusComponent" e = Ok (Hello.MessageStatusComponent true)) →
  Hello.update_loop l w out = Ok (w, out).
Proof.
  induction l as [|e rest IH]; intros Hall; [done|].
  destruct (Hall e (list_elem_of_here _ _)) as (text & Htext & Hstatus).
  cbn [Hello.update_loop]. rewrite Htext, Hstatus. cbn. apply IH.
  intros e' Hin. apply Hall. by right.
Qed.

Lemma ascending_spec (s : gset Entity) :
  StronglySorted N.le (ascending s) ∧ NoDup (ascending s)
  ∧ ∀ e, e ∈ ascending s ↔ e ∈ s.
Proof.
  unfold ascending. split; [apply StronglySorted_merge_sort; apply _|]. split.
  - rewrite merge_sort_Permutation. apply NoDup_elements.
  - intros e. rewrite merge_sort_Permutation. apply elem_of_elements.
Qed.

(** X23: when every entity of the system's set holds a TextComponent and a
    MessageStatusComponent, TerminalSystem::update returns normally; it
    walks the set in ascending order of the ids and writes the message of
    exactly the entities whose printed flag is false; afterwards the flag
    of every entity of the set is true, and the texts, the other
    entities' flags, the signatures and the systems are as before; so a
    second update writes nothing and changes nothing. *)
Theorem X23_terminal_system_prints_once {Time} (w : World Hello.component) (s : System)
    (dt : Time) :
  reachable w →
  (∀ e, e ∈ entities s → holds_message w e) →
  (StronglySorted N.le (ascending (entities s)) ∧ NoDup (ascending (entities s))
   ∧ ∀ e, e ∈ ascending (entities s) ↔ e ∈ entities s)
  ∧ ∃ w',
      Hello.update s w dt
      = Ok (w', omap (pending w) (ascending (entities s)) ≫= Hello.message)
      ∧ (∀ e, e ∈ entities s →
           W.getComponent w' "MessageStatusComponent" e
           = Ok (Hello.MessageStatusComponent true))
      ∧ (∀ e, e ∉ entities s →
           W.getComponent w' "MessageStatusComponent" e
           = W.getComponent w "MessageStatusComponent" e)
      ∧ (∀ ti e, ti ≠ "MessageStatusComponent" →
           W.getComponent w' ti e = W.getComponent w ti e)
      ∧ (∀ ti e, W.hasComponent w' ti e = W.hasComponent w ti e)
      ∧ entityManager w' = entityManager w
      ∧ systems w' = systems w
      ∧ Hello.update s w' dt = Ok (w', []).
Proof.
  intros Hreach Hall. pose proof (ascending_spec (entities s)) as (Hsorted & Hnd & Hin).
  split; [done|].
  pose proof (reachable_inv w Hreach) as (_ & (_ & _ & _ & _ & Hdense) & _).
  destruct (update_loop_spec (ascending (entities s)) w [] Hnd Hdense)
    as (w' & Hloop & Hem & Hsys & Hord & Hhas & Hoth & Hst).
  { intros e He. apply Hall. by apply Hin. }
  exists w'. split; [exact Hloop|].
  split; [|split; [|split; [|split; [|split; [|split]]]]]; try done.
  - intros e He. rewrite Hst. by rewrite decide_True by (by apply Hin).
  - intros e He. rewrite Hst. by rewrite decide_False by (by rewrite Hin).
  - unfold Hello.update. apply update_loop_idle. intros e He.
    destruct (Hall e) as (text & printed & Htext & _); [by apply Hin|].
    exists text. split.
    + by rewrite Hoth.
    + rewrite Hst. by rewrite decide_True.
Qed.

Lemma X23_terminal_system_prints_once_witness :
  ∃ w', Hello.update (mkSystem {[1]} "TerminalSystem" 3 true "TerminalSystem" 0)
          hello_world tt
        = Ok (w', Hello.message "Hello World!")
        ∧ Hello.update (mkSystem {[1]} "TerminalSystem" 3 true "TerminalSystem" 0) w' tt
          = Ok (w', []).
Proof.
  destruct (X23_terminal_system_prints_once hello_world
              (mkSystem {[1]} "TerminalSystem" 3 true "TerminalSystem" 0) tt)
    as (_ & w' & Hrun & _ & _ & _ & _ & _ & _ & Hagain).
  - exists hello_calls. split; vm_compute; reflexivity.
  - intros e He. cbn [entities] in He. apply elem_of_singleton in He as ->.
    exists "Hello World!", false. split; vm_compute; reflexivity.
  - exists w'. split; [|exact Hagain]. rewrite Hrun. f_equal.
Defined.

Lemma insert_get {T} (ca ca' : ComponentArray T) (e e' : Entity) (v : T) :
  dense_inv ca →
  CA.insert ca e v = Ok ca' →
  CA.get ca' e' = if decide (e' = e) then Ok v else CA.get ca e'.
Proof.
  intros Hinv Hins. unfold CA.insert in Hins. ok_inv Hins. ok_inv Hins. subst ca'.
  unfold CA.get. cbn [entityToIndex components]. rewrite lookup_insert.
  destruct (decide (e = e')) as [->|Hne].
  - rewrite decide_True by done. unfold vec_get. by rewrite list_lookup_middle.
  - rewrite decide_False by done.
    destruct (entityToIndex ca !! e') as [i|] eqn:Hi; [|done].
    unfold vec_get. by rewrite lookup_app_l by (by eapply dense_index_lt).
Qed.

Lemma stores_typed_step (c : api_call Hello.component) (w w' : World Hello.component) :
  world_inv w → stores_typed w → typed_call c = true →
  api_step c w = Ok w' → stores_typed w'.
Proof.
  intros Hinv Htyped Hc Hstep. pose proof Hinv as (_ & (_ & _ & _ & _ & Hdense) & _).
  destruct c as [ti|cls nm sig| |e|ti e v|ti e]; cbn [api_step] in Hstep.
  - unfold W.registerComponent in Hstep. ok_inv Hstep. ok_inv Hstep. subst w'.
    unfold CM.registerComponent in Hstep0. ok_inv Hstep0. ok_inv Hstep0. subst a.
    intros ti' a e v. cbn. rewrite lookup_insert. case_decide; [|by apply Htyped].
    by intros [= <-].
  - ok_inv Hstep. by subst w'.
  - ok_inv Hstep. destruct a as [id w1]. ok_inv Hstep. subst w1.
    unfold W.createEntity in Hstep0. ok_inv Hstep0. destruct a as [id' em'].
    ok_inv Hstep0. by subst w'.
  - intros ti a' e' v. rewrite (destroyEntity_inv w w' e Hstep). cbn.
    rewrite lookup_fmap. destruct (typeToArray (componentManager w) !! ti) as [a|] eqn:Ha;
      [|done].
    intros [= <-].
    destruct (entityDestroyed_dense a e (Hdense ti a Ha)) as (a' & Heq & _ & Hdom & Hget).
    rewrite Heq. cbn [from_ok]. destruct (decide (e' = e)) as [->|Hne].
    + unfold CA.get.
      assert (Hnone : entityToIndex a' !! e = None).
      { apply not_elem_of_dom. rewrite Hdom. set_solver. }
      by rewrite Hnone.
    + rewrite Hget by done. by apply Htyped.
  - apply bool_decide_eq_true in Hc.
    apply addComponent_Ok in Hstep as (a & a' & sig & bit & em1 & Ha & Hins & _ & _ & _ & _ & ->).
    intros ti' a0 e' v'. cbn. rewrite lookup_insert. case_decide as Heq; [|by apply Htyped].
    subst ti'. intros [= <-]. rewrite (insert_get a a' e e' v (Hdense ti a Ha) Hins).
    case_decide; [by intros [= <-]|]. by apply Htyped.
  - apply removeComponent_Ok in Hstep
      as (a & a' & sig & bit & em1 & Ha & Hrm & _ & _ & _ & _ & ->).
    intros ti' a0 e' v'. cbn. rewrite lookup_insert. case_decide as Heq; [|by apply Htyped].
    subst ti'. intros [= <-].
    assert (Hr : ∃ r, entityToIndex a !! e = Some r).
    { unfold CA.remove in Hrm. destruct (entityToIndex a !! e); [eauto|discriminate]. }
    destruct Hr as [r Hr].
    destruct (remove_dense a (Hdense ti a Ha) e r Hr) as (a2 & Hrm2 & _ & Hdom & _ & Hget).
    assert (a2 = a') as -> by congruence.
    destruct (decide (e' = e)) as [->|Hne].
    + unfold CA.get.
      assert (Hnone : entityToIndex a' !! e = None).
      { apply not_elem_of_dom. rewrite Hdom. set_solver. }
      by rewrite Hnone.
    + rewrite Hget by done. by apply Htyped.
Qed.

Lemma stores_typed_run (calls : list (api_call Hello.component))
    (w w' : World Hello.component) :
  world_inv w → stores_typed w →
  nextBit (componentManager w) + N.of_nat (length calls) < 2 ^ 64 →
  forallb typed_call calls = true →
  api_run calls w = Ok w' → stores_typed w'.
Proof.
  revert w. induction calls as [|c rest IH]; intros w Hinv Htyped Hwrap Hall Hrun;
    cbn [api_run] in Hrun.
  - by ok_inv Hrun; subst.
  - ok_inv Hrun. cbn [length] in Hwrap. cbn [forallb] in Hall.
    apply andb_true_iff in Hall as [Hc Hall].
    destruct (world_inv_step c w a Hinv) as [Hinv1 Hnext]; [lia|done|].
    apply (IH a); [done| |lia|done|done]. by apply (stores_typed_step c w).
Qed.

Lemma members_hold_all {T} (w : World T) (nm : string) (s : System) (tis : list TypeIndex)
    (e : Entity) :
  world_inv w → membership_consistent w →
  systems w !! nm = Some s →
  W.makeSignature w tis = Ok (signature s) →
  e ∈ entities s →
  ∀ ti, ti ∈ tis → W.hasComponent w ti e = Ok true.
Proof.
  intros Hinv Hcons Hs Hmk He. apply (Hcons nm s e Hs) in He as (_ & sig & Hget & Hm).
  by apply (matches_iff_holds_all w tis (signature s) sig e).
Qed.

(** X24: in a program that registers TerminalSystem, with the signature
    makeSignature <TextComponent, MessageStatusComponent> gives, before it
    adds, removes or destroys anything, every call of the system's update
    returns normally: each entity of its set holds both components. It
    writes the messages of the entities of the set whose printed flag is
    false, in ascending order of the ids, and an update that follows
    writes nothing. *)
Theorem X24_terminal_system_never_fails {Time}
    (setup body : list (api_call Hello.component)) (w : World Hello.component)
    (nm : string) (s : System) (dt : Time) :
  forallb is_setup_call setup = true →
  forallb registers_no_system body = true →
  forallb typed_call (setup ++ body) = true →
  N.of_nat (length (setup ++ body)) < 2 ^ 64 →
  api_run (setup ++ body) W.new = Ok w →
  W.getSystem w nm = Some s →
  W.makeSignature w ["TextComponent"; "MessageStatusComponent"] = Ok (signature s) →
  (∀ e, e ∈ entities s → holds_message w e)
  ∧ ∃ w',
      Hello.update s w dt
      = Ok (w', omap (pending w) (ascending (entities s)) ≫= Hello.message)
      ∧ Hello.update s w' dt = Ok (w', []).
Proof.
  intros Hsetup Hbody Htyped Hlen Hrun Hs Hmk.
  assert (Hinv : world_inv w) by (apply reachable_inv; by exists (setup ++ body)).
  assert (Hty : stores_typed w).
  { apply (stores_typed_run (setup ++ body) W.new w);
      [apply world_inv_new| |by cbn|done|done].
    intros ti a e v Ha. cbn in Ha. by rewrite lookup_empty in Ha. }
  assert (Hcons : membership_consistent w).
  { apply api_run_app in Hrun as (w1 & Hrun1 & Hrun2).
    destruct (setup_run setup W.new w1 Hsetup) as [Hcons1 Hne1].
    { apply consistent_new. }
    { intros nm' s' Hs'. cbn in Hs'. by rewrite lookup_empty in Hs'. }
    { intros i sig Hsig. cbn in Hsig. by apply lookup_replicate in Hsig as [-> _]. }
    { exact Hrun1. }
    by destruct (body_run body w1 w Hbody Hcons1 Hne1 Hrun2). }
  pose proof Hinv as (_ & (_ & _ & _ & _ & Hdense) & _).
  assert (Hall : ∀ e, e ∈ entities s → holds_message w e).
  { intros e He.
    pose proof (members_hold_all w nm s _ e Hinv Hcons Hs Hmk He) as Hhas.
    assert (Hget : ∀ ti, ti ∈ ["TextComponent"; "MessageStatusComponent"] →
                     ∃ v, W.getComponent w ti e = Ok v ∧ component_type v = ti).
    { intros ti Hti. apply Hhas in Hti. apply hasComponent_Ok in Hti as (a & Ha & Hhasa).
      destruct (dense_get_Ok a (Hdense ti a Ha) e Hhasa) as [v Hv].
      exists v. split; [by rewrite (proj1 (getComponent_array w ti a e Ha))|].
      by apply (Hty ti a e v). }
    destruct (Hget "TextComponent") as (v1 & Hv1 & Ht1); [by left|].
    destruct (Hget "MessageStatusComponent") as (v2 & Hv2 & Ht2); [right; by left|].
    destruct v1 as [text|]; [|discriminate]. destruct v2 as [|printed]; [discriminate|].
    by exists text, printed. }
  split; [exact Hall|].
  pose proof (ascending_spec (entities s)) as (_ & Hnd & Hin).
  destruct (update_loop_spec (ascending (entities s)) w [] Hnd Hdense)
    as (w' & Hloop & _ & _ & _ & _ & Hoth & Hst).
  { intros e He. apply Hall. by apply Hin. }
  exists w'. split; [exact Hloop|].
  unfold Hello.update. apply update_loop_idle. intros e He.
  destruct (Hall e) as (text & printed & Htext & _); [by apply Hin|].
  exists text. split.
  - by rewrite Hoth.
  - rewrite Hst. by rewrite decide_True.
Qed.

Lemma X24_terminal_system_never_fails_witness :
  ∃ w', Hello.update (mkSystem {[1]} "TerminalSystem" 3 true "TerminalSystem" 0)
          hello_world tt
        = Ok (w', Hello.message "Hello World!").
Proof.
  destruct (X24_terminal_system_never_fails (firstn 4 hello_calls) (skipn 4 hello_calls)
              hello_world "TerminalSystem"
              (mkSystem {[1]} "TerminalSystem" 3 true "TerminalSystem" 0) tt)
    as (_ & w' & Hrun & _); [reflexivity..| | | |].
  - vm_compute. reflexivity.
  - vm_compute. reflexivity.
  - vm_compute. reflexivity.
  - exists w'. rewrite Hrun. f_equal.
Defined.

(** ** SDLKeyboard: pollEvents, endFrame and the three queries *)

Lemma held_since_press_cons (k : N) (ev : Keyboard.SDL_Event)
    (rest : list Keyboard.SDL_Event) :
  held_since_press k (ev :: rest) ↔
  held_since_press k rest
  ∨ (ev = Keyboard.SDL_KEYDOWN k false ∧ Keyboard.SDL_KEYUP k ∉ rest).
Proof.
  unfold held_since_press. split.
  - intros (pre & post & Heq & Hpost). destruct pre as [|x pre].
    + injection Heq as -> ->. by right.
    + injection Heq as -> ->. left. by exists pre, post.
  - intros [(pre & post & -> & Hpost)|[-> Hrest]].
    + by exists (ev :: pre), post.
    + by exists [], rest.
Qed.

Lemma pollEvents_sets (evs : list Keyboard.SDL_Event) (kb : Keyboard.SDLKeyboard) :
  Keyboard.SDL_QUIT ∉ evs →
  ∃ kb', Keyboard.pollEvents evs kb = (true, kb', [])
    ∧ (∀ k, k ∈ Keyboard.keysPressed kb' ↔
            k ∈ Keyboard.keysPressed kb ∨ Keyboard.SDL_KEYDOWN k false ∈ evs)
    ∧ (∀ k, k ∈ Keyboard.keysReleased kb' ↔
            k ∈ Keyboard.keysReleased kb ∨ Keyboard.SDL_KEYUP k ∈ evs)
    ∧ (∀ k, k ∈ Keyboard.keysDown kb' ↔
            held_since_press k evs
            ∨ (k ∈ Keyboard.keysDown kb ∧ Keyboard.SDL_KEYUP k ∉ evs)).
Proof.
  revert kb. induction evs as [|ev rest IH]; intros kb Hq.
  - exists kb. split; [done|]. split; [|split]; intros k.
    + rewrite elem_of_nil. tauto.
    + rewrite elem_of_nil. tauto.
    + split.
      * intros Hk. right. split; [done|apply not_elem_of_nil].
      * intros [(pre & post & Heq & _)|[Hk _]]; [by destruct pre|done].
  - apply not_elem_of_cons in Hq as [Hev Hq]. cbn [Keyboard.pollEvents].
    destruct ev as [|sc rp|sc|]; [done| | |].
    + destruct rp; cbn [negb].
      * destruct (IH kb Hq) as (kb' & Hrun & Hp & Hr & Hd).
        exists kb'. split; [done|]. split; [|split]; intros k.
        -- rewrite Hp, elem_of_cons. naive_solver.
        -- rewrite Hr, elem_of_cons. naive_solver.
        -- rewrite Hd, held_since_press_cons, not_elem_of_cons. naive_solver.
      * destruct (IH {| Keyboard.keysDown := {[sc]} ∪ Keyboard.keysDown kb;
                        Keyboard.keysPressed := {[sc]} ∪ Keyboard.keysPressed kb;
                        Keyboard.keysReleased := Keyboard.keysReleased kb |} Hq)
          as (kb' & Hrun & Hp & Hr & Hd).
        exists kb'. split; [done|]. split; [|split]; intros k.
        -- rewrite Hp, elem_of_cons. cbn. rewrite elem_of_union, elem_of_singleton.
           naive_solver.
        -- rewrite Hr, elem_of_cons. naive_solver.
        -- rewrite Hd, held_since_press_cons, not_elem_of_cons. cbn.
           rewrite elem_of_union, elem_of_singleton. naive_solver.
    + destruct (IH {| Keyboard.keysDown := Keyboard.keysDown kb ∖ {[sc]};
                      Keyboard.keysPressed := Keyboard.keysPressed kb;
                      Keyboard.keysReleased := {[sc]} ∪ Keyboard.keysReleased kb |} Hq)
        as (kb' & Hrun & Hp & Hr & Hd).
      exists kb'. split; [done|]. split; [|split]; intros k.
      * rewrite Hp, elem_of_cons. naive_solver.
      * rewrite Hr, elem_of_cons. cbn. rewrite elem_of_union, elem_of_singleton.
        naive_solver.
      * rewrite Hd, held_since_press_cons, not_elem_of_cons. cbn.
        rewrite elem_of_difference, elem_of_singleton. naive_solver.
    + destruct (IH kb Hq) as (kb' & Hrun & Hp & Hr & Hd).
      exists kb'. split; [done|]. split; [|split]; intros k.
      * rewrite Hp, elem_of_cons. naive_solver.
      * rewrite Hr, elem_of_cons. naive_solver.
      * rewrite Hd, held_since_press_cons, not_elem_of_cons. naive_solver.
Qed.

(** X25: one frame of keyboard input, endFrame followed by pollEvents on a
    queue without SDL_QUIT: pollEvents returns true and empties the queue;
    afterwards isKeyPressed holds exactly for the keys with a first-time
    (non-repeat) SDL_KEYDOWN in the queue, isKeyReleased exactly for the
    keys with an SDL_KEYUP in it, and isKeyDown exactly for the keys
    pressed in the queue and not released after that press, and for the
    keys that were down before and have no SDL_KEYUP in the queue. When
    the queue holds an SDL_QUIT, pollEvents returns false, has processed
    the events before the first SDL_QUIT and leaves the events after it in
    the queue. *)
Theorem X25_keyboard_frame (kb : Keyboard.SDLKeyboard) (evs : list Keyboard.SDL_Event) :
  Keyboard.SDL_QUIT ∉ evs →
  (∃ kb', Keyboard.pollEvents evs (Keyboard.endFrame kb) = (true, kb', [])
     ∧ (∀ k, Keyboard.isKeyPressed kb' k = true ↔ Keyboard.SDL_KEYDOWN k false ∈ evs)
     ∧ (∀ k, Keyboard.isKeyReleased kb' k = true ↔ Keyboard.SDL_KEYUP k ∈ evs)
     ∧ (∀ k, Keyboard.isKeyDown kb' k = true ↔
             held_since_press k evs
             ∨ (Keyboard.isKeyDown kb k = true ∧ Keyboard.SDL_KEYUP k ∉ evs)))
  ∧ ∀ later, Keyboard.pollEvents (evs ++ Keyboard.SDL_QUIT :: later) kb
             = (false, (Keyboard.pollEvents evs kb).1.2, later).
Proof.
  intros Hq. split.
  - destruct (pollEvents_sets evs (Keyboard.endFrame kb) Hq) as (kb' & Hrun & Hp & Hr & Hd).
    exists kb'. split; [done|].
    unfold Keyboard.isKeyPressed, Keyboard.isKeyReleased, Keyboard.isKeyDown.
    split; [|split]; intros k; rewrite !bool_decide_eq_true.
    + rewrite Hp. cbn. rewrite elem_of_empty. tauto.
    + rewrite Hr. cbn. rewrite elem_of_empty. tauto.
    + rewrite Hd. done.
  - intros later. clear - Hq. revert kb.
    induction evs as [|ev rest IH]; intros kb; [done|].
    apply not_elem_of_cons in Hq as [Hev Hq]. cbn [app Keyboard.pollEvents].
    destruct ev as [|sc rp|sc|]; [done| | |]; [destruct rp; cbn [negb]|..]; by apply IH.
Qed.

Lemma X25_keyboard_frame_witness :
  ∃ kb', Keyboard.pollEvents
           [Keyboard.SDL_KEYDOWN 4 false; Keyboard.SDL_KEYDOWN 7 true; Keyboard.SDL_KEYUP 4;
            Keyboard.SDL_KEYDOWN 9 false]
           (Keyboard.endFrame {| Keyboard.keysDown := {[7]}; Keyboard.keysPressed := {[7]};
                                 Keyboard.keysReleased := ∅ |})
         = (true, kb', [])
         ∧ Keyboard.isKeyDown kb' 4 = false ∧ Keyboard.isKeyPressed kb' 4 = true
         ∧ Keyboard.isKeyDown kb' 7 = true ∧ Keyboard.isKeyPressed kb' 7 = false.
Proof.
  destruct (X25_keyboard_frame
              {| Keyboard.keysDown := {[7]}; Keyboard.keysPressed := {[7]};
                 Keyboard.keysReleased := ∅ |}
              [Keyboard.SDL_KEYDOWN 4 false; Keyboard.SDL_KEYDOWN 7 true; Keyboard.SDL_KEYUP 4;
               Keyboard.SDL_KEYDOWN 9 false]) as [(kb' & Hrun & _) _].
  - rewrite !not_elem_of_cons. repeat split; try discriminate. apply not_elem_of_nil.
  - exists kb'. split; [exact Hrun|].
    vm_compute in Hrun. injection Hrun as <-. vm_compute. done.
Defined.

(** ** Entities that have been created but hold no component *)

Lemma stores_dense_new {T} : stores_dense (@W.new T).
Proof.
  split; [apply length_replicate|]. intros ti a Ha. cbn in Ha.
  by rewrite lookup_empty in Ha.
Qed.

Lemma stores_dense_step {T} (c : api_call T) (w w' : World T) :
  stores_dense w → api_step c w = Ok w' → stores_dense w'.
Proof.
  intros [Hlen Hdense] Hstep.
  destruct c as [ti|cls nm sig| |e|ti e v|ti e]; cbn [api_step] in Hstep.
  - unfold W.registerComponent in Hstep. ok_inv Hstep. ok_inv Hstep. subst w'.
    unfold CM.registerComponent in Hstep0. ok_inv Hstep0. ok_inv Hstep0. subst a.
    split; [done|]. intros ti' a. cbn. rewrite lookup_insert.
    case_decide; [|by apply Hdense]. intros [= <-]. apply dense_inv_new.
  - ok_inv Hstep. by subst w'.
  - ok_inv Hstep. destruct a as [id w1]. ok_inv Hstep. subst w1.
    unfold W.createEntity in Hstep0. ok_inv Hstep0. destruct a as [id' em'].
    ok_inv Hstep0. subst w'.
    unfold EM.createEntity in Hstep. ok_inv Hstep.
    destruct (availableIds (entityManager w)); [discriminate|]. ok_inv Hstep. by subst em'.
  - pose proof (destroyEntity_inv w w' e Hstep) as Hcm.
    apply destroyEntity_Ok in Hstep as (_ & _ & Hsigs & _). split.
    + unfold EM.array_ok. by rewrite Hsigs, length_insert.
    + intros ti a'. rewrite Hcm. cbn. rewrite lookup_fmap.
      destruct (typeToArray (componentManager w) !! ti) as [a|] eqn:Ha; [|done].
      intros [= <-].
      by destruct (entityDestroyed_dense a e (Hdense ti a Ha)) as (a' & -> & Hd & _).
  - apply addComponent_Ok in Hstep
      as (a & a' & sig & bit & em1 & Ha & Hins & _ & _ & _ & Hset & ->).
    apply setSignature_Ok in Hset as (_ & _ & ->). split.
    + unfold EM.array_ok. cbn. by rewrite length_insert.
    + intros ti' a0. cbn. rewrite lookup_insert. case_decide; [|by apply Hdense].
      intros [= <-].
      assert (Hhas : CA.has a e = false).
      { unfold CA.insert in Hins. by destruct (CA.has a e). }
      destruct (insert_dense a (Hdense ti a Ha) e v Hhas) as (a2 & Hins2 & Hd & _).
      congruence.
  - apply removeComponent_Ok in Hstep
      as (a & a' & sig & bit & em1 & Ha & Hrm & _ & _ & _ & Hset & ->).
    apply setSignature_Ok in Hset as (_ & _ & ->). split.
    + unfold EM.array_ok. cbn. by rewrite length_insert.
    + intros ti' a0. cbn. rewrite lookup_insert. case_decide; [|by apply Hdense].
      intros [= <-].
      assert (Hr : ∃ r, entityToIndex a !! e = Some r).
      { unfold CA.remove in Hrm. destruct (entityToIndex a !! e); [eauto|discriminate]. }
      destruct Hr as [r Hr].
      destruct (remove_dense a (Hdense ti a Ha) e r Hr) as (a2 & Hrm2 & Hd & _).
      congruence.
Qed.

Lemma holds_nothing_new {T} (e : Entity) : holds_nothing (@W.new T) e.
Proof.
  split; [|split].
  - intros sig Hsig. cbn in Hsig. by apply lookup_replicate in Hsig as [-> _].
  - intros nm s Hs. cbn in Hs. by rewrite lookup_empty in Hs.
  - intros ti a Ha. cbn in Ha. by rewrite lookup_empty in Ha.
Qed.

Lemma not_held_dom {T} (a : ComponentArray T) (e : Entity) :
  CA.has a e = false ↔ e ∉ dom (entityToIndex a).
Proof. by rewrite has_dom, bool_decide_eq_false. Qed.

(** A call that is not an addComponent on the id leaves an id that holds
    nothing as it is, and destroyEntity on the id empties it. *)
Lemma holds_nothing_step {T} (c : api_call T) (w w' : World T) (e : Entity) :
  stores_dense w →
  api_step c w = Ok w' →
  (∀ ti v, c ≠ ApiAddComponent ti e v) →
  holds_nothing w e ∨ c = ApiDestroyEntity e →
  holds_nothing w' e.
Proof.
  intros [Hlen Hdense] Hstep Hnoadd Hpre.
  pose proof (api_step_effect c w w' Hstep) as Heff.
  destruct c as [ti|cls nm sig| |e'|ti e' v|ti e']; cbn [api_step] in Hstep.
  - destruct Hpre as [(Hsig & Hsys & Hst)|]; [|discriminate].
    destruct Heff as (Hsigs & _ & Hsys').
    unfold W.registerComponent in Hstep. ok_inv Hstep. ok_inv Hstep. subst w'.
    unfold CM.registerComponent in Hstep0. ok_inv Hstep0. ok_inv Hstep0. subst a.
    split; [done|]. split; [done|]. intros ti' a. cbn. rewrite lookup_insert.
    case_decide; [|by apply Hst]. by intros [= <-].
  - destruct Hpre as [(Hsig & Hsys & Hst)|]; [|discriminate].
    ok_inv Hstep. subst w'. split; [done|]. split; [|done].
    intros nm' s. cbn. rewrite lookup_insert. case_decide; [|by apply Hsys].
    intros [= <-]. cbn. apply not_elem_of_empty.
  - destruct Hpre as [(Hsig & Hsys & Hst)|]; [|discriminate].
    ok_inv Hstep. destruct a as [id w1]. ok_inv Hstep. subst w1.
    unfold W.createEntity in Hstep0. ok_inv Hstep0. destruct a as [id' em'].
    ok_inv Hstep0. subst w'.
    unfold EM.createEntity in Hstep. ok_inv Hstep.
    destruct (availableIds (entityManager w)); [discriminate|]. ok_inv Hstep. by subst em'.
  - destruct Heff as (_ & _ & Hsigs & _ & Hsys').
    pose proof (destroyEntity_inv w w' e' Hstep) as Hcm.
    split; [|split].
    + intros sig. rewrite Hsigs. intros [(_ & <- & _)|[Hne Hl]]%list_lookup_insert_Some;
        [done|].
      destruct Hpre as [(Hsig & _)|[= ->]]; [by apply Hsig|done].
    + intros nm s'. rewrite Hsys', lookup_fmap.
      destruct (systems w !! nm) as [s|] eqn:Hs; [|done]. intros [= <-].
      destruct (erase_spec e' s) as (_ & Hother & Hself).
      destruct (decide (e = e')) as [->|Hne]; [done|].
      rewrite Hother by done.
      destruct Hpre as [(_ & Hsys & _)|[= ->]]; [by apply (Hsys nm)|done].
    + intros ti a'. rewrite Hcm. cbn. rewrite lookup_fmap.
      destruct (typeToArray (componentManager w) !! ti) as [a|] eqn:Ha; [|done].
      intros [= <-].
      destruct (entityDestroyed_dense a e' (Hdense ti a Ha)) as (a' & -> & _ & Hdom & _).
      cbn [from_ok]. apply not_held_dom. rewrite Hdom.
      destruct Hpre as [(_ & _ & Hst)|[= ->]]; [|set_solver].
      pose proof (Hst ti a Ha) as Hno%not_held_dom. set_solver.
  - destruct Hpre as [(Hsig & Hsys & Hst)|]; [|discriminate].
    assert (Hne : e' ≠ e) by (intros ->; by apply (Hnoadd ti v)).
    destruct Heff as (sig0 & bit0 & _ & _ & Hsigs & _ & Hsys').
    apply addComponent_Ok in Hstep
      as (a & a' & sig & bit & em1 & Ha & Hins & _ & _ & _ & _ & ->).
    split; [|split].
    + intros sig1. rewrite Hsigs. rewrite list_lookup_insert_ne; [apply Hsig|].
      intros Heq. by apply N2Nat.inj in Heq.
    + intros nm s'. rewrite Hsys', lookup_fmap.
      destruct (systems w !! nm) as [s|] eqn:Hs; [|done]. intros [= <-].
      destruct (refresh_spec e' (N.setbit sig0 bit0) s) as (_ & Hother & _).
      rewrite Hother by done. by apply (Hsys nm).
    + intros ti' a0. cbn. rewrite lookup_insert. case_decide; [|by apply Hst].
      intros [= <-]. subst ti'.
      assert (Hhas : CA.has a e' = false).
      { unfold CA.insert in Hins. by destruct (CA.has a e'). }
      destruct (insert_dense a (Hdense ti a Ha) e' v Hhas) as (a2 & Hins2 & _ & Hdom).
      assert (a2 = a') as -> by congruence.
      apply not_held_dom. rewrite Hdom.
      pose proof (Hst ti a Ha) as Hno%not_held_dom. set_solver.
  - destruct Hpre as [(Hsig & Hsys & Hst)|]; [|discriminate].
    destruct Heff as (sig0 & bit0 & _ & _ & Hsigs & _ & Hsys').
    apply removeComponent_Ok in Hstep
      as (a & a' & sig & bit & em1 & Ha & Hrm & _ & _ & _ & _ & ->).
    assert (Hr : ∃ r, entityToIndex a !! e' = Some r).
    { unfold CA.remove in Hrm. destruct (entityToIndex a !! e'); [eauto|discriminate]. }
    destruct Hr as [r Hr].
    assert (Hne : e' ≠ e).
    { intros ->. pose proof (Hst ti a Ha) as Hno%has_false. congruence. }
    split; [|split].
    + intros sig1. rewrite Hsigs. rewrite list_lookup_insert_ne; [apply Hsig|].
      intros Heq. by apply N2Nat.inj in Heq.
    + intros nm s'. rewrite Hsys', lookup_fmap.
      destruct (systems w !! nm) as [s|] eqn:Hs; [|done]. intros [= <-].
      destruct (refresh_spec e' (N.clearbit sig0 bit0) s) as (_ & Hother & _).
      rewrite Hother by done. by apply (Hsys nm).
    + intros ti' a0. cbn. rewrite lookup_insert. case_decide; [|by apply Hst].
      intros [= <-]. subst ti'.
      destruct (remove_dense a (Hdense ti a Ha) e' r Hr) as (a2 & Hrm2 & _ & Hdom & _).
      assert (a2 = a') as -> by congruence.
      apply not_held_dom. rewrite Hdom.
      pose proof (Hst ti a Ha) as Hno%not_held_dom. set_solver.
Qed.

Lemma holds_nothing_run {T} (calls : list (api_call T)) (w0 w : World T) (e : Entity) :
  stores_dense w0 →
  api_run calls w0 = Ok w →
  no_component_added_to e calls →
  holds_nothing w0 e ∨ ApiDestroyEntity e ∈ calls →
  holds_nothing w e ∧ stores_dense w.
Proof.
  revert w0. induction calls as [|c rest IH]; intros w0 Hdense Hrun Hno Hpre;
    cbn [api_run] in Hrun.
  - ok_inv Hrun. subst w. destruct Hpre as [?|Hin]; [done|by apply elem_of_nil in Hin].
  - ok_inv Hrun. rename a into w1.
    assert (Hno' : no_component_added_to e rest).
    { intros before ti v after ->. by apply (Hno (c :: before) ti v after). }
    pose proof (stores_dense_step c w0 w1 Hdense Hstep) as Hdense1.
    assert (Hcase : (∃ ti v, c = ApiAddComponent ti e v) ∨ ∀ ti v, c ≠ ApiAddComponent ti e v).
    { destruct c as [ti|cls nm sig| |e'|ti e' v|ti e']; try (right; intros; discriminate).
      destruct (decide (e' = e)) as [->|Hne]; [left; eauto|].
      right. intros ti' v' [= _ ? _]. done. }
    destruct Hcase as [(ti & v & ->)|Hnoadd].
    + apply (IH w1); [done|done|done|]. right. by apply (Hno [] ti v rest).
    + apply (IH w1); [done|done|done|]. destruct Hpre as [Hclean|Hin].
      * left. apply (holds_nothing_step c w0 w1 e); auto.
      * apply elem_of_cons in Hin as [<-|Hin]; [|by right].
        left. apply (holds_nothing_step (ApiDestroyEntity e) w0 w1 e); auto.
Qed.

Lemma fresh_world_one_entity :
  ∃ (w1 : World nat),
    W.createEntity W.new = Ok (1, w1)
    ∧ W.getEntityCount w1 = 1
    ∧ alive_count w1 = 0.
Proof. eexists. split; [reflexivity|]. split; vm_compute; reflexivity. Qed.

(** A component added to an id that is still waiting in the pool stays with
    it: the createEntity that hands the id out returns an id that is alive
    and in the system's set. *)
Example added_before_created :
  ∃ w w' s,
    api_run added_before_created_calls W.new = Ok w
    ∧ W.createEntity w = Ok (1, w')
    ∧ W.isAlive w' 1 = Ok true
    ∧ W.getSystem w' "Physics" = Some s ∧ 1 ∈ entities s.
Proof.
  eexists _, _, (mkSystem {[1]} "Physics" 1 true "SystemPhysics" 0).
  split; [vm_compute; reflexivity|]. split; [vm_compute; reflexivity|].
  split; [vm_compute; reflexivity|]. split; [vm_compute; reflexivity|].
  cbn [entities]. apply elem_of_singleton. reflexivity.
Qed.

(** C10: the id createEntity returns, when no component has been added to
    it (the calls before hold no addComponent on this id, or none since
    the last destroyEntity on it), is reported not alive by isAlive and is
    in no system's entity set, while getEntityCount has grown by one; so
    getEntityCount can exceed the number of ids for which isAlive returns
    true, as it does after the first createEntity on a new world. *)
Theorem C10_created_entity_not_alive {T} (calls : list (api_call T)) (w w' : World T)
    (id : Entity) :
  api_run calls W.new = Ok w →
  W.createEntity w = Ok (id, w') →
  no_component_added_to id calls →
  W.isAlive w' id = Ok false
  ∧ (∀ nm s, W.getSystem w' nm = Some s → id ∉ entities s)
  ∧ W.getEntityCount w' = W.getEntityCount w + 1
  ∧ ∃ (w1 : World nat) (id1 : Entity),
      W.createEntity W.new = Ok (id1, w1) ∧ alive_count w1 < W.getEntityCount w1.
Proof.
  intros Hrun Hcreate Hno.
  destruct (holds_nothing_run calls W.new w id stores_dense_new Hrun Hno)
    as [(Hsig & Hsys & _) [Hlen _]]; [left; apply holds_nothing_new|].
  apply createEntity_Ok in Hcreate as (Hlt & Hq & Hsigs & Hlc & Hsys' & _).
  split; [|split; [|split]].
  - unfold W.isAlive. rewrite isAlive_guard.
    destruct (entity_in_range id) eqn:Hr; cbn [negb]; [|done].
    apply in_range_spec in Hr as Hr'.
    destruct (lookup_lt_is_Some_2 (signatures (entityManager w)) (N.to_nat id)) as [sig Hl].
    { rewrite Hlen. lia. }
    pose proof (Hsig sig Hl) as ->.
    unfold EM.getSignature. rewrite Hr, Hsigs, Hl. reflexivity.
  - intros nm s Hs. unfold W.getSystem in Hs. rewrite Hsys' in Hs. by apply (Hsys nm).
  - exact Hlc.
  - destruct fresh_world_one_entity as (w1 & Hc1 & Hcount & Halive).
    exists w1, 1. split; [done|]. rewrite Hcount, Halive. done.
Qed.

Lemma C10_created_entity_not_alive_witness :
  let calls := [ApiRegisterComponent "Position"; ApiRegisterSystem "SystemPhysics" "Physics" 1;
                ApiCreateEntity; ApiAddComponent "Position" 1 10%nat;
                ApiAddComponent "Position" 3 30%nat] in
  let w := from_ok W.new (api_run calls W.new) in
  let w' := (from_ok (0, W.new) (W.createEntity w)).2 in
  W.isAlive w' 2 = Ok false
  ∧ (∀ nm s, W.getSystem w' nm = Some s → 2 ∉ entities s)
  ∧ W.getEntityCount w' = W.getEntityCount w + 1.
Proof.
  intros calls w w'.
  destruct (C10_created_entity_not_alive calls w w' 2) as (H1 & H2 & H3 & _).
  - vm_compute. reflexivity.
  - vm_compute. reflexivity.
  - intros before ti v after Heq.
    assert (Hin : ApiAddComponent ti 2 v ∈ calls).
    { rewrite Heq. apply elem_of_app. right. by left. }
    unfold calls in Hin. rewrite !elem_of_cons, elem_of_nil in Hin.
    destruct Hin as [Hin|[Hin|[Hin|[Hin|[Hin|[]]]]]]; discriminate Hin.
  - split; [exact H1|]. split; [exact H2|exact H3].
Defined.
